(** * entity-mover: queued locomotion of a scripted entity

    A shallow embedding of [src/data/scripts/utils.ts]: the [Vector3] value
    class, [calculateYaw] and the [MovementManager] class together with the
    part of the host it talks to (promises and their job queue, the tick
    scheduler [system.run] / [system.runInterval] / [system.clearRun], and
    the entity the manager is bound to), and the [entitySpawn] handler
    that drives a manager.

    Numbers are modelled as real numbers [R]: the arithmetic identities
    below are the exact ones, not the rounded ones of binary64.  The
    three arithmetic methods of [Vector3] are given a second time over
    binary64 itself, in [Binary64.Vector3], to tell the two apart.

    Closures are modelled as data.  The two closures [moveEntity] and
    [updateRotation] created by one call of [executeMove] share their
    captured variables ([startPosition], [distanceTraveled], [climbing],
    [wasOnGround], the promise's [resolve]); this shared environment is a
    [LegEnv] stored in the state, and a scheduled callback names the
    environment it closes over.

    User callbacks registered with [on] are opaque: invoking one is
    recorded in the trace of effects; they are assumed not to throw and not
    to call back into the manager. *)

From Stdlib Require Import Reals Lra Lia Bool String List.
From Stdlib Require PrimFloat.
From stdpp Require Import base option list.
Import ListNotations.

Local Open Scope R_scope.

(** ** Geometry *)

Definition Math_floor (r : R) : R := IZR (Zfloor r).

Definition Math_SQRT1_2 : R := sqrt (1 / 2).

(** [Math.atan2], by quadrant, from the library's [atan]. *)
Definition Math_atan2 (b a : R) : R :=
  if Rlt_dec 0 a then atan (b / a)
  else if Rlt_dec a 0 then
         (if Rle_dec 0 b then atan (b / a) + PI else atan (b / a) - PI)
       else if Rlt_dec 0 b then PI / 2
            else if Rlt_dec b 0 then - (PI / 2) else 0.

Module Vector3.

Record t : Type := mk { x : R; y : R; z : R }.

Definition scale (v : t) (factor : R) : t :=
  mk (x v * factor) (y v * factor) (z v * factor).

Definition add (v vector : t) : t :=
  mk (x v + x vector) (y v + y vector) (z v + z vector).

Definition subtract (v vector : t) : t :=
  mk (x v - x vector) (y v - y vector) (z v - z vector).

Definition floor (v : t) : t :=
  mk (Math_floor (x v)) (Math_floor (y v)) (Math_floor (z v)).

Definition center (v : t) : t :=
  mk (Math_floor (x v) + 0.5) (y v) (Math_floor (z v) + 0.5).

Definition length (v : t) : R :=
  sqrt (x v * x v + y v * y v + z v * z v).

End Vector3.

(** [scale], [add] and [subtract] on the numbers the source computes with:
    IEEE 754 binary64, every operation rounded to nearest, ties to even. *)
Module Binary64.
Module Vector3.

Record t : Type :=
  mk { x : PrimFloat.float; y : PrimFloat.float; z : PrimFloat.float }.

Definition scale (v : t) (factor : PrimFloat.float) : t :=
  mk (PrimFloat.mul (x v) factor) (PrimFloat.mul (y v) factor)
     (PrimFloat.mul (z v) factor).

Definition add (v vector : t) : t :=
  mk (PrimFloat.add (x v) (x vector)) (PrimFloat.add (y v) (y vector))
     (PrimFloat.add (z v) (z vector)).

Definition subtract (v vector : t) : t :=
  mk (PrimFloat.sub (x v) (x vector)) (PrimFloat.sub (y v) (y vector))
     (PrimFloat.sub (z v) (z vector)).

End Vector3.
End Binary64.

Definition calculateYaw (vector : Vector3.t) : R :=
  Math_atan2 (Vector3.z vector) (Vector3.x vector) * (180 / PI) - 90.

(** The [directions] table of [executeMove]; a name outside the table
    looks up [undefined]. *)
Definition directions (direction : string) : option Vector3.t :=
  if String.eqb direction "north" then Some (Vector3.mk 0 0 (-1))
  else if String.eqb direction "south" then Some (Vector3.mk 0 0 1)
  else if String.eqb direction "west" then Some (Vector3.mk (-1) 0 0)
  else if String.eqb direction "east" then Some (Vector3.mk 1 0 0)
  else if String.eqb direction "northeast"
       then Some (Vector3.scale (Vector3.mk 1 0 (-1)) Math_SQRT1_2)
  else if String.eqb direction "southeast"
       then Some (Vector3.scale (Vector3.mk 1 0 1) Math_SQRT1_2)
  else if String.eqb direction "southwest"
       then Some (Vector3.scale (Vector3.mk (-1) 0 1) Math_SQRT1_2)
  else if String.eqb direction "northwest"
       then Some (Vector3.scale (Vector3.mk (-1) 0 (-1)) Math_SQRT1_2)
  else None.

(** [a < b] on numbers, as a boolean. *)
Definition Rltb (a b : R) : bool := if Rlt_dec a b then true else false.

(** ** Data *)

(** Scheduler handles, promises, closure environments and the user
    functions passed to [on] are named by numbers. *)
Abbreviation Handle := nat (only parsing).
Abbreviation PromiseId := nat (only parsing).
Abbreviation LegId := nat (only parsing).
Abbreviation HandlerId := nat (only parsing).

(** [MovementConfig]: the optional property [canJump].  The object has
    the property or not ([None]); a property it has holds a boolean or
    [undefined] ([Some None]), as in [{ canJump: undefined }]. *)
Record MovementConfig : Type := { canJump : option (option bool) }.

(** Object spread [{ ...base, ...over }]: a property [over] has, be its
    value [undefined], replaces the one of [base]. *)
Definition spread (base over : MovementConfig) : MovementConfig :=
  {| canJump := match canJump over with
                | Some b => Some b
                | None => canJump base
                end |}.

(** Reading the property, [const { canJump } = options]: [undefined] for a
    property the object does not have. *)
Definition canJump_value (c : MovementConfig) : option bool :=
  match canJump c with
  | Some v => v
  | None => None
  end.

Definition truthy (b : option bool) : bool :=
  match b with Some true => true | _ => false end.

Record Callbacks : Type :=
  { onStart : option HandlerId;
    onStop : option HandlerId;
    onComplete : option HandlerId }.

(** Effects on the world and invocations of user callbacks, in the order
    they happen. *)
Inductive Effect : Type :=
| CallOnStart (h : HandlerId) (direction : string) (distance : R)
              (config : MovementConfig)
| CallOnStop (h : HandlerId)
| CallOnComplete (h : HandlerId)
| SetCurrentValue (v : R)
| ResetToDefaultValue
| SetRotation (rx ry : R)
| ApplyImpulse (v : Vector3.t)
| Teleport (v : Vector3.t)
| RunCommand (rx ry : R).

(** The movement attribute component of an entity. *)
Record MovementComponent : Type :=
  { defaultValue : option R;
    currentValue : R }.

(** What [block.above()] gives: a block, of which only [isAir] is read. *)
Record Block : Type := { isAir : bool }.

(** A ray hit.  Its [block] is always there; that block's [above()] may be
    [undefined]. *)
Record BlockRaycastHit : Type := { above : option Block }.

Record Entity : Type :=
  { isValid : bool;
    isOnGround : bool;
    location : Vector3.t;
    rotation : R * R;
    movement : option MovementComponent;  (* [getComponent(Movement)] *)
    getBlockFromRay : Vector3.t -> Vector3.t -> option BlockRaycastHit }.

(** The two closures of [executeMove]. *)
Inductive Callback : Type :=
| MoveEntity (leg : LegId)
| UpdateRotation (leg : LegId).

(** A callback registered with the tick scheduler; [period] is [None] for
    [system.run] and the tick interval for [system.runInterval]. *)
Record Scheduled : Type :=
  { handle : Handle;
    callback : Callback;
    period : option nat }.

Inductive PromiseState : Type := Pending | Fulfilled | Rejected.

(** A leg as captured by the callback that [move] chains. *)
Record Leg : Type :=
  { leg_direction : string;
    leg_distance : R;
    leg_config : MovementConfig }.

(** The callback given to [then] together with the promise [then]
    returned: the step chained by [move], or the one chained by [start]. *)
Inductive Reaction : Type :=
| MoveStep (leg : Leg) (target : PromiseId)
| CompleteStep (target : PromiseId).

Definition target (r : Reaction) : PromiseId :=
  match r with MoveStep _ t => t | CompleteStep t => t end.

(** Where a promise comes from: [Promise.resolve()], or [then] called on
    a promise by [move] or by [start]. *)
Inductive Origin : Type :=
| Resolved
| ThenMove (p : PromiseId)
| ThenStart (p : PromiseId).

(** A promise: its state, the reactions waiting for it, and its origin. *)
Record Promise : Type :=
  { pstate : PromiseState;
    reactions : list Reaction;
    origin : Origin }.

Definition parent (pr : Promise) : option PromiseId :=
  match origin pr with
  | Resolved => None
  | ThenMove p | ThenStart p => Some p
  end.

Definition origin_of (r : Reaction) (p : PromiseId) : Origin :=
  match r with
  | MoveStep _ _ => ThenMove p
  | CompleteStep _ => ThenStart p
  end.

(** A promise job: run the reaction's callback (the promise it waited for
    was fulfilled), or pass the rejection on to its target. *)
Inductive Job : Type :=
| Run (r : Reaction)
| Skip (r : Reaction).

(** The variables captured by [moveEntity] and [updateRotation]. *)
Record LegEnv : Type :=
  { env_distance : R;
    env_canJump : option bool;
    env_direction : Vector3.t;        (* [directions[direction]] *)
    impulseVector : Vector3.t;
    startPosition : Vector3.t;
    distanceTraveled : R;
    climbing : bool;
    wasOnGround : bool;
    resolve : PromiseId }.

Record MovementManager : Type :=
  { isStopped : bool;
    intervalHandles : list Handle;
    config : MovementConfig;
    callbacks : Callbacks;
    queue : PromiseId }.

Record State : Type :=
  { manager : MovementManager;
    entity : Entity;
    scheduled : list Scheduled;
    nextHandle : Handle;
    promises : list Promise;
    jobs : list Job;
    legs : list LegEnv;
    trace : list Effect }.

(** ** Field updates *)

Definition with_manager (m : MovementManager) (s : State) : State :=
  {| manager := m; entity := entity s; scheduled := scheduled s;
     nextHandle := nextHandle s; promises := promises s; jobs := jobs s;
     legs := legs s; trace := trace s |}.

Definition with_entity (e : Entity) (s : State) : State :=
  {| manager := manager s; entity := e; scheduled := scheduled s;
     nextHandle := nextHandle s; promises := promises s; jobs := jobs s;
     legs := legs s; trace := trace s |}.

Definition with_scheduled (l : list Scheduled) (n : Handle) (s : State) : State :=
  {| manager := manager s; entity := entity s; scheduled := l;
     nextHandle := n; promises := promises s; jobs := jobs s;
     legs := legs s; trace := trace s |}.

Definition with_promises (ps : list Promise) (js : list Job) (s : State) : State :=
  {| manager := manager s; entity := entity s; scheduled := scheduled s;
     nextHandle := nextHandle s; promises := ps; jobs := js;
     legs := legs s; trace := trace s |}.

Definition with_legs (l : list LegEnv) (s : State) : State :=
  {| manager := manager s; entity := entity s; scheduled := scheduled s;
     nextHandle := nextHandle s; promises := promises s; jobs := jobs s;
     legs := l; trace := trace s |}.

Definition emit (e : Effect) (s : State) : State :=
  {| manager := manager s; entity := entity s; scheduled := scheduled s;
     nextHandle := nextHandle s; promises := promises s; jobs := jobs s;
     legs := legs s; trace := trace s ++ [e] |}.

Definition set_isStopped (b : bool) (m : MovementManager) : MovementManager :=
  {| isStopped := b; intervalHandles := intervalHandles m;
     config := config m; callbacks := callbacks m; queue := queue m |}.

Definition set_intervalHandles (l : list Handle) (m : MovementManager)
  : MovementManager :=
  {| isStopped := isStopped m; intervalHandles := l;
     config := config m; callbacks := callbacks m; queue := queue m |}.

Definition set_callbacks (c : Callbacks) (m : MovementManager)
  : MovementManager :=
  {| isStopped := isStopped m; intervalHandles := intervalHandles m;
     config := config m; callbacks := c; queue := queue m |}.

Definition set_queue (q : PromiseId) (m : MovementManager) : MovementManager :=
  {| isStopped := isStopped m; intervalHandles := intervalHandles m;
     config := config m; callbacks := callbacks m; queue := q |}.

Definition set_location (v : Vector3.t) (e : Entity) : Entity :=
  {| isValid := isValid e; isOnGround := isOnGround e; location := v;
     rotation := rotation e; movement := movement e;
     getBlockFromRay := getBlockFromRay e |}.

Definition set_rotation (r : R * R) (e : Entity) : Entity :=
  {| isValid := isValid e; isOnGround := isOnGround e; location := location e;
     rotation := r; movement := movement e;
     getBlockFromRay := getBlockFromRay e |}.

Definition set_movement (m : option MovementComponent) (e : Entity) : Entity :=
  {| isValid := isValid e; isOnGround := isOnGround e; location := location e;
     rotation := rotation e; movement := m;
     getBlockFromRay := getBlockFromRay e |}.

Definition set_climbing (b : bool) (e : LegEnv) : LegEnv :=
  {| env_distance := env_distance e; env_canJump := env_canJump e;
     env_direction := env_direction e; impulseVector := impulseVector e;
     startPosition := startPosition e; distanceTraveled := distanceTraveled e;
     climbing := b; wasOnGround := wasOnGround e; resolve := resolve e |}.

Definition set_wasOnGround (b : bool) (e : LegEnv) : LegEnv :=
  {| env_distance := env_distance e; env_canJump := env_canJump e;
     env_direction := env_direction e; impulseVector := impulseVector e;
     startPosition := startPosition e; distanceTraveled := distanceTraveled e;
     climbing := climbing e; wasOnGround := b; resolve := resolve e |}.

Definition set_progress (p : Vector3.t) (d : R) (e : LegEnv) : LegEnv :=
  {| env_distance := env_distance e; env_canJump := env_canJump e;
     env_direction := env_direction e; impulseVector := impulseVector e;
     startPosition := p; distanceTraveled := d;
     climbing := climbing e; wasOnGround := wasOnGround e; resolve := resolve e |}.

Definition modify_leg (L : LegId) (f : LegEnv -> LegEnv) (s : State) : State :=
  with_legs (alter f L (legs s)) s.

(** ** The host: tick scheduler *)

Definition system_run (cb : Callback) (s : State) : Handle * State :=
  (nextHandle s,
   with_scheduled
     (scheduled s ++ [{| handle := nextHandle s; callback := cb; period := None |}])
     (S (nextHandle s)) s).

Definition system_runInterval (cb : Callback) (ticks : nat) (s : State)
  : Handle * State :=
  (nextHandle s,
   with_scheduled
     (scheduled s ++
        [{| handle := nextHandle s; callback := cb; period := Some ticks |}])
     (S (nextHandle s)) s).

Definition clearRun (h : Handle) (s : State) : State :=
  with_scheduled
    (List.filter (fun sc => negb (Nat.eqb (handle sc) h)) (scheduled s))
    (nextHandle s) s.

(** ** The host: promises *)

Definition new_promise (o : Origin) : Promise :=
  {| pstate := Pending; reactions := []; origin := o |}.

Definition job_of (st : PromiseState) (r : Reaction) : Job :=
  match st with Rejected => Skip r | _ => Run r end.

(** Settling a pending promise queues a job for each waiting reaction, in
    the order the reactions were registered; settling a settled promise
    does nothing. *)
Definition settle (p : PromiseId) (st : PromiseState) (s : State) : State :=
  match promises s !! p with
  | Some pr =>
      match pstate pr with
      | Pending =>
          with_promises
            (<[p := {| pstate := st; reactions := []; origin := origin pr |}]>
               (promises s))
            (jobs s ++ (job_of st <$> reactions pr)) s
      | _ => s
      end
  | None => s
  end.

(** [p.then(f)] with only a fulfilment callback: a new promise [t]; the
    reaction waits on [p] when [p] is pending and is queued as a job when
    [p] is settled. *)
Definition then_ (p : PromiseId) (f : PromiseId -> Reaction) (s : State)
  : PromiseId * State :=
  let t := length (promises s) in
  let ps := promises s ++ [new_promise (origin_of (f t) p)] in
  match promises s !! p with
  | Some pr =>
      match pstate pr with
      | Pending =>
          (t, with_promises
                (<[p := {| pstate := Pending;
                           reactions := reactions pr ++ [f t];
                           origin := origin pr |}]> ps)
                (jobs s) s)
      | st => (t, with_promises ps (jobs s ++ [job_of st (f t)]) s)
      end
  | None => (t, with_promises ps (jobs s) s)
  end.

(** ** The entity *)

Definition applyImpulse (v : Vector3.t) (s : State) : State :=
  emit (ApplyImpulse v) s.

Definition teleport (v : Vector3.t) (s : State) : State :=
  emit (Teleport v) (with_entity (set_location v (entity s)) s).

Definition setRotation (rx ry : R) (s : State) : State :=
  emit (SetRotation rx ry) (with_entity (set_rotation (rx, ry) (entity s)) s).

Definition setCurrentValue (v : R) (s : State) : State :=
  emit (SetCurrentValue v)
    (with_entity
       (set_movement
          (option_map
             (fun c => {| defaultValue := defaultValue c; currentValue := v |})
             (movement (entity s)))
          (entity s)) s).

Definition resetToDefaultValue (s : State) : State :=
  emit ResetToDefaultValue
    (with_entity
       (set_movement
          (option_map
             (fun c => {| defaultValue := defaultValue c;
                          currentValue := default (currentValue c) (defaultValue c) |})
             (movement (entity s)))
          (entity s)) s).

(** The status line of [updateRotation], with the rotation read back. *)
Definition runCommand_actionbar (s : State) : State :=
  emit (RunCommand (fst (rotation (entity s))) (snd (rotation (entity s)))) s.

(** [blockInFront?.block && blockInFront.block.above()?.isAir] *)
Definition aboveIsAir (blockInFront : option BlockRaycastHit) : bool :=
  match blockInFront with
  | Some hit => match above hit with
                | Some b => isAir b
                | None => false
                end
  | None => false
  end.

(** ** MovementManager *)

Definition construct (e : Entity) (cfg : MovementConfig) : State :=
  {| manager :=
       {| isStopped := false;
          intervalHandles := [];
          config := spread {| canJump := Some (Some true) |} cfg;
          callbacks := {| onStart := None; onStop := None; onComplete := None |};
          queue := 0%nat |};
     entity := e;
     scheduled := [];
     nextHandle := 0%nat;
     promises := [{| pstate := Fulfilled; reactions := []; origin := Resolved |}];
     jobs := [];
     legs := [];
     trace := [] |}.

Definition on (event : string) (callback : option HandlerId) (s : State)
  : State :=
  let c := callbacks (manager s) in
  if String.eqb event "onStart" then
    with_manager
      (set_callbacks {| onStart := callback; onStop := onStop c;
                        onComplete := onComplete c |} (manager s)) s
  else if String.eqb event "onStop" then
    with_manager
      (set_callbacks {| onStart := onStart c; onStop := callback;
                        onComplete := onComplete c |} (manager s)) s
  else if String.eqb event "onComplete" then
    with_manager
      (set_callbacks {| onStart := onStart c; onStop := onStop c;
                        onComplete := callback |} (manager s)) s
  else s.

Definition clearAllIntervals (s : State) : State :=
  let s' := fold_left (fun st h => clearRun h st) (intervalHandles (manager s)) s in
  with_manager (set_intervalHandles [] (manager s')) s'.

Definition move (direction : string) (distance : R) (options : MovementConfig)
  (s : State) : State :=
  let config := spread (config (manager s)) options in
  let r := then_ (queue (manager s))
             (MoveStep {| leg_direction := direction; leg_distance := distance;
                          leg_config := config |}) s in
  with_manager (set_queue (fst r) (manager (snd r))) (snd r).

Definition start (s : State) : PromiseId * State :=
  then_ (queue (manager s)) CompleteStep s.

Definition stop (s : State) : PromiseId * State :=
  let s1 := with_manager (set_isStopped true (manager s)) s in
  let s2 := clearAllIntervals s1 in
  let s3 := match onStop (callbacks (manager s2)) with
            | Some h => emit (CallOnStop h) s2
            | None => s2
            end in
  (queue (manager s3), s3).

(** The abort test at the top of the queued step and of both loops. *)
Definition aborted (s : State) : bool :=
  isStopped (manager s) || negb (isValid (entity s)).

Definition updateRotation (L : LegId) (s : State) : State :=
  match legs s !! L with
  | None => s
  | Some e =>
      if aborted s then settle (resolve e) Fulfilled (clearAllIntervals s)
      else if Rltb (distanceTraveled e) (env_distance e) then
        let yaw := calculateYaw (impulseVector e) in
        let s1 := setRotation 0 yaw s in
        let s2 := runCommand_actionbar s1 in
        snd (system_run (UpdateRotation L) s2)
      else s
  end.

Definition moveEntity (L : LegId) (s : State) : State :=
  match legs s !! L with
  | None => s
  | Some e =>
      if aborted s then settle (resolve e) Fulfilled (clearAllIntervals s)
      else
        let ent := entity s in
        let blockInFront :=
          getBlockFromRay ent (location ent) (env_direction e) in
        let s1 :=
          if truthy (env_canJump e) && aboveIsAir blockInFront
             && isOnGround ent && negb (climbing e)
          then
            modify_leg L (set_climbing true)
              (applyImpulse (Vector3.mk 0 0.5 0) s)
          else if climbing e && negb (isOnGround ent) then
            applyImpulse
              (Vector3.mk (Vector3.x (impulseVector e) * 0.5) 0
                          (Vector3.z (impulseVector e) * 0.5)) s
          else if climbing e && isOnGround ent then
            modify_leg L (set_climbing false) s
          else if isOnGround ent then
            let currentPosition := Vector3.center (location ent) in
            let d := distanceTraveled e
                     + Vector3.length
                         (Vector3.subtract currentPosition (startPosition e)) in
            let s' := modify_leg L (set_progress currentPosition d) s in
            if Rltb d (env_distance e) then
              applyImpulse
                (Vector3.mk (Vector3.x (impulseVector e))
                            (Vector3.y (impulseVector e))
                            (Vector3.z (impulseVector e))) s'
            else
              let s2 := resetToDefaultValue (clearAllIntervals s') in
              let finalPosition := Vector3.center (location (entity s2)) in
              settle (resolve e) Fulfilled (teleport finalPosition s2)
          else s
        in
        modify_leg L (set_wasOnGround (isOnGround (entity s1))) s1
  end.

Definition executeMove (direction : string) (distance : R)
  (options : MovementConfig) (t : PromiseId) (s : State) : State :=
  if negb (isValid (entity s)) then settle t Fulfilled (clearAllIntervals s)
  else
    match movement (entity s) with
    | None => settle t Rejected s   (* reading [defaultValue] of [undefined] *)
    | Some movementComponent =>
        let speed := default 0.1 (defaultValue movementComponent) in
        match directions direction with
        | None => settle t Rejected s   (* [undefined.scale] *)
        | Some d =>
            let impulse := Vector3.scale d speed in
            let s1 := setCurrentValue 0 s in
            let s2 := setRotation 0 (calculateYaw impulse) s1 in
            let L := length (legs s2) in
            let env :=
              {| env_distance := distance;
                 env_canJump := canJump_value options;
                 env_direction := d;
                 impulseVector := impulse;
                 startPosition := Vector3.center (location (entity s));
                 distanceTraveled := 0;
                 climbing := false;
                 wasOnGround := isOnGround (entity s2);
                 resolve := t |} in
            let s3 := with_legs (legs s2 ++ [env]) s2 in
            let r := system_runInterval (MoveEntity L) 5 s3 in
            let s4 :=
              with_manager
                (set_intervalHandles
                   (intervalHandles (manager (snd r)) ++ [fst r])
                   (manager (snd r))) (snd r) in
            updateRotation L s4
        end
    end.

(** The callback that [move] chains onto the queue. *)
Definition moveStep (leg : Leg) (t : PromiseId) (s : State) : State :=
  if aborted s then settle t Fulfilled (clearAllIntervals s)
  else
    let s1 := match onStart (callbacks (manager s)) with
              | Some h =>
                  emit (CallOnStart h (leg_direction leg) (leg_distance leg)
                          (leg_config leg)) s
              | None => s
              end in
    executeMove (leg_direction leg) (leg_distance leg) (leg_config leg) t s1.

(** The callback that [start] chains onto the queue. *)
Definition completeStep (t : PromiseId) (s : State) : State :=
  let s1 := match onComplete (callbacks (manager s)) with
            | Some h => emit (CallOnComplete h) s
            | None => s
            end in
  settle t Fulfilled s1.

(** ** Running the host *)

Definition runJob (j : Job) (s : State) : State :=
  match j with
  | Run (MoveStep leg t) => moveStep leg t s
  | Run (CompleteStep t) => completeStep t s
  | Skip r => settle (target r) Rejected s
  end.

Fixpoint drain_fuel (fuel : nat) (s : State) : State :=
  match fuel with
  | O => s
  | S fuel' =>
      match jobs s with
      | [] => s
      | j :: js => drain_fuel fuel' (runJob j (with_promises (promises s) js s))
      end
  end.

(** Every job run removes one job or waiting reaction for good, so this
    many rounds empty the job queue. *)
Definition pending_work (s : State) : nat :=
  (length (jobs s)
   + list_sum (map (fun p => length (reactions p)) (promises s)))%nat.

Definition drain (s : State) : State := drain_fuel (pending_work s) s.

Definition invoke (cb : Callback) (s : State) : State :=
  match cb with
  | MoveEntity L => moveEntity L s
  | UpdateRotation L => updateRotation L s
  end.

(** The scheduler runs the callback registered under [h]; a [system.run]
    registration is used up by that. *)
Definition fire (h : Handle) (s : State) : State :=
  match List.find (fun sc => Nat.eqb (handle sc) h) (scheduled s) with
  | None => s
  | Some sc =>
      invoke (callback sc)
        (match period sc with
         | None => clearRun h s
         | Some _ => s
         end)
  end.

(** What the world does to the entity between two tasks. *)
Record WorldUpdate : Type :=
  { new_isValid : bool;
    new_isOnGround : bool;
    new_location : Vector3.t;
    new_getBlockFromRay : Vector3.t -> Vector3.t -> option BlockRaycastHit }.

Definition world (w : WorldUpdate) (s : State) : State :=
  with_entity
    {| isValid := new_isValid w; isOnGround := new_isOnGround w;
       location := new_location w; rotation := rotation (entity s);
       movement := movement (entity s);
       getBlockFromRay := new_getBlockFromRay w |} s.

Inductive Call : Type :=
| CallOn (event : string) (callback : option HandlerId)
| CallMove (direction : string) (distance : R) (options : MovementConfig)
| CallStart
| CallStop.

Definition call (c : Call) (s : State) : State :=
  match c with
  | CallOn event callback => on event callback s
  | CallMove direction distance options => move direction distance options s
  | CallStart => snd (start s)
  | CallStop => snd (stop s)
  end.

(** A task of the host: a script that calls the manager, a scheduled
    callback, or the world moving on.  The job queue is emptied after each
    task. *)
Inductive Input : Type :=
| Script (calls : list Call)
| Fire (h : Handle)
| World (w : WorldUpdate).

Definition task (i : Input) (s : State) : State :=
  match i with
  | Script calls => fold_left (fun st c => call c st) calls s
  | Fire h => fire h s
  | World w => world w s
  end.

Definition step (s : State) (i : Input) : State := drain (task i s).

Definition run (s : State) (inputs : list Input) : State :=
  fold_left step inputs s.

(** The scheduler entries whose handle is not among [hs]. *)
Definition without (hs : list Handle) (l : list Scheduled) : list Scheduled :=
  List.filter (fun sc => negb (existsb (Nat.eqb (handle sc)) hs)) l.

(** ** The spawn handler

    The script at the end of the file subscribes a handler to
    [world.afterEvents.entitySpawn]. *)

(** What the handler reads of an event: the entity, its [typeId], and the
    [typeId] of the block [dimension.getBlock] finds, if any. *)
Record SpawnEvent : Type :=
  { spawned : Entity;
    typeId : string;
    getBlock : Vector3.t -> option string }.

(** [{}], the default of [config] and of [options]. *)
Definition noConfig : MovementConfig := {| canJump := None |}.

(** The calls the handler chains on the manager. *)
Definition circuit : list Call :=
  [CallMove "north" 5 noConfig; CallMove "northeast" 5 noConfig;
   CallMove "east" 5 noConfig; CallMove "southeast" 5 noConfig;
   CallMove "south" 5 noConfig; CallMove "southwest" 5 noConfig;
   CallMove "west" 5 noConfig; CallMove "northwest" 5 noConfig;
   CallStart].

(** The handler, up to its return: nothing for an item; otherwise a new
    manager, and on an emerald block the circuit.  The promise jobs run
    after it ([drain]). *)
Definition onEntitySpawn (ev : SpawnEvent) : option State :=
  if String.eqb (typeId ev) "minecraft:item" then None
  else
    let entity := spawned ev in
    let block :=
      getBlock ev
        (Vector3.mk (Vector3.x (location entity))
                    (Vector3.y (location entity) - 1)
                    (Vector3.z (location entity))) in
    let manager := construct entity noConfig in
    Some (if match block with
             | Some ty => String.eqb ty "minecraft:emerald_block"
             | None => false
             end
          then fold_left (fun st c => call c st) circuit manager
          else manager).

(** ** Scenarios

    Concrete worlds and runs, used to exercise the statements below. *)

Module Scenario.

Definition openGround : Vector3.t -> Vector3.t -> option BlockRaycastHit :=
  fun _ _ => None.

(** A block ahead with air above it, whatever the ray. *)
Definition stepAhead : Vector3.t -> Vector3.t -> option BlockRaycastHit :=
  fun _ _ => Some {| above := Some {| isAir := true |} |}.

Definition agent : Entity :=
  {| isValid := true;
     isOnGround := true;
     location := Vector3.mk 0 64 0;
     rotation := (0, 0);
     movement := Some {| defaultValue := Some 0.1; currentValue := 0.1 |};
     getBlockFromRay := openGround |}.

(** The same agent without a movement component. *)
Definition bareAgent : Entity := set_movement None agent.

Definition noOptions : MovementConfig := {| canJump := None |}.

(** [new MovementManager(agent).move("north", 5).start()], then the
    promise jobs. *)
Definition oneLeg : State :=
  run (construct agent noOptions)
    [Script [CallMove "north" 5 noOptions; CallStart]].

(** One block further north, standing in front of a step. *)
Definition atStep : WorldUpdate :=
  {| new_isValid := true; new_isOnGround := true;
     new_location := Vector3.mk 0 64 (-1);
     new_getBlockFromRay := stepAhead |}.


(** The agent is gone. *)
Definition removed : WorldUpdate :=
  {| new_isValid := false; new_isOnGround := false;
     new_location := Vector3.mk 0 64 0;
     new_getBlockFromRay := openGround |}.

Definition northYaw : R := calculateYaw (Vector3.scale (Vector3.mk 0 0 (-1)) 0.1).

(** The closure environment of the leg of [oneLeg]. *)
Definition northEnv : LegEnv :=
  {| env_distance := 5;
     env_canJump := Some true;
     env_direction := Vector3.mk 0 0 (-1);
     impulseVector := Vector3.scale (Vector3.mk 0 0 (-1)) 0.1;
     startPosition := Vector3.center (Vector3.mk 0 64 0);
     distanceTraveled := 0;
     climbing := false;
     wasOnGround := true;
     resolve := 1%nat |}.

End Scenario.

(** ** Vocabulary of the statements *)

(** The state of promise [p], if there is such a promise. *)
Definition state_of (s : State) (p : PromiseId) : option PromiseState :=
  pstate <$> promises s !! p.

(** What the distance accounting of the movement loop adds on a tick:
    the distance between the block centre the agent is in now and the one
    sampled last. *)
Definition displacement (s : State) (e : LegEnv) : R :=
  Vector3.length
    (Vector3.subtract (Vector3.center (location (entity s))) (startPosition e)).

(** Every callback the scheduler still holds under a period (a
    registration made with [system.runInterval]) is in the manager's handle
    list. *)
Definition periodic_tracked (s : State) : Prop :=
  forall sc, In sc (scheduled s) -> period sc <> None ->
             In (handle sc) (intervalHandles (manager s)).

(** Promise [t] goes from pending to fulfilled between [s] and [s']. *)
Definition resolves (t : PromiseId) (s s' : State) : Prop :=
  state_of s t = Some Pending /\ state_of s' t = Some Fulfilled.

(** The effects [stop] adds to the trace. *)
Definition onStop_call (s : State) : list Effect :=
  match onStop (callbacks (manager s)) with
  | Some h => [CallOnStop h]
  | None => []
  end.

(** The state in which [executeMove] makes its first, direct call of
    [updateRotation]: speed zeroed, rotation set, the closure environment
    in place, the movement loop registered and its handle pushed. *)
Definition leg_ready (d : Vector3.t) (speed : R) (distance : R)
  (options : MovementConfig) (t : PromiseId) (s : State) : State :=
  let impulse := Vector3.scale d speed in
  let s2 := setRotation 0 (calculateYaw impulse) (setCurrentValue 0 s) in
  let env :=
    {| env_distance := distance;
       env_canJump := canJump_value options;
       env_direction := d;
       impulseVector := impulse;
       startPosition := Vector3.center (location (entity s));
       distanceTraveled := 0;
       climbing := false;
       wasOnGround := isOnGround (entity s);
       resolve := t |} in
  with_manager
    (set_intervalHandles (intervalHandles (manager s) ++ [nextHandle s])
       (manager s))
    (with_scheduled
       (scheduled s ++
          [{| handle := nextHandle s; callback := MoveEntity (length (legs s));
              period := Some 5%nat |}])
       (S (nextHandle s))
       (with_legs (legs s ++ [env]) s2)).


(** ** The shape of the promise chain *)

Definition job_reaction (j : Job) : Reaction :=
  match j with Run r | Skip r => r end.

Definition job_target (j : Job) : PromiseId := target (job_reaction j).

(** The state of the promise a job's reaction waited for. *)
Definition parent_state (j : Job) : PromiseState :=
  match j with Run _ => Fulfilled | Skip _ => Rejected end.

Definition is_move (r : Reaction) : bool :=
  match r with MoveStep _ _ => true | CompleteStep _ => false end.

Definition is_start (o : Origin) : bool :=
  match o with ThenStart _ => true | _ => false end.

Definition pstate_at (ps : list Promise) (p : PromiseId) : option PromiseState :=
  pstate <$> ps !! p.

Definition is_pending (ps : list Promise) (t : PromiseId) : bool :=
  match pstate_at ps t with Some Pending => true | _ => false end.

Fixpoint count {A} (f : A -> bool) (l : list A) : nat :=
  match l with
  | [] => 0%nat
  | a :: l' => ((if f a then 1 else 0) + count f l')%nat
  end.

(** The legs set up and not yet resolved, given the [resolve] of each
    closure environment. *)
Definition inflight (ps : list Promise) (lt : list PromiseId) : nat :=
  count (is_pending ps) lt.

(** The queued jobs that would run a step chained by [move]. *)
Definition move_jobs (js : list Job) : nat :=
  count (fun j => is_move (job_reaction j)) js.

(** The invariant of the promise store [ps], the job queue [js], the
    [resolve] targets [lt] of the closure environments and the manager's
    queue promise [q]. *)
Record chain_inv (ps : list Promise) (js : list Job) (lt : list PromiseId)
  (q : PromiseId) : Prop :=
  { (* a reaction waits on a pending promise that is not one [start]
       returned, for a pending promise made by that very [then] *)
    ci_waiting : forall p pr r,
      ps !! p = Some pr -> r ∈ reactions pr ->
      pstate pr = Pending /\ is_start (origin pr) = false
      /\ exists tr, ps !! target r = Some tr /\ pstate tr = Pending
                    /\ origin tr = origin_of r p;
    ci_waiting_nodup : forall p pr,
      ps !! p = Some pr -> NoDup (target <$> reactions pr);
    (* a job is for a pending promise whose parent is settled *)
    ci_jobs : forall j,
      j ∈ js ->
      exists tr p, ps !! job_target j = Some tr /\ pstate tr = Pending
                   /\ origin tr = origin_of (job_reaction j) p
                   /\ pstate_at ps p = Some (parent_state j);
    ci_jobs_nodup : NoDup (job_target <$> js);
    (* a leg was set up for a promise made by [move] whose parent is
       fulfilled, and no job is left for that promise *)
    ci_legs : forall t,
      t ∈ lt ->
      (forall j, j ∈ js -> job_target j <> t)
      /\ exists tr p, ps !! t = Some tr /\ origin tr = ThenMove p
                      /\ pstate_at ps p = Some Fulfilled;
    (* a pending promise has a job, a waiting reaction, or a leg *)
    ci_covered : forall t tr,
      ps !! t = Some tr -> pstate tr = Pending ->
      (exists j, j ∈ js /\ job_target j = t)
      \/ (exists p pr r, ps !! p = Some pr /\ r ∈ reactions pr /\ target r = t)
      \/ t ∈ lt;
    (* a promise is settled after its parent, and as its parent unless a
       leg's set-up threw *)
    ci_order : forall t tr p,
      ps !! t = Some tr -> parent tr = Some p ->
      (p < t)%nat
      /\ (pstate tr = Fulfilled -> pstate_at ps p = Some Fulfilled)
      /\ (pstate tr = Rejected ->
          pstate_at ps p = Some Rejected
          \/ (pstate_at ps p = Some Fulfilled /\ is_start (origin tr) = false));
    (* the queue promise is on the chain and nothing is chained after it *)
    ci_queue : exists pr,
      ps !! q = Some pr /\ is_start (origin pr) = false
      /\ count is_move (reactions pr) = 0%nat;
    ci_one_move : forall p pr,
      ps !! p = Some pr -> (count is_move (reactions pr) <= 1)%nat;
    (* at most one step is about to run or running *)
    ci_front : (move_jobs js + inflight ps lt <= 1)%nat;
    ci_tail :
      pstate_at ps q <> Some Pending ->
      (move_jobs js + inflight ps lt = 0)%nat }.


(** A promise once settled: no reaction waits on it any more. *)
Definition settled (tr : Promise) (st : PromiseState) : Promise :=
  {| pstate := st; reactions := []; origin := origin tr |}.

(** ** The invariant of the whole state *)

(** The scheduler and the handle list: every periodic callback is tracked;
    a stopped manager tracks nothing; a scheduled movement loop is
    periodic and belongs to a leg that is not resolved yet; handles are
    tracked only while a leg is unresolved. *)
Record handles_inv (stopped : bool) (hs : list Handle)
  (sched : list Scheduled) (ps : list Promise) (lt : list PromiseId) : Prop :=
  { hi_tracked : forall sc,
      sc ∈ sched -> period sc <> None -> handle sc ∈ hs;
    hi_stopped : stopped = true -> hs = [];
    hi_move_loop : forall sc L,
      sc ∈ sched -> callback sc = MoveEntity L ->
      period sc <> None
      /\ exists t, lt !! L = Some t /\ pstate_at ps t = Some Pending;
    hi_hygiene : hs <> [] -> (1 <= inflight ps lt)%nat }.

(** While a leg is unresolved the movement speed is the zero its set-up
    wrote. *)
Definition speed_inv (ps : list Promise) (lt : list PromiseId)
  (mv : option MovementComponent) : Prop :=
  (1 <= inflight ps lt)%nat -> exists c, mv = Some c /\ currentValue c = 0.

Definition is_complete (e : Effect) : bool :=
  match e with CallOnComplete _ => true | _ => false end.

(** How often [onComplete] was called. *)
Definition completes (tr : list Effect) : nat := count is_complete tr.

Definition is_fulfilled_start (pr : Promise) : bool :=
  is_start (origin pr)
  && match pstate pr with Fulfilled => true | _ => false end.

(** How many promises returned by [start] are fulfilled. *)
Definition fulfilled_starts (ps : list Promise) : nat :=
  count is_fulfilled_start ps.

(** With an [onComplete] handler in place all along, it was called once
    for each fulfilled promise of [start]. *)
Definition count_inv (counting : bool) (cb : Callbacks) (tr : list Effect)
  (ps : list Promise) : Prop :=
  counting = true ->
  onComplete cb <> None /\ completes tr = fulfilled_starts ps.

(** Calls of [onStop] and [onComplete]. *)
Definition lifecycle (e : Effect) : bool :=
  match e with CallOnStop _ | CallOnComplete _ => true | _ => false end.

(** Since the trace was [t0] the manager has been stopped and nothing but
    [onStop] and [onComplete] calls were added. *)
Definition quiet_inv (since : option (list Effect)) (stopped : bool)
  (tr : list Effect) : Prop :=
  forall t0, since = Some t0 ->
             stopped = true
             /\ exists es, tr = t0 ++ es /\ forallb lifecycle es = true.

Record state_inv (counting : bool) (since : option (list Effect))
  (running : option Job) (s : State) : Prop :=
  { inv_chain :
      chain_inv (promises s) (option_list running ++ jobs s)
        (resolve <$> legs s) (queue (manager s));
    inv_handles :
      handles_inv (isStopped (manager s)) (intervalHandles (manager s))
        (scheduled s) (promises s) (resolve <$> legs s);
    inv_speed :
      speed_inv (promises s) (resolve <$> legs s) (movement (entity s));
    inv_count :
      count_inv counting (callbacks (manager s)) (trace s) (promises s);
    inv_quiet : quiet_inv since (isStopped (manager s)) (trace s) }.

(** The calls a script may make while [onComplete] calls are counted: it
    does not take the handler away. *)
Definition keeps_onComplete (c : Call) : bool :=
  match c with
  | CallOn event None => negb (String.eqb event "onComplete")
  | _ => true
  end.

Definition input_ok (counting : bool) (i : Input) : Prop :=
  counting = true ->
  match i with
  | Script calls => forallb keeps_onComplete calls = true
  | _ => True
  end.

(** Between [s] and [s'] the promises and the job queue are unchanged, or
    changed as by settling one promise. *)
Definition settles_like (s s' : State) : Prop :=
  (promises s' = promises s /\ jobs s' = jobs s)
  \/ exists t st, promises s' = promises (settle t st s)
                  /\ jobs s' = jobs (settle t st s).

(** Between [s] and [s'] the entity, the stopped flag and the closure
    environments are untouched. *)
Definition same_world (s s' : State) : Prop :=
  entity s' = entity s
  /\ isStopped (manager s') = isStopped (manager s)
  /\ legs s' = legs s.



(** The scheduler entry [fire h] runs. *)
Definition scheduled_as (s : State) (h : Handle) : option Scheduled :=
  List.find (fun sc => Nat.eqb (handle sc) h) (scheduled s).

Definition leg_of (cb : Callback) : LegId :=
  match cb with MoveEntity L | UpdateRotation L => L end.


(** ** Vocabulary of the further statements *)

(** The names in the [directions] table. *)
Definition direction_names : list string :=
  ["north"%string; "south"%string; "west"%string; "east"%string;
   "northeast"%string; "southeast"%string; "southwest"%string;
   "northwest"%string].

(** The yaw, in degrees, that goes with each name of the table. *)
Definition direction_yaws : list (string * R) :=
  [("south"%string, 0); ("west"%string, 90); ("north"%string, -180);
   ("east"%string, -90); ("southeast"%string, -45); ("southwest"%string, 45);
   ("northwest"%string, -225); ("northeast"%string, -135)].

(** The call of the [onStart] handler registered, if any, for a leg. *)
Definition onStart_call (s : State) (leg : Leg) : list Effect :=
  match onStart (callbacks (manager s)) with
  | Some h => [CallOnStart h (leg_direction leg) (leg_distance leg) (leg_config leg)]
  | None => []
  end.

(** The call of the [onComplete] handler registered, if any. *)
Definition onComplete_call (s : State) : list Effect :=
  match onComplete (callbacks (manager s)) with
  | Some h => [CallOnComplete h]
  | None => []
  end.

Definition none_rejected (s : State) : Prop :=
  forall p pr, promises s !! p = Some pr -> pstate pr <> Rejected.

(** How many promises [start] has returned. *)
Definition starts (ps : list Promise) : nat :=
  count (fun pr => is_start (origin pr)) ps.

(** The state after [move(direction, distance, options).start()] on a new
    manager with an [onComplete] handler. *)
Definition oneMove (e : Entity) (cfg options : MovementConfig) (h : HandlerId)
  (direction : string) (distance : R) : State :=
  run (on "onComplete" (Some h) (construct e cfg))
    [Script [CallMove direction distance options; CallStart]].

(** The same state at the moment the queued step starts to run. *)
Definition oneMove_queued (e : Entity) (cfg : MovementConfig) (h : HandlerId)
  : State :=
  {| manager :=
       {| isStopped := false; intervalHandles := [];
          config := spread {| canJump := Some (Some true) |} cfg;
          callbacks := {| onStart := None; onStop := None;
                          onComplete := Some h |};
          queue := 1%nat |};
     entity := e;
     scheduled := [];
     nextHandle := 0%nat;
     promises :=
       [{| pstate := Fulfilled; reactions := []; origin := Resolved |};
        {| pstate := Pending; reactions := [CompleteStep 2%nat];
           origin := ThenMove 0%nat |};
        {| pstate := Pending; reactions := []; origin := ThenStart 1%nat |}];
     jobs := [];
     legs := [];
     trace := [] |}.

(** No callback is scheduled, no job is queued, and every promise after
    the first, the queue promise among them, is pending: nothing is left
    that could settle the chain.  There are at least [n] promises. *)
Definition stranded (n : nat) (s : State) : Prop :=
  (n <= length (promises s))%nat
  /\ scheduled s = [] /\ jobs s = []
  /\ intervalHandles (manager s) = []
  /\ completes (trace s) = 0%nat
  /\ (1 <= queue (manager s) < length (promises s))%nat
  /\ forall p pr, promises s !! p = Some pr -> (1 <= p)%nat ->
                  pstate pr = Pending.

(** What holds of every closure environment: the distance travelled is
    not negative, the last sample is a block centre, the direction is an
    entry of the table and the impulse a multiple of it, and a leg climbs
    only if it may jump. *)
Definition leg_ok (e : LegEnv) : Prop :=
  0 <= distanceTraveled e
  /\ Vector3.center (startPosition e) = startPosition e
  /\ (exists name, directions name = Some (env_direction e))
  /\ (exists speed, impulseVector e = Vector3.scale (env_direction e) speed)
  /\ (climbing e = true -> truthy (env_canJump e) = true).

(** What holds of every effect: the speed is only ever set to zero, the
    pitch is zero and the yaw in the range of [calculateYaw], an impulse is
    the climb impulse or horizontal, a teleport goes to a block centre. *)
Definition effect_ok (ef : Effect) : Prop :=
  match ef with
  | SetCurrentValue v => v = 0
  | SetRotation rx ry | RunCommand rx ry => rx = 0 /\ -270 < ry <= 90
  | ApplyImpulse v => v = Vector3.mk 0 0.5 0 \/ Vector3.y v = 0
  | Teleport v => Vector3.center v = v
  | CallOnStart _ _ _ _ | CallOnStop _ | CallOnComplete _
  | ResetToDefaultValue => True
  end.

(** Calls of the handlers registered with [on]. *)
Definition is_callback (ef : Effect) : bool :=
  match ef with
  | CallOnStart _ _ _ _ | CallOnStop _ | CallOnComplete _ => true
  | _ => false
  end.

Definition legs_and_effects_ok (l : list LegEnv) (t : list Effect) : Prop :=
  Forall leg_ok l /\ Forall effect_ok t.

(** The displacement each [move] of a script asks for; [None] for a
    direction name outside the table. *)
Definition leg_vectors (calls : list Call) : list (option Vector3.t) :=
  omap (fun c => match c with
                 | CallMove direction distance _ =>
                     Some ((fun d => Vector3.scale d distance)
                             <$> directions direction)
                 | _ => None
                 end) calls.

Definition sum_vectors (l : list (option Vector3.t)) : option Vector3.t :=
  foldr (fun v acc => match v, acc with
                      | Some v, Some a => Some (Vector3.add v a)
                      | _, _ => None
                      end) (Some (Vector3.mk 0 0 0)) l.

(** The promises of the circuit once the handler has returned: the one of
    the constructor, one for each [move], the last for [start]. *)
Definition circuit_promises : list Promise :=
  {| pstate := Fulfilled; reactions := []; origin := Resolved |}
  :: map (fun p => {| pstate := Pending; reactions := []; origin := ThenMove p |})
       (seq 0 8)
  ++ [{| pstate := Pending; reactions := []; origin := ThenStart 8 |}].

Definition has_script (i : Input) : bool :=
  match i with Script _ => true | _ => false end.

(** The calls that only chain a step onto the queue. *)
Definition is_queueing (c : Call) : bool :=
  match c with CallMove _ _ _ | CallStart => true | _ => false end.

(** The agent of the scenarios in mid-air. *)
Definition airborne : WorldUpdate :=
  {| new_isValid := true; new_isOnGround := false;
     new_location := Vector3.mk 0 64.5 0;
     new_getBlockFromRay := Scenario.openGround |}.

(** A pig spawned on an emerald block. *)
Definition pigOnEmerald : SpawnEvent :=
  {| spawned := Scenario.agent;
     typeId := "minecraft:pig";
     getBlock := fun _ => Some "minecraft:emerald_block"%string |}.

(** What a leg reads as [canJump] when the manager was constructed with
    [cfg] and [move] called with [options]: the value [options] holds if it
    has the property, else the value [cfg] holds if it has the property,
    else true; a value held may be [undefined]. *)
Definition canJump_of (cfg options : MovementConfig) : option bool :=
  match canJump options with
  | Some v => v
  | None => match canJump cfg with Some v => v | None => Some true end
  end.

(** [new MovementManager(agent).move("north", 0).move("east", 5)], then
    the promise jobs. *)
Definition twoLegs : State :=
  run (construct Scenario.agent Scenario.noOptions)
    [Script [CallMove "north" 0 Scenario.noOptions;
             CallMove "east" 5 Scenario.noOptions]].
(** * Properties *)

(** ** Geometry *)

Lemma Math_floor_eq (n : Z) (r : R) :
  IZR n <= r < IZR n + 1 -> Math_floor r = IZR n.
Proof.
  intros H. unfold Math_floor. f_equal. now apply Zfloor_eq.
Qed.

Lemma length_nonneg (v : Vector3.t) : 0 <= Vector3.length v.
Proof. apply sqrt_pos. Qed.

Lemma Rltb_true (a b : R) : a < b -> Rltb a b = true.
Proof. intros H. unfold Rltb. destruct (Rlt_dec a b); [reflexivity | contradiction]. Qed.

Lemma Rltb_false (a b : R) : b <= a -> Rltb a b = false.
Proof. intros H. unfold Rltb. destruct (Rlt_dec a b); [lra | reflexivity]. Qed.

Lemma Rltb_spec (a b : R) : reflect (a < b) (Rltb a b).
Proof. unfold Rltb. destruct (Rlt_dec a b); constructor; assumption. Qed.

(** C8, as amended: over the real numbers, adding a vector and subtracting
    it again gives the vector back, and so does scaling by a non-zero
    factor and then by its inverse, both exactly. *)
Theorem geometry_round_trip (v w : Vector3.t) (s : R) :
  Vector3.subtract (Vector3.add v w) w = v
  /\ (s <> 0 -> Vector3.scale (Vector3.scale v s) (1 / s) = v).
Proof.
  destruct v as [vx vy vz], w as [wx wy wz].
  unfold Vector3.subtract, Vector3.add, Vector3.scale; cbn [Vector3.x Vector3.y Vector3.z].
  split.
  - f_equal; ring.
  - intros Hs. f_equal; field; assumption.
Qed.

Lemma geometry_round_trip_witness :
  Vector3.scale (Vector3.scale (Vector3.mk 1 2 3) 2) (1 / 2) = Vector3.mk 1 2 3.
Proof.
  apply (geometry_round_trip (Vector3.mk 1 2 3) (Vector3.mk 0 0 0) 2). lra.
Defined.

Section Binary64RoundTrip.
Import PrimFloat.
Local Open Scope float_scope.

(** C8, as stated, fails on the numbers of the source, binary64, and by
    more than a tolerance.  Adding [(1e17, 0, 0)] to [(1, 0, 0)] and
    subtracting it again gives [(0, 0, 0)]: the sum [1 + 1e17] rounds to
    [1e17].  Scaling [(1, 0, 0)] by the smallest positive number
    [0x1p-1074], which is not zero, and then by its inverse gives an
    infinite [x]: the inverse overflows. *)
Lemma geometry_round_trip_counterexample :
  let v := Binary64.Vector3.mk 1 0 0 in
  let w := Binary64.Vector3.mk 1e17 0 0 in
  let s := 0x1p-1074 in
  Binary64.Vector3.subtract (Binary64.Vector3.add v w) w
  = Binary64.Vector3.mk 0 0 0
  /\ (s =? 0) = false
  /\ 1 / s = infinity
  /\ Binary64.Vector3.x
       (Binary64.Vector3.scale (Binary64.Vector3.scale v s) (1 / s))
     = infinity.
Proof. cbv zeta. repeat split. Qed.

End Binary64RoundTrip.

(** ** What each primitive leaves alone *)

Lemma filter_filter {A} (f g : A -> bool) (l : list A) :
  List.filter g (List.filter f l) = List.filter (fun a => f a && g a) l.
Proof.
  induction l as [|a l IH]; cbn; [reflexivity|].
  destruct (f a); cbn; [destruct (g a)|]; now rewrite IH.
Qed.

Lemma filter_all {A} (l : list A) : List.filter (fun _ => true) l = l.
Proof. induction l as [|a l IH]; cbn; [reflexivity | now rewrite IH]. Qed.

Lemma fold_clearRun (hs : list Handle) (s : State) :
  fold_left (fun st h => clearRun h st) hs s
  = with_scheduled (without hs (scheduled s)) (nextHandle s) s.
Proof.
  revert s. induction hs as [|h hs IH]; intros s.
  - destruct s; unfold without, with_scheduled; cbn. now rewrite filter_all.
  - cbn [fold_left]. rewrite IH. unfold clearRun, with_scheduled, without; cbn.
    rewrite filter_filter. f_equal.
    apply List.filter_ext. intros sc. now rewrite negb_orb.
Qed.

Lemma clearAllIntervals_eq (s : State) :
  clearAllIntervals s
  = with_manager (set_intervalHandles [] (manager s))
      (with_scheduled (without (intervalHandles (manager s)) (scheduled s))
         (nextHandle s) s).
Proof. unfold clearAllIntervals. now rewrite fold_clearRun. Qed.

Lemma settle_frame (p : PromiseId) (st : PromiseState) (s : State) :
  manager (settle p st s) = manager s
  /\ entity (settle p st s) = entity s
  /\ scheduled (settle p st s) = scheduled s
  /\ nextHandle (settle p st s) = nextHandle s
  /\ legs (settle p st s) = legs s
  /\ trace (settle p st s) = trace s.
Proof.
  unfold settle. destruct (promises s !! p) as [pr|]; [|tauto].
  destruct (pstate pr); cbn; tauto.
Qed.

Lemma settle_manager p st s : manager (settle p st s) = manager s.
Proof. apply settle_frame. Qed.
Lemma settle_entity p st s : entity (settle p st s) = entity s.
Proof. apply settle_frame. Qed.
Lemma settle_scheduled p st s : scheduled (settle p st s) = scheduled s.
Proof. apply settle_frame. Qed.
Lemma settle_nextHandle p st s : nextHandle (settle p st s) = nextHandle s.
Proof. apply settle_frame. Qed.
Lemma settle_legs p st s : legs (settle p st s) = legs s.
Proof. apply settle_frame. Qed.
Lemma settle_trace p st s : trace (settle p st s) = trace s.
Proof. apply settle_frame. Qed.

Create Rewrite HintDb frame.
#[export] Hint Rewrite settle_manager settle_entity settle_scheduled
  settle_nextHandle settle_legs settle_trace clearAllIntervals_eq : frame.

(** ** Settling a promise *)

Lemma state_of_settle_eq (p : PromiseId) (st : PromiseState) (s : State) :
  state_of s p = Some Pending -> state_of (settle p st s) p = Some st.
Proof.
  unfold state_of, settle. intros H.
  destruct (promises s !! p) as [pr|] eqn:Hp; [|discriminate].
  cbn in H. injection H as H. rewrite H. cbn.
  rewrite list_lookup_insert_eq by (eapply lookup_lt_Some; eassumption).
  reflexivity.
Qed.

Lemma state_of_settle_ne (p q : PromiseId) (st : PromiseState) (s : State) :
  p <> q -> state_of (settle p st s) q = state_of s q.
Proof.
  unfold state_of, settle. intros H.
  destruct (promises s !! p) as [pr|] eqn:Hp; [|reflexivity].
  destruct (pstate pr); cbn; try reflexivity.
  now rewrite list_lookup_insert_ne.
Qed.

Lemma settle_settled (p : PromiseId) (st : PromiseState) (s : State) :
  state_of s p <> Some Pending -> settle p st s = s.
Proof.
  unfold state_of, settle. intros H.
  destruct (promises s !! p) as [pr|] eqn:Hp; [|reflexivity].
  cbn in H. destruct (pstate pr); congruence.
Qed.

(** [settle] reads and writes the promises and the job queue only. *)
Lemma settle_congr (p : PromiseId) (st : PromiseState) (s1 s2 : State) :
  promises s1 = promises s2 -> jobs s1 = jobs s2 ->
  promises (settle p st s1) = promises (settle p st s2)
  /\ jobs (settle p st s1) = jobs (settle p st s2).
Proof.
  intros Hp Hj. unfold settle. rewrite Hp.
  destruct (promises s2 !! p) as [pr|]; [|now split].
  destruct (pstate pr); cbn; rewrite ?Hp, ?Hj; now split.
Qed.


(** ** The movement loop, rule by rule *)

Section MoveEntityRules.

Variables (s : State) (L : LegId) (e : LegEnv).
Hypothesis Hleg : legs s !! L = Some e.

Let ent := entity s.
Let blockInFront := getBlockFromRay ent (location ent) (env_direction e).
Let climbStart :=
  truthy (env_canJump e) && aboveIsAir blockInFront
  && isOnGround ent && negb (climbing e).

Lemma moveEntity_abort :
  aborted s = true ->
  moveEntity L s = settle (resolve e) Fulfilled (clearAllIntervals s).
Proof. intros Ha. unfold moveEntity. now rewrite Hleg, Ha. Qed.

Lemma moveEntity_climb_start :
  aborted s = false -> climbStart = true ->
  moveEntity L s
  = modify_leg L (set_wasOnGround (isOnGround ent))
      (modify_leg L (set_climbing true)
         (applyImpulse (Vector3.mk 0 0.5 0) s)).
Proof.
  intros Ha Hc. unfold moveEntity. rewrite Hleg, Ha.
  subst climbStart blockInFront ent. cbv zeta. now rewrite Hc.
Qed.

Lemma moveEntity_climbing_airborne :
  aborted s = false -> climbStart = false ->
  climbing e = true -> isOnGround ent = false ->
  moveEntity L s
  = modify_leg L (set_wasOnGround false)
      (applyImpulse
         (Vector3.mk (Vector3.x (impulseVector e) * 0.5) 0
                     (Vector3.z (impulseVector e) * 0.5)) s).
Proof.
  intros Ha Hc Hcl Hg. unfold moveEntity. rewrite Hleg, Ha.
  subst climbStart blockInFront ent. cbv zeta. rewrite Hc, Hcl, Hg.
  cbn. now rewrite Hg.
Qed.

Lemma moveEntity_climb_end :
  aborted s = false -> climbStart = false ->
  climbing e = true -> isOnGround ent = true ->
  moveEntity L s
  = modify_leg L (set_wasOnGround true) (modify_leg L (set_climbing false) s).
Proof.
  intros Ha Hc Hcl Hg. unfold moveEntity. rewrite Hleg, Ha.
  subst climbStart blockInFront ent. cbv zeta. rewrite Hc, Hcl, Hg.
  cbn. now rewrite Hg.
Qed.

Let currentPosition := Vector3.center (location ent).
Let d := distanceTraveled e
         + Vector3.length (Vector3.subtract currentPosition (startPosition e)).

Lemma moveEntity_advance :
  aborted s = false -> climbStart = false ->
  climbing e = false -> isOnGround ent = true ->
  d < env_distance e ->
  moveEntity L s
  = modify_leg L (set_wasOnGround true)
      (applyImpulse
         (Vector3.mk (Vector3.x (impulseVector e))
            (Vector3.y (impulseVector e)) (Vector3.z (impulseVector e)))
         (modify_leg L (set_progress currentPosition d) s)).
Proof.
  intros Ha Hc Hcl Hg Hd. unfold moveEntity. rewrite Hleg, Ha.
  subst climbStart blockInFront. cbv zeta. fold ent. rewrite Hc, Hcl, Hg.
  cbn [andb negb]. fold currentPosition. fold d.
  rewrite (Rltb_true _ _ Hd). cbn. fold ent. now rewrite Hg.
Qed.

Lemma moveEntity_complete :
  aborted s = false -> climbStart = false ->
  climbing e = false -> isOnGround ent = true ->
  env_distance e <= d ->
  moveEntity L s
  = modify_leg L (set_wasOnGround true)
      (settle (resolve e) Fulfilled
         (teleport currentPosition
            (resetToDefaultValue
               (clearAllIntervals
                  (modify_leg L (set_progress currentPosition d) s))))).
Proof.
  intros Ha Hc Hcl Hg Hd. unfold moveEntity. rewrite Hleg, Ha.
  subst climbStart blockInFront. cbv zeta. fold ent. rewrite Hc, Hcl, Hg.
  cbn [andb negb]. fold currentPosition. fold d.
  rewrite (Rltb_false _ _ Hd).
  rewrite settle_entity, !clearAllIntervals_eq. cbn. fold ent. now rewrite Hg.
Qed.

Lemma moveEntity_idle :
  aborted s = false -> climbStart = false ->
  climbing e = false -> isOnGround ent = false ->
  moveEntity L s = modify_leg L (set_wasOnGround false) s.
Proof.
  intros Ha Hc Hcl Hg. unfold moveEntity. rewrite Hleg, Ha.
  subst climbStart blockInFront ent. cbv zeta. rewrite Hc, Hcl, Hg.
  cbn. now rewrite Hg.
Qed.

End MoveEntityRules.

(** ** The rotation loop, case by case *)

Lemma updateRotation_abort (L : LegId) (s : State) (e : LegEnv) :
  legs s !! L = Some e -> aborted s = true ->
  updateRotation L s = settle (resolve e) Fulfilled (clearAllIntervals s).
Proof. intros Hleg Ha. unfold updateRotation. now rewrite Hleg, Ha. Qed.

Lemma updateRotation_continue (L : LegId) (s : State) (e : LegEnv) :
  legs s !! L = Some e -> aborted s = false ->
  distanceTraveled e < env_distance e ->
  updateRotation L s
  = snd (system_run (UpdateRotation L)
           (runCommand_actionbar
              (setRotation 0 (calculateYaw (impulseVector e)) s))).
Proof.
  intros Hleg Ha Hd. unfold updateRotation.
  now rewrite Hleg, Ha, Rltb_true by assumption.
Qed.

Lemma updateRotation_done (L : LegId) (s : State) (e : LegEnv) :
  legs s !! L = Some e -> aborted s = false ->
  env_distance e <= distanceTraveled e ->
  updateRotation L s = s.
Proof.
  intros Hleg Ha Hd. unfold updateRotation.
  now rewrite Hleg, Ha, Rltb_false by assumption.
Qed.

(** ** Scenario states, evaluated *)

Ltac eval_model :=
  lazy -[Rlt_dec Rle_dec Rplus Rmult Rminus Rdiv Ropp Rinv sqrt IZR Q2R atan PI
         Zfloor Math_floor Math_SQRT1_2 Math_atan2 calculateYaw Rltb
         Vector3.center Vector3.scale Vector3.length Vector3.subtract
         Scenario.northYaw Scenario.northEnv].

Ltac eval_to_rotation :=
  lazy -[Rlt_dec Rle_dec Rplus Rmult Rminus Rdiv Ropp Rinv sqrt IZR Q2R atan PI
         Zfloor Math_floor Math_SQRT1_2 Math_atan2 calculateYaw Rltb
         Vector3.center Vector3.scale Vector3.length Vector3.subtract
         Scenario.northYaw Scenario.northEnv updateRotation].

Lemma oneLeg_eq :
  Scenario.oneLeg
  = {| manager :=
         {| isStopped := false; intervalHandles := [0%nat];
            config := {| canJump := Some (Some true) |};
            callbacks := {| onStart := None; onStop := None; onComplete := None |};
            queue := 1%nat |};
       entity :=
         {| isValid := true; isOnGround := true; location := Vector3.mk 0 64 0;
            rotation := (0, Scenario.northYaw);
            movement := Some {| defaultValue := Some 0.1; currentValue := 0 |};
            getBlockFromRay := Scenario.openGround |};
       scheduled :=
         [ {| handle := 0%nat; callback := MoveEntity 0%nat; period := Some 5%nat |};
           {| handle := 1%nat; callback := UpdateRotation 0%nat; period := None |} ];
       nextHandle := 2%nat;
       promises :=
         [ {| pstate := Fulfilled; reactions := []; origin := Resolved |};
           {| pstate := Pending; reactions := [CompleteStep 2%nat];
              origin := ThenMove 0%nat |};
           {| pstate := Pending; reactions := []; origin := ThenStart 1%nat |} ];
       jobs := [];
       legs := [Scenario.northEnv];
       trace :=
         [ SetCurrentValue 0; SetRotation 0 Scenario.northYaw;
           SetRotation 0 Scenario.northYaw; RunCommand 0 Scenario.northYaw ] |}.
Proof.
  unfold Scenario.oneLeg. eval_to_rotation.
  erewrite updateRotation_continue;
    [ | eval_model; reflexivity | reflexivity | cbn; lra ].
  reflexivity.
Qed.

(** ** The movement loop: claims *)

(** C7: on a tick of the movement loop that passes the abort test, with
    [canJump] on, a block hit by the ray, air above that block, the agent on
    the ground and the leg not climbing, the agent gets the upward impulse
    (0, 0.5, 0) and [climbing] becomes true; the rule is tried first and
    nothing else happens on that tick: no other impulse, no distance
    accounting, no resolution. *)
Theorem climb_start_wins (s : State) (L : LegId) (e : LegEnv) :
  legs s !! L = Some e ->
  isStopped (manager s) = false ->
  isValid (entity s) = true ->
  truthy (env_canJump e) = true ->
  aboveIsAir
    (getBlockFromRay (entity s) (location (entity s)) (env_direction e)) = true ->
  isOnGround (entity s) = true ->
  climbing e = false ->
  trace (moveEntity L s) = trace s ++ [ApplyImpulse (Vector3.mk 0 0.5 0)]
  /\ legs (moveEntity L s) !! L
     = Some (set_wasOnGround true (set_climbing true e))
  /\ promises (moveEntity L s) = promises s
  /\ jobs (moveEntity L s) = jobs s
  /\ manager (moveEntity L s) = manager s
  /\ entity (moveEntity L s) = entity s
  /\ scheduled (moveEntity L s) = scheduled s.
Proof.
  intros Hleg Hs Hv Hj Hb Hg Hc.
  rewrite (moveEntity_climb_start s L e Hleg).
  - rewrite Hg. cbn. rewrite !list_lookup_alter_eq, Hleg. cbn. tauto.
  - unfold aborted. now rewrite Hs, Hv.
  - now rewrite Hj, Hb, Hg, Hc.
Qed.

Lemma climb_start_wins_witness :
  trace (moveEntity 0 (world Scenario.atStep Scenario.oneLeg))
  = trace (world Scenario.atStep Scenario.oneLeg)
    ++ [ApplyImpulse (Vector3.mk 0 0.5 0)].
Proof.
  apply (climb_start_wins (world Scenario.atStep Scenario.oneLeg) 0
           Scenario.northEnv);
    try rewrite oneLeg_eq; reflexivity.
Defined.

(** Whatever rule fires, a tick of the movement loop never lowers the
    distance travelled. *)
Lemma distanceTraveled_monotone (s : State) (L : LegId) (e e' : LegEnv) :
  legs s !! L = Some e -> legs (moveEntity L s) !! L = Some e' ->
  distanceTraveled e <= distanceTraveled e'.
Proof.
  intros Hleg. unfold moveEntity. rewrite Hleg.
  destruct (aborted s).
  { rewrite settle_legs, clearAllIntervals_eq. cbn. rewrite Hleg.
    intros [= <-]. lra. }
  cbv zeta.
  repeat match goal with
         | |- context [if ?b then _ else _] => destruct b eqn:?
         end;
    repeat (rewrite ?settle_legs, ?settle_entity, ?clearAllIntervals_eq; cbn);
    rewrite ?list_lookup_alter_eq, ?Hleg; cbn; intros [= <-]; cbn;
    try lra;
    match goal with
    | |- context [Vector3.length ?v] => pose proof (length_nonneg v); lra
    end.
Qed.







(** ** Leg set-up *)

Lemma executeMove_invalid direction distance options t (s : State) :
  isValid (entity s) = false ->
  executeMove direction distance options t s
  = settle t Fulfilled (clearAllIntervals s).
Proof. intros H. unfold executeMove. now rewrite H. Qed.

Lemma executeMove_no_component direction distance options t (s : State) :
  isValid (entity s) = true -> movement (entity s) = None ->
  executeMove direction distance options t s = settle t Rejected s.
Proof. intros Hv Hm. unfold executeMove. now rewrite Hv, Hm. Qed.

Lemma executeMove_no_direction direction distance options t (s : State) mc :
  isValid (entity s) = true -> movement (entity s) = Some mc ->
  directions direction = None ->
  executeMove direction distance options t s = settle t Rejected s.
Proof. intros Hv Hm Hd. unfold executeMove. now rewrite Hv, Hm, Hd. Qed.

Lemma executeMove_ready direction distance options t (s : State) mc d :
  isValid (entity s) = true -> movement (entity s) = Some mc ->
  directions direction = Some d ->
  executeMove direction distance options t s
  = updateRotation (length (legs s))
      (leg_ready d (default 0.1 (defaultValue mc)) distance options t s).
Proof. intros Hv Hm Hd. unfold executeMove. now rewrite Hv, Hm, Hd. Qed.

(** C2, on the code: for an agent without a movement component the leg's
    set-up throws on reading [defaultValue]; the leg's promise is rejected,
    the rejection runs down the chain to the promise [start] returned, no
    leg is set up and [onComplete] is never called. *)
Theorem missing_movement_component_rejects :
  let s := run (construct Scenario.bareAgent Scenario.noOptions)
             [Script [CallOn "onComplete" (Some 7%nat);
                      CallMove "north" 5 Scenario.noOptions;
                      CallStart]] in
  state_of s 1 = Some Rejected
  /\ state_of s 2 = Some Rejected
  /\ legs s = []
  /\ scheduled s = []
  /\ trace s = [].
Proof. eval_model. repeat split. Qed.

(** ** stop *)

(** C5, as stated, fails: [stop] returns the manager's queue promise,
    [start] a new promise chained onto it; right after [start], before the
    promise jobs run, the former is fulfilled and the latter pending. *)
Lemma stop_signal_counterexample :
  let s := construct Scenario.agent Scenario.noOptions in
  let started := start s in
  let stopped := stop (snd started) in
  fst stopped <> fst started
  /\ state_of (snd stopped) (fst stopped) = Some Fulfilled
  /\ state_of (snd stopped) (fst started) = Some Pending.
Proof. eval_model. repeat split. discriminate. Qed.

Lemma stop_fields (s : State) :
  isStopped (manager (snd (stop s))) = true
  /\ intervalHandles (manager (snd (stop s))) = []
  /\ scheduled (snd (stop s))
     = without (intervalHandles (manager s)) (scheduled s)
  /\ trace (snd (stop s)) = trace s ++ onStop_call s
  /\ fst (stop s) = queue (manager s)
  /\ queue (manager (snd (stop s))) = queue (manager s)
  /\ callbacks (manager (snd (stop s))) = callbacks (manager s)
  /\ promises (snd (stop s)) = promises s
  /\ jobs (snd (stop s)) = jobs s
  /\ legs (snd (stop s)) = legs s
  /\ entity (snd (stop s)) = entity s.
Proof.
  unfold stop, onStop_call. rewrite !clearAllIntervals_eq. cbn.
  destruct (onStop (callbacks (manager s))) as [h|]; cbn;
    rewrite ?app_nil_r; tauto.
Qed.

Lemma then_new_promise (p : PromiseId) (f : PromiseId -> Reaction) (s : State) :
  fst (then_ p f s) = length (promises s)
  /\ promises (snd (then_ p f s)) !! length (promises s)
     = Some (new_promise (origin_of (f (length (promises s))) p)).
Proof.
  unfold then_.
  destruct (promises s !! p) as [pr|] eqn:Hp; [destruct (pstate pr) eqn:Hst|];
    cbn; (split; [reflexivity|]).
  - destruct (decide (p = length (promises s))) as [->|Hne].
    + apply lookup_lt_Some in Hp. lia.
    + rewrite list_lookup_insert_ne by assumption. apply list_lookup_middle.
      reflexivity.
  - now apply list_lookup_middle.
  - now apply list_lookup_middle.
  - now apply list_lookup_middle.
Qed.

(** C5, as amended: [stop] sets the flag, clears every tracked handle,
    calls the registered [onStop] once, and returns the manager's queue
    promise, the one a later [start] chains a new promise onto; it settles
    nothing. A second [stop] does all of it again. *)
Theorem stop_effect (s : State) :
  let q := fst (stop s) in
  let s' := snd (stop s) in
  isStopped (manager s') = true
  /\ intervalHandles (manager s') = []
  /\ scheduled s' = without (intervalHandles (manager s)) (scheduled s)
  /\ trace s' = trace s ++ onStop_call s
  /\ q = queue (manager s)
  /\ promises s' = promises s /\ jobs s' = jobs s
  /\ promises (snd (start s')) !! fst (start s')
     = Some (new_promise (ThenStart q))
  /\ fst (stop s') = q
  /\ isStopped (manager (snd (stop s'))) = true
  /\ intervalHandles (manager (snd (stop s'))) = []
  /\ trace (snd (stop s')) = trace s ++ onStop_call s ++ onStop_call s.
Proof.
  cbv zeta.
  destruct (stop_fields s)
    as (H1 & H2 & H3 & H4 & H5 & H6 & H7 & H8 & H9 & _).
  destruct (stop_fields (snd (stop s)))
    as (G1 & G2 & G3 & G4 & G5 & G6 & _).
  repeat split; try assumption.
  - unfold start. destruct (then_new_promise (queue (manager (snd (stop s))))
                              CompleteStep (snd (stop s))) as [E1 E2].
    rewrite E1, E2, H6, H5. reflexivity.
  - rewrite G4, H4, <- app_assoc. do 2 f_equal.
    unfold onStop_call. now rewrite H7.
Qed.

(** ** Counting *)

Lemma count_app {A} (f : A -> bool) (l k : list A) :
  count f (l ++ k) = (count f l + count f k)%nat.
Proof. induction l as [|a l IH]; cbn; [reflexivity | rewrite IH; lia]. Qed.

Lemma count_fmap {A B} (f : B -> bool) (g : A -> B) (l : list A) :
  count f (g <$> l) = count (fun a => f (g a)) l.
Proof. induction l as [|a l IH]; cbn; [reflexivity | now rewrite IH]. Qed.

Lemma count_ext {A} (f g : A -> bool) (l : list A) :
  (forall a, a ∈ l -> f a = g a) -> count f l = count g l.
Proof.
  induction l as [|a l IH]; cbn; intros H; [reflexivity|].
  rewrite (H a) by apply list_elem_of_here.
  rewrite IH; [reflexivity|]. intros b Hb. apply H. now apply list_elem_of_further.
Qed.

Lemma count_le {A} (f g : A -> bool) (l : list A) :
  (forall a, a ∈ l -> f a = true -> g a = true) ->
  (count f l <= count g l)%nat.
Proof.
  induction l as [|a l IH]; cbn; intros H; [lia|].
  assert (count f l <= count g l)%nat
    by (apply IH; intros b Hb; apply H; now apply list_elem_of_further).
  destruct (f a) eqn:Hf; [|lia].
  rewrite (H a) by (assumption || apply list_elem_of_here). lia.
Qed.

Lemma count_zero {A} (f : A -> bool) (l : list A) :
  count f l = 0%nat <-> forall a, a ∈ l -> f a = false.
Proof.
  induction l as [|a l IH]; cbn.
  - split; [intros _ a Ha; inversion Ha | reflexivity].
  - split.
    + intros H b Hb. apply elem_of_cons in Hb as [->|Hb].
      * destruct (f a); [lia | reflexivity].
      * apply IH; [lia | assumption].
    + intros H. rewrite (H a) by apply list_elem_of_here.
      apply IH. intros b Hb. apply H. now apply list_elem_of_further.
Qed.

Lemma count_pos {A} (f : A -> bool) (l : list A) (a : A) :
  a ∈ l -> f a = true -> (1 <= count f l)%nat.
Proof.
  intros Ha Hf. destruct (count f l) eqn:Hc; [|lia].
  rewrite count_zero in Hc. rewrite (Hc a Ha) in Hf. discriminate.
Qed.

(** ** Looking promises up *)

Lemma pstate_at_Some (ps : list Promise) (p : PromiseId) (pr : Promise) :
  ps !! p = Some pr -> pstate_at ps p = Some (pstate pr).
Proof. intros H. unfold pstate_at. now rewrite H. Qed.

Lemma pstate_at_insert (ps : list Promise) (t x : PromiseId) (pr : Promise) :
  (t < length ps)%nat ->
  pstate_at (<[t := pr]> ps) x
  = if decide (t = x) then Some (pstate pr) else pstate_at ps x.
Proof.
  intros Ht. unfold pstate_at. destruct (decide (t = x)) as [->|Hne].
  - now rewrite list_lookup_insert_eq.
  - now rewrite list_lookup_insert_ne.
Qed.

Lemma pstate_at_app (ps : list Promise) (x : PromiseId) (pr : Promise) :
  (x < length ps)%nat -> pstate_at (ps ++ [pr]) x = pstate_at ps x.
Proof. intros H. unfold pstate_at. now rewrite lookup_app_l. Qed.

Lemma is_pending_true (ps : list Promise) (t : PromiseId) :
  is_pending ps t = true <-> pstate_at ps t = Some Pending.
Proof.
  unfold is_pending. destruct (pstate_at ps t) as [[]|]; split; congruence.
Qed.

(** Settling [t] takes it, and nothing else, out of the pending ones. *)
Lemma inflight_settle_le (ps : list Promise) (lt : list PromiseId) t pr :
  (t < length ps)%nat -> pstate pr <> Pending ->
  (inflight (<[t := pr]> ps) lt <= inflight ps lt)%nat.
Proof.
  intros Ht Hpr. apply count_le. intros a _. rewrite !is_pending_true.
  rewrite pstate_at_insert by assumption.
  destruct (decide (t = a)); [|tauto]. intros [=]. congruence.
Qed.

Lemma inflight_settle_zero (ps : list Promise) (lt : list PromiseId) t pr :
  (t < length ps)%nat -> pstate pr <> Pending ->
  t ∈ lt -> pstate_at ps t = Some Pending -> (inflight ps lt <= 1)%nat ->
  inflight (<[t := pr]> ps) lt = 0%nat.
Proof.
  intros Ht Hpr Hin Hp. unfold inflight.
  induction lt as [|a lt IH]; [inversion Hin|].
  cbn. intros Hle.
  assert (Ha' : is_pending (<[t:=pr]> ps) t = false).
  { unfold is_pending. rewrite pstate_at_insert by assumption.
    destruct (decide (t = t)); [|congruence]. destruct (pstate pr); congruence. }
  destruct (decide (a = t)) as [->|Hne].
  - rewrite Ha'. apply (proj2 (is_pending_true ps t)) in Hp. rewrite Hp in Hle.
    assert (Hz : count (is_pending ps) lt = 0%nat) by lia.
    assert (count (is_pending (<[t:=pr]> ps)) lt <= count (is_pending ps) lt)%nat
      by (apply (inflight_settle_le ps lt t pr); assumption).
    lia.
  - apply elem_of_cons in Hin as [->|Hin]; [congruence|].
    assert (1 <= count (is_pending ps) lt)%nat
      by (apply (count_pos _ _ t); [assumption | now apply is_pending_true]).
    destruct (is_pending ps a) eqn:Hpa; [lia|].
    assert (is_pending (<[t:=pr]> ps) a = false) as ->.
    { unfold is_pending in *. rewrite pstate_at_insert by assumption.
      destruct (decide (t = a)); [congruence | assumption]. }
    apply IH; [assumption | lia].
Qed.

Lemma parent_origin_of (tr : Promise) (r : Reaction) (p : PromiseId) :
  origin tr = origin_of r p -> parent tr = Some p.
Proof. unfold parent. intros ->. now destruct r. Qed.

Lemma is_start_origin_of (r : Reaction) (p : PromiseId) :
  is_start (origin_of r p) = negb (is_move r).
Proof. now destruct r. Qed.

Lemma lookup_insert_inv (ps : list Promise) (t x : PromiseId) (pr pr2 : Promise) :
  <[t := pr]> ps !! x = Some pr2 ->
  (x = t /\ pr2 = pr) \/ (x <> t /\ ps !! x = Some pr2).
Proof.
  intros H. destruct (decide (t = x)) as [->|Hne].
  - left. split; [reflexivity|].
    rewrite list_lookup_insert_eq in H; [congruence|].
    apply lookup_lt_Some in H. now rewrite length_insert in H.
  - right. rewrite list_lookup_insert_ne in H by assumption. split; congruence.
Qed.

Lemma job_target_job_of (st : PromiseState) (r : Reaction) :
  job_target (job_of st r) = target r.
Proof. now destruct st. Qed.

Lemma job_reaction_job_of (st : PromiseState) (r : Reaction) :
  job_reaction (job_of st r) = r.
Proof. now destruct st. Qed.

Lemma parent_state_job_of (st : PromiseState) (r : Reaction) :
  st <> Pending -> parent_state (job_of st r) = st.
Proof. destruct st; cbn; congruence. Qed.

Lemma move_jobs_job_of (st : PromiseState) (l : list Reaction) :
  move_jobs (job_of st <$> l) = count is_move l.
Proof.
  unfold move_jobs. rewrite count_fmap. apply count_ext.
  intros r _. now rewrite job_reaction_job_of.
Qed.

(** ** The chain invariant is kept *)

Section SettleJob.

Variables (ps : list Promise) (js : list Job) (lt : list PromiseId)
  (q : PromiseId) (j : Job) (tr : Promise) (st : PromiseState).
Hypothesis Hinv : chain_inv ps (j :: js) lt q.
Hypothesis Htr : ps !! job_target j = Some tr.
Hypothesis Hst : st <> Pending.
Hypothesis Hful : st = Fulfilled -> parent_state j = Fulfilled.
Hypothesis Hrej :
  st = Rejected ->
  parent_state j = Rejected \/ is_move (job_reaction j) = true.

Local Abbreviation t := (job_target j).
Local Abbreviation ps' := (<[job_target j := settled tr st]> ps).
Local Abbreviation js' := (js ++ (job_of st <$> reactions tr)).

Lemma settle_job_facts :
  exists p0, pstate tr = Pending
             /\ origin tr = origin_of (job_reaction j) p0
             /\ pstate_at ps p0 = Some (parent_state j)
             /\ (t < length ps)%nat /\ p0 <> t.
Proof.
  destruct (ci_jobs _ _ _ _ Hinv j) as (tr0 & p0 & H1 & H2 & H3 & H4).
  { apply list_elem_of_here. }
  rewrite Htr in H1. injection H1 as <-.
  exists p0. repeat split; try assumption.
  - eapply lookup_lt_Some; eassumption.
  - intros ->. unfold pstate_at in H4.
    rewrite Htr in H4. cbn in H4. destruct j; cbn in H4; congruence.
Qed.

Lemma chain_settle_job : chain_inv ps' js' lt q.
Proof.
  destruct settle_job_facts as (p0 & Hpend & Horig & Hpar & Hlt & Hp0).
  assert (Hpt : pstate_at ps t = Some Pending)
    by (unfold pstate_at; rewrite Htr; cbn; now rewrite Hpend).
  assert (Hat : forall x, pstate_at ps' x
                          = if decide (t = x) then Some st else pstate_at ps x)
    by (intros x; now rewrite pstate_at_insert).
  assert (Hsettled_ne : forall x s0, pstate_at ps x = Some s0 -> s0 <> Pending ->
                                     pstate_at ps' x = Some s0).
  { intros x s0 Hx Hs0. rewrite Hat. destruct (decide (t = x)) as [<-|]; [|assumption].
    congruence. }
  (* the target of a waiting reaction is not [t]: its parent is pending *)
  assert (Hwait_ne : forall p pr r, ps !! p = Some pr -> r ∈ reactions pr ->
                                    target r <> t).
  { intros p pr r Hp Hr Heq.
    destruct (ci_waiting _ _ _ _ Hinv p pr r Hp Hr) as (Hpp & _ & tr2 & H1 & _ & H3).
    rewrite Heq in H1. rewrite Htr in H1. injection H1 as <-.
    apply parent_origin_of in H3. apply parent_origin_of in Horig.
    assert (p = p0) by congruence. subst p0.
    unfold pstate_at in Hpar. rewrite Hp in Hpar. cbn in Hpar.
    destruct j; cbn in Hpar; congruence. }
  assert (Hnd : NoDup (job_target <$> (j :: js)))
    by apply (ci_jobs_nodup _ _ _ _ Hinv).
  rewrite fmap_cons in Hnd. apply NoDup_cons in Hnd as [Hnotin Hnd].
  assert (Hjs_ne : forall j', j' ∈ js -> job_target j' <> t).
  { intros j' Hj' Heq. apply Hnotin. rewrite <- Heq.
    now apply list_elem_of_fmap_2. }
  split.
  - (* waiting *)
    intros p pr r Hp Hr. apply lookup_insert_inv in Hp as [[-> ->]|[Hne Hp]].
    { inversion Hr. }
    destruct (ci_waiting _ _ _ _ Hinv p pr r Hp Hr) as (H1 & H2 & tr2 & H3 & H4 & H5).
    repeat split; try assumption. exists tr2. repeat split; try assumption.
    rewrite list_lookup_insert_ne; [assumption|].
    intros Heq. now apply (Hwait_ne p pr r Hp Hr).
  - (* waiting_nodup *)
    intros p pr Hp. apply lookup_insert_inv in Hp as [[-> ->]|[Hne Hp]].
    + cbn. constructor.
    + now apply (ci_waiting_nodup _ _ _ _ Hinv p).
  - (* jobs *)
    intros j' Hj'. apply elem_of_app in Hj' as [Hj'|Hj'].
    + destruct (ci_jobs _ _ _ _ Hinv j') as (tr2 & p2 & H1 & H2 & H3 & H4).
      { now apply list_elem_of_further. }
      exists tr2, p2. repeat split; try assumption.
      * rewrite list_lookup_insert_ne; [assumption|].
        intros Heq. now apply (Hjs_ne j' Hj').
      * apply Hsettled_ne; [assumption|]. destruct j'; cbn; congruence.
    + apply list_elem_of_fmap in Hj' as (r & -> & Hr).
      destruct (ci_waiting _ _ _ _ Hinv t tr r Htr Hr) as (_ & _ & tr2 & H3 & H4 & H5).
      exists tr2, t. rewrite job_target_job_of, job_reaction_job_of.
      repeat split; try assumption.
      * rewrite list_lookup_insert_ne; [assumption|].
        intros Heq. now apply (Hwait_ne t tr r Htr Hr).
      * rewrite Hat. destruct (decide (t = t)); [|congruence].
        now rewrite parent_state_job_of.
  - (* jobs_nodup *)
    rewrite fmap_app. apply NoDup_app. split; [assumption|]. split.
    + intros x Hx Hx'.
      apply list_elem_of_fmap in Hx as (j1 & -> & Hj1).
      apply list_elem_of_fmap in Hx' as (j2 & Heq & Hj2).
      apply list_elem_of_fmap in Hj2 as (r & -> & Hr).
      rewrite job_target_job_of in Heq.
      destruct (ci_jobs _ _ _ _ Hinv j1) as (tr1 & p1 & H1 & _ & H3 & H4).
      { now apply list_elem_of_further. }
      destruct (ci_waiting _ _ _ _ Hinv t tr r Htr Hr) as (_ & _ & tr2 & G3 & _ & G5).
      rewrite Heq in H1. rewrite H1 in G3. injection G3 as <-.
      apply parent_origin_of in H3, G5. assert (p1 = t) by congruence. subst p1.
      rewrite Hpt in H4. destruct j1; cbn in H4; congruence.
    + rewrite <- list_fmap_compose.
      erewrite list_fmap_ext; [apply (ci_waiting_nodup _ _ _ _ Hinv t tr Htr)|].
      intros i r _. cbn. apply job_target_job_of.
  - (* legs *)
    intros t' Ht'.
    destruct (ci_legs _ _ _ _ Hinv t' Ht') as (H1 & tr2 & p2 & H2 & H3 & H4).
    assert (t' <> t) by (intros ->; apply (H1 j); [apply list_elem_of_here | reflexivity]).
    split.
    + intros j' Hj'. apply elem_of_app in Hj' as [Hj'|Hj'].
      * apply H1. now apply list_elem_of_further.
      * apply list_elem_of_fmap in Hj' as (r & -> & Hr).
        rewrite job_target_job_of. intros Heq.
        destruct (ci_waiting _ _ _ _ Hinv t tr r Htr Hr) as (_ & _ & tr3 & G3 & _ & G5).
        rewrite Heq, H2 in G3. injection G3 as <-.
        apply parent_origin_of in G5. unfold parent in G5. rewrite H3 in G5.
        injection G5 as ->. rewrite Hpt in H4. congruence.
    + exists tr2, p2. repeat split; try assumption.
      * now rewrite list_lookup_insert_ne.
      * apply Hsettled_ne; [assumption | congruence].
  - (* covered *)
    intros t2 tr2 H2 Hp2. apply lookup_insert_inv in H2 as [[-> ->]|[Hne H2]].
    { cbn in Hp2. congruence. }
    destruct (ci_covered _ _ _ _ Hinv t2 tr2 H2 Hp2)
      as [(j' & Hj' & Heq)|[(p & pr & r & Hp & Hr & Heq)|Hl]].
    + left. apply elem_of_cons in Hj' as [->|Hj']; [congruence|].
      exists j'. split; [|assumption]. apply elem_of_app. now left.
    + destruct (decide (p = t)) as [->|Hpt'].
      * left. assert (pr = tr) by congruence. subst pr.
        exists (job_of st r). rewrite job_target_job_of. split; [|assumption].
        apply elem_of_app. right. now apply list_elem_of_fmap_2.
      * right. left. exists p, pr, r. repeat split; try assumption.
        now rewrite list_lookup_insert_ne.
    + right. now right.
  - (* order *)
    intros t2 tr2 p2 H2 Hpar2.
    apply lookup_insert_inv in H2 as [[-> ->]|[Hne H2]].
    + unfold parent in Hpar2. cbn in Hpar2.
      assert (Hpp : parent tr = Some p2) by exact Hpar2.
      pose proof (parent_origin_of _ _ _ Horig) as Hpp0.
      assert (p2 = p0) by congruence. subst p2.
      destruct (ci_order _ _ _ _ Hinv t tr p0 Htr Hpp) as (Hlt0 & _ & _).
      split; [assumption|]. cbn. split.
      * intros ->. apply Hsettled_ne; [|congruence].
        now rewrite Hpar, (Hful eq_refl).
      * intros ->. destruct (Hrej eq_refl) as [Hr|Hr].
        -- left. apply Hsettled_ne; [|congruence]. now rewrite Hpar, Hr.
        -- destruct j as [r|r]; cbn in *.
           ++ right. split; [now apply Hsettled_ne|].
              rewrite Horig, is_start_origin_of, Hr. reflexivity.
           ++ left. now apply Hsettled_ne.
    + destruct (ci_order _ _ _ _ Hinv t2 tr2 p2 H2 Hpar2) as (G1 & G2 & G3).
      split; [assumption|]. split.
      * intros Hf. apply Hsettled_ne; [auto | congruence].
      * intros Hf. destruct (G3 Hf) as [G|[G G']].
        -- left. apply Hsettled_ne; [assumption | congruence].
        -- right. split; [|assumption]. apply Hsettled_ne; [assumption | congruence].
  - (* queue *)
    destruct (ci_queue _ _ _ _ Hinv) as (pr & H1 & H2 & H3).
    destruct (decide (q = t)) as [Heq|Hne].
    + rewrite Heq in *. exists (settled tr st).
      rewrite list_lookup_insert_eq by assumption.
      assert (pr = tr) by congruence. subst pr.
      repeat split; assumption.
    + exists pr. rewrite list_lookup_insert_ne by congruence.
      repeat split; assumption.
  - (* one_move *)
    intros p pr Hp. apply lookup_insert_inv in Hp as [[-> ->]|[Hne Hp]].
    + cbn. lia.
    + now apply (ci_one_move _ _ _ _ Hinv p).
  - (* front *)
    pose proof (ci_front _ _ _ _ Hinv) as Hfront.
    pose proof (ci_one_move _ _ _ _ Hinv t tr Htr) as Hone.
    assert (Hle : (inflight ps' lt <= inflight ps lt)%nat)
      by (apply inflight_settle_le; [assumption | cbn; assumption]).
    unfold move_jobs. rewrite count_app. fold (move_jobs js).
    fold (move_jobs (job_of st <$> reactions tr)). rewrite move_jobs_job_of.
    unfold move_jobs in Hfront. cbn in Hfront. fold (move_jobs js) in Hfront.
    destruct (is_move (job_reaction j)) eqn:Hmove; [lia|].
    assert (reactions tr = []) as ->; [|cbn; lia].
    destruct (reactions tr) as [|r l] eqn:Hr; [reflexivity|].
    destruct (ci_waiting _ _ _ _ Hinv t tr r Htr) as (_ & Hs & _).
    { rewrite Hr. apply list_elem_of_here. }
    rewrite Horig, is_start_origin_of, Hmove in Hs. discriminate.
  - (* tail *)
    intros Hq.
    pose proof (ci_front _ _ _ _ Hinv) as Hfront.
    assert (Hle : (inflight ps' lt <= inflight ps lt)%nat)
      by (apply inflight_settle_le; [assumption | cbn; assumption]).
    unfold move_jobs. rewrite count_app. fold (move_jobs js).
    fold (move_jobs (job_of st <$> reactions tr)). rewrite move_jobs_job_of.
    unfold move_jobs in Hfront. cbn in Hfront. fold (move_jobs js) in Hfront.
    destruct (ci_queue _ _ _ _ Hinv) as (pr & H1 & H2 & H3).
    destruct (decide (q = t)) as [Heq|Hne].
    + rewrite Heq in *. assert (pr = tr) by congruence. subst pr.
      rewrite H3.
      assert (is_move (job_reaction j) = true).
      { rewrite Horig, is_start_origin_of in H2.
        now destruct (is_move (job_reaction j)). }
      rewrite H in Hfront. lia.
    + rewrite Hat in Hq. destruct (decide (t = q)); [congruence|].
      pose proof (ci_tail _ _ _ _ Hinv Hq) as Htail.
      unfold move_jobs in Htail. cbn in Htail. fold (move_jobs js) in Htail.
      destruct (is_move (job_reaction j)) eqn:Hmove; [lia|].
      assert (reactions tr = []) as ->; [|cbn; lia].
      destruct (reactions tr) as [|r l] eqn:Hr; [reflexivity|].
      destruct (ci_waiting _ _ _ _ Hinv t tr r Htr) as (_ & Hs & _).
      { rewrite Hr. apply list_elem_of_here. }
      rewrite Horig, is_start_origin_of, Hmove in Hs. discriminate.
Qed.

End SettleJob.

Section SettleLeg.

Variables (ps : list Promise) (js : list Job) (lt : list PromiseId)
  (q : PromiseId) (t : PromiseId) (tr : Promise).
Hypothesis Hinv : chain_inv ps js lt q.
Hypothesis Hleg : t ∈ lt.
Hypothesis Htr : ps !! t = Some tr.
Hypothesis Hpend : pstate tr = Pending.

Local Abbreviation ps' := (<[t := settled tr Fulfilled]> ps).
Local Abbreviation js' := (js ++ (job_of Fulfilled <$> reactions tr)).

Lemma chain_settle_leg : chain_inv ps' js' lt q.
Proof.
  destruct (ci_legs _ _ _ _ Hinv t Hleg) as (Hnojob & tr0 & p0 & H0 & Horig & Hpar).
  rewrite Htr in H0. injection H0 as <-.
  assert (Hlt : (t < length ps)%nat) by (eapply lookup_lt_Some; eassumption).
  assert (Hpt : pstate_at ps t = Some Pending)
    by (unfold pstate_at; rewrite Htr; cbn; now rewrite Hpend).
  assert (Hp0 : p0 <> t) by (intros ->; congruence).
  assert (Hat : forall x, pstate_at ps' x
                          = if decide (t = x) then Some Fulfilled
                            else pstate_at ps x)
    by (intros x; now rewrite pstate_at_insert).
  assert (Hsettled_ne : forall x s0, pstate_at ps x = Some s0 -> s0 <> Pending ->
                                     pstate_at ps' x = Some s0).
  { intros x s0 Hx Hs0. rewrite Hat.
    destruct (decide (t = x)) as [<-|]; [congruence | assumption]. }
  (* a promise whose parent is pending is not [t] *)
  assert (Hchild_ne : forall x trx r p, ps !! x = Some trx ->
                        origin trx = origin_of r p ->
                        pstate_at ps p = Some Pending -> x <> t).
  { intros x trx r p Hx Ho Hp ->. rewrite Htr in Hx. injection Hx as <-.
    apply parent_origin_of in Ho. unfold parent in Ho. rewrite Horig in Ho.
    injection Ho as ->. congruence. }
  assert (Hwait_ne : forall p pr r, ps !! p = Some pr -> r ∈ reactions pr ->
                                    target r <> t).
  { intros p pr r Hp Hr.
    destruct (ci_waiting _ _ _ _ Hinv p pr r Hp Hr) as (Hpp & _ & tr2 & H1 & _ & H3).
    apply (Hchild_ne _ tr2 r p H1 H3). unfold pstate_at. rewrite Hp. cbn.
    now rewrite Hpp. }
  split.
  - (* waiting *)
    intros p pr r Hp Hr. apply lookup_insert_inv in Hp as [[-> ->]|[Hne Hp]].
    { inversion Hr. }
    destruct (ci_waiting _ _ _ _ Hinv p pr r Hp Hr) as (H1 & H2 & tr2 & H3 & H4 & H5).
    repeat split; try assumption. exists tr2. repeat split; try assumption.
    rewrite list_lookup_insert_ne; [assumption|].
    intros Heq. now apply (Hwait_ne p pr r Hp Hr).
  - (* waiting_nodup *)
    intros p pr Hp. apply lookup_insert_inv in Hp as [[-> ->]|[Hne Hp]].
    + cbn. constructor.
    + now apply (ci_waiting_nodup _ _ _ _ Hinv p).
  - (* jobs *)
    intros j' Hj'. apply elem_of_app in Hj' as [Hj'|Hj'].
    + destruct (ci_jobs _ _ _ _ Hinv j' Hj') as (tr2 & p2 & H1 & H2 & H3 & H4).
      exists tr2, p2. repeat split; try assumption.
      * rewrite list_lookup_insert_ne; [assumption|].
        intros Heq. now apply (Hnojob j' Hj').
      * apply Hsettled_ne; [assumption|]. destruct j'; cbn; congruence.
    + apply list_elem_of_fmap in Hj' as (r & -> & Hr).
      destruct (ci_waiting _ _ _ _ Hinv t tr r Htr Hr) as (_ & _ & tr2 & H3 & H4 & H5).
      exists tr2, t. rewrite job_target_job_of, job_reaction_job_of.
      repeat split; try assumption.
      * rewrite list_lookup_insert_ne; [assumption|].
        intros Heq. now apply (Hwait_ne t tr r Htr Hr).
      * rewrite Hat. now destruct (decide (t = t)).
  - (* jobs_nodup *)
    rewrite fmap_app. apply NoDup_app.
    split; [apply (ci_jobs_nodup _ _ _ _ Hinv)|]. split.
    + intros x Hx Hx'.
      apply list_elem_of_fmap in Hx as (j1 & -> & Hj1).
      apply list_elem_of_fmap in Hx' as (j2 & Heq & Hj2).
      apply list_elem_of_fmap in Hj2 as (r & -> & Hr).
      rewrite job_target_job_of in Heq.
      destruct (ci_jobs _ _ _ _ Hinv j1 Hj1) as (tr1 & p1 & H1 & _ & H3 & H4).
      destruct (ci_waiting _ _ _ _ Hinv t tr r Htr Hr) as (_ & _ & tr2 & G3 & _ & G5).
      rewrite Heq in H1. rewrite H1 in G3. injection G3 as <-.
      apply parent_origin_of in H3, G5. assert (p1 = t) by congruence. subst p1.
      rewrite Hpt in H4. destruct j1; cbn in H4; congruence.
    + rewrite <- list_fmap_compose.
      erewrite list_fmap_ext; [apply (ci_waiting_nodup _ _ _ _ Hinv t tr Htr)|].
      intros i r _. reflexivity.
  - (* legs *)
    intros t' Ht'.
    destruct (ci_legs _ _ _ _ Hinv t' Ht') as (H1 & tr2 & p2 & H2 & H3 & H4).
    split.
    + intros j' Hj'. apply elem_of_app in Hj' as [Hj'|Hj'].
      * now apply H1.
      * apply list_elem_of_fmap in Hj' as (r & -> & Hr).
        rewrite job_target_job_of. intros Heq.
        destruct (ci_waiting _ _ _ _ Hinv t tr r Htr Hr) as (_ & _ & tr3 & G3 & _ & G5).
        rewrite Heq, H2 in G3. injection G3 as <-.
        apply parent_origin_of in G5. unfold parent in G5. rewrite H3 in G5.
        injection G5 as ->. rewrite Hpt in H4. congruence.
    + destruct (decide (t' = t)) as [->|Hne].
      * exists (settled tr Fulfilled), p0.
        rewrite list_lookup_insert_eq by assumption. repeat split; try assumption.
        apply Hsettled_ne; [assumption | congruence].
      * exists tr2, p2. rewrite list_lookup_insert_ne by congruence.
        repeat split; try assumption.
        apply Hsettled_ne; [assumption | congruence].
  - (* covered *)
    intros t2 tr2 H2 Hp2. apply lookup_insert_inv in H2 as [[-> ->]|[Hne H2]].
    { cbn in Hp2. congruence. }
    destruct (ci_covered _ _ _ _ Hinv t2 tr2 H2 Hp2)
      as [(j' & Hj' & Heq)|[(p & pr & r & Hp & Hr & Heq)|Hl]].
    + left. exists j'. split; [|assumption]. apply elem_of_app. now left.
    + destruct (decide (p = t)) as [->|Hpt'].
      * left. assert (pr = tr) by congruence. subst pr.
        exists (job_of Fulfilled r). rewrite job_target_job_of. split; [|assumption].
        apply elem_of_app. right. now apply list_elem_of_fmap_2.
      * right. left. exists p, pr, r. repeat split; try assumption.
        now rewrite list_lookup_insert_ne.
    + right. now right.
  - (* order *)
    intros t2 tr2 p2 H2 Hpar2.
    apply lookup_insert_inv in H2 as [[-> ->]|[Hne H2]].
    + assert (Hpp : parent tr = Some p2) by exact Hpar2.
      assert (p2 = p0) by (unfold parent in Hpp; rewrite Horig in Hpp; congruence).
      subst p2.
      destruct (ci_order _ _ _ _ Hinv t tr p0 Htr Hpp) as (Hlt0 & _ & _).
      split; [assumption|]. cbn. split; [|congruence].
      intros _. apply Hsettled_ne; [assumption | congruence].
    + destruct (ci_order _ _ _ _ Hinv t2 tr2 p2 H2 Hpar2) as (G1 & G2 & G3).
      split; [assumption|]. split.
      * intros Hf. apply Hsettled_ne; [auto | congruence].
      * intros Hf. destruct (G3 Hf) as [G|[G G']].
        -- left. apply Hsettled_ne; [assumption | congruence].
        -- right. split; [|assumption]. apply Hsettled_ne; [assumption | congruence].
  - (* queue *)
    destruct (ci_queue _ _ _ _ Hinv) as (pr & H1 & H2 & H3).
    destruct (decide (q = t)) as [Heq|Hne].
    + rewrite Heq in *. exists (settled tr Fulfilled).
      rewrite list_lookup_insert_eq by assumption.
      assert (pr = tr) by congruence. subst pr.
      repeat split; assumption.
    + exists pr. rewrite list_lookup_insert_ne by congruence.
      repeat split; assumption.
  - (* one_move *)
    intros p pr Hp. apply lookup_insert_inv in Hp as [[-> ->]|[Hne Hp]].
    + cbn. lia.
    + now apply (ci_one_move _ _ _ _ Hinv p).
  - (* front *)
    pose proof (ci_front _ _ _ _ Hinv) as Hfront.
    pose proof (ci_one_move _ _ _ _ Hinv t tr Htr) as Hone.
    assert (Hz : inflight ps' lt = 0%nat).
    { apply inflight_settle_zero; try assumption; [cbn; congruence | lia]. }
    assert (1 <= inflight ps lt)%nat
      by (apply (count_pos _ _ t); [assumption | now apply is_pending_true]).
    unfold move_jobs. rewrite count_app. fold (move_jobs js).
    fold (move_jobs (job_of Fulfilled <$> reactions tr)).
    rewrite move_jobs_job_of. lia.
  - (* tail *)
    intros Hq.
    pose proof (ci_front _ _ _ _ Hinv) as Hfront.
    assert (Hz : inflight ps' lt = 0%nat).
    { apply inflight_settle_zero; try assumption; [cbn; congruence | lia]. }
    assert (1 <= inflight ps lt)%nat
      by (apply (count_pos _ _ t); [assumption | now apply is_pending_true]).
    unfold move_jobs. rewrite count_app. fold (move_jobs js).
    fold (move_jobs (job_of Fulfilled <$> reactions tr)).
    rewrite move_jobs_job_of.
    destruct (ci_queue _ _ _ _ Hinv) as (pr & H1 & H2 & H3).
    destruct (decide (q = t)) as [Heq|Hne].
    + rewrite Heq in *. assert (pr = tr) by congruence. subst pr. lia.
    + rewrite Hat in Hq. destruct (decide (t = q)); [congruence|].
      pose proof (ci_tail _ _ _ _ Hinv Hq). lia.
Qed.

End SettleLeg.

Lemma chain_add_leg (ps : list Promise) (js : list Job) (lt : list PromiseId)
  (q : PromiseId) (leg : Leg) (t : PromiseId) :
  chain_inv ps (Run (MoveStep leg t) :: js) lt q ->
  chain_inv ps js (lt ++ [t]) q.
Proof.
  intros Hinv.
  destruct (ci_jobs _ _ _ _ Hinv (Run (MoveStep leg t)))
    as (tr & p0 & Htr & Hpend & Horig & Hpar); [apply list_elem_of_here|].
  cbn in *.
  assert (Hnd : NoDup (job_target <$> (Run (MoveStep leg t) :: js)))
    by apply (ci_jobs_nodup _ _ _ _ Hinv).
  rewrite fmap_cons in Hnd. apply NoDup_cons in Hnd as [Hnotin Hnd]. cbn in Hnotin.
  assert (Hpt : is_pending ps t = true).
  { apply is_pending_true. unfold pstate_at. rewrite Htr. cbn. now rewrite Hpend. }
  pose proof (ci_front _ _ _ _ Hinv) as Hfront.
  unfold move_jobs in Hfront. cbn in Hfront. fold (move_jobs js) in Hfront.
  split.
  - apply (ci_waiting _ _ _ _ Hinv).
  - apply (ci_waiting_nodup _ _ _ _ Hinv).
  - intros j Hj. apply (ci_jobs _ _ _ _ Hinv). now apply list_elem_of_further.
  - assumption.
  - intros t' Ht'. apply elem_of_app in Ht' as [Ht'|Ht'].
    + destruct (ci_legs _ _ _ _ Hinv t' Ht') as (H1 & H2). split; [|assumption].
      intros j Hj. apply H1. now apply list_elem_of_further.
    + apply list_elem_of_singleton in Ht' as ->. split.
      * intros j Hj Heq. apply Hnotin. rewrite <- Heq. now apply list_elem_of_fmap_2.
      * exists tr, p0. repeat split; assumption.
  - intros t2 tr2 H2 Hp2.
    destruct (ci_covered _ _ _ _ Hinv t2 tr2 H2 Hp2)
      as [(j' & Hj' & Heq)|[(p & pr & r & Hp & Hr & Heq)|Hl]].
    + apply elem_of_cons in Hj' as [->|Hj'].
      * right. right. cbn in Heq. subst t2. apply elem_of_app. right.
        apply list_elem_of_here.
      * left. now exists j'.
    + right. left. now exists p, pr, r.
    + right. right. apply elem_of_app. now left.
  - apply (ci_order _ _ _ _ Hinv).
  - apply (ci_queue _ _ _ _ Hinv).
  - apply (ci_one_move _ _ _ _ Hinv).
  - unfold inflight in *. rewrite count_app. cbn. rewrite Hpt. lia.
  - intros Hq. pose proof (ci_tail _ _ _ _ Hinv Hq) as Htail.
    unfold move_jobs in Htail. cbn in Htail. lia.
Qed.

Section Then.

Variables (ps : list Promise) (js : list Job) (lt : list PromiseId)
  (q : PromiseId) (f : PromiseId -> Reaction) (m : bool) (pr : Promise).
Hypothesis Hinv : chain_inv ps js lt q.
Hypothesis Hf : forall t, target (f t) = t.
Hypothesis Hm : forall t, is_move (f t) = m.
Hypothesis Hq : ps !! q = Some pr.

Local Abbreviation t := (length ps).
Local Abbreviation np := (new_promise (origin_of (f (length ps)) q)).
Local Abbreviation q' := (if m then length ps else q).

Lemma then_queue_facts :
  (q < t)%nat /\ is_start (origin pr) = false
  /\ count is_move (reactions pr) = 0%nat.
Proof.
  destruct (ci_queue _ _ _ _ Hinv) as (pr0 & H1 & H2 & H3).
  rewrite Hq in H1. injection H1 as <-.
  split; [eapply lookup_lt_Some; eassumption | now split].
Qed.

Lemma leg_target_lt (x : PromiseId) : x ∈ lt -> (x < t)%nat.
Proof.
  intros Hx. destruct (ci_legs _ _ _ _ Hinv x Hx) as (_ & tr & _ & H & _).
  eapply lookup_lt_Some; eassumption.
Qed.

Lemma job_target_lt (j : Job) : j ∈ js -> (job_target j < t)%nat.
Proof.
  intros Hj. destruct (ci_jobs _ _ _ _ Hinv j Hj) as (tr & _ & H & _).
  eapply lookup_lt_Some; eassumption.
Qed.

Lemma waiting_target_lt (p : PromiseId) (prp : Promise) (r : Reaction) :
  ps !! p = Some prp -> r ∈ reactions prp -> (target r < t)%nat.
Proof.
  intros Hp Hr.
  destruct (ci_waiting _ _ _ _ Hinv p prp r Hp Hr) as (_ & _ & tr & H & _).
  eapply lookup_lt_Some; eassumption.
Qed.

Lemma origin_np : is_start (origin np) = negb m.
Proof. cbn. now rewrite is_start_origin_of, Hm. Qed.

Lemma parent_np : parent np = Some q.
Proof. now apply (parent_origin_of _ (f t) q). Qed.

(** [then] on a settled queue promise: the reaction becomes a job. *)
Lemma chain_then_settled :
  pstate pr <> Pending ->
  chain_inv (ps ++ [np]) (js ++ [job_of (pstate pr) (f t)]) lt q'.
Proof.
  intros Hst. destruct then_queue_facts as (Hqlt & Hqs & Hqc).
  assert (Hold : forall x y, ps !! x = Some y -> (ps ++ [np]) !! x = Some y)
    by (intros x y H; now apply lookup_app_l_Some).
  assert (Hinvl : forall x y, (ps ++ [np]) !! x = Some y ->
                              (x = t /\ y = np) \/ ps !! x = Some y).
  { intros x y H. apply lookup_app_Some in H as [H|[H1 H2]]; [now right|].
    left. apply list_lookup_singleton_Some in H2 as [H2 <-]. split; [lia | reflexivity]. }
  assert (Hat : forall x s0, pstate_at ps x = Some s0 ->
                             pstate_at (ps ++ [np]) x = Some s0).
  { intros x s0 H. rewrite pstate_at_app; [assumption|].
    unfold pstate_at in H. destruct (ps !! x) eqn:E; [|discriminate].
    eapply lookup_lt_Some; eassumption. }
  assert (Hnew : (ps ++ [np]) !! t = Some np) by now apply list_lookup_middle.
  assert (Hinfl : inflight (ps ++ [np]) lt = inflight ps lt).
  { apply count_ext. intros x Hx. unfold is_pending.
    rewrite pstate_at_app; [reflexivity | now apply leg_target_lt]. }
  split.
  - intros p prp r Hp Hr. apply Hinvl in Hp as [[-> ->]|Hp]; [inversion Hr|].
    destruct (ci_waiting _ _ _ _ Hinv p prp r Hp Hr) as (H1 & H2 & tr & H3 & H4 & H5).
    repeat split; try assumption. exists tr. repeat split; auto.
  - intros p prp Hp. apply Hinvl in Hp as [[-> ->]|Hp]; [constructor|].
    now apply (ci_waiting_nodup _ _ _ _ Hinv p).
  - intros j Hj. apply elem_of_app in Hj as [Hj|Hj].
    + destruct (ci_jobs _ _ _ _ Hinv j Hj) as (tr & p & H1 & H2 & H3 & H4).
      exists tr, p. repeat split; auto.
    + apply list_elem_of_singleton in Hj as ->.
      exists np, q. rewrite job_target_job_of, job_reaction_job_of, Hf.
      repeat split; try assumption; try reflexivity.
      rewrite parent_state_job_of by assumption.
      apply Hat. unfold pstate_at. now rewrite Hq.
  - rewrite fmap_app. apply NoDup_app.
    split; [apply (ci_jobs_nodup _ _ _ _ Hinv)|]. split; [|apply NoDup_singleton].
    intros x Hx Hx'. cbn in Hx'. apply list_elem_of_singleton in Hx'.
    rewrite job_target_job_of, Hf in Hx'. subst x.
    apply list_elem_of_fmap in Hx as (j & Heq & Hj).
    pose proof (job_target_lt j Hj). lia.
  - intros t' Ht'.
    destruct (ci_legs _ _ _ _ Hinv t' Ht') as (H1 & tr & p & H2 & H3 & H4).
    split.
    + intros j Hj. apply elem_of_app in Hj as [Hj|Hj]; [now apply H1|].
      apply list_elem_of_singleton in Hj as ->.
      rewrite job_target_job_of, Hf. pose proof (leg_target_lt t' Ht'). lia.
    + exists tr, p. repeat split; auto.
  - intros t2 tr2 H2 Hp2. apply Hinvl in H2 as [[-> ->]|H2].
    + left. exists (job_of (pstate pr) (f t)).
      rewrite job_target_job_of, Hf. split; [|reflexivity].
      apply elem_of_app. right. apply list_elem_of_here.
    + destruct (ci_covered _ _ _ _ Hinv t2 tr2 H2 Hp2)
        as [(j' & Hj' & Heq)|[(p & prp & r & Hp & Hr & Heq)|Hl]].
      * left. exists j'. split; [|assumption]. apply elem_of_app. now left.
      * right. left. exists p, prp, r. repeat split; auto.
      * right. now right.
  - intros t2 tr2 p2 H2 Hpar2. apply Hinvl in H2 as [[-> ->]|H2].
    + rewrite parent_np in Hpar2. injection Hpar2 as <-.
      split; [assumption|]. cbn. split; congruence.
    + destruct (ci_order _ _ _ _ Hinv t2 tr2 p2 H2 Hpar2) as (G1 & G2 & G3).
      split; [assumption|]. split.
      * intros Hf'. apply Hat. auto.
      * intros Hf'. destruct (G3 Hf') as [G|[G G']]; [left | right; split]; auto.
  - pose proof origin_np as Hon. destruct m eqn:Em.
    + exists np. split; [assumption|]. split; [|reflexivity].
      rewrite Hon. reflexivity.
    + exists pr. repeat split; auto.
  - intros p prp Hp. apply Hinvl in Hp as [[-> ->]|Hp]; [cbn; lia|].
    now apply (ci_one_move _ _ _ _ Hinv p).
  - rewrite Hinfl. unfold move_jobs. rewrite count_app. cbn.
    rewrite job_reaction_job_of, Hm. fold (move_jobs js).
    assert (Hqs' : pstate_at ps q <> Some Pending)
      by (unfold pstate_at; rewrite Hq; cbn; congruence).
    pose proof (ci_tail _ _ _ _ Hinv Hqs'). destruct m; lia.
  - rewrite Hinfl. unfold move_jobs. rewrite count_app. cbn.
    rewrite job_reaction_job_of, Hm. fold (move_jobs js).
    assert (Hqs' : pstate_at ps q <> Some Pending)
      by (unfold pstate_at; rewrite Hq; cbn; congruence).
    pose proof (ci_tail _ _ _ _ Hinv Hqs'). destruct m eqn:Em.
    + intros Hn. exfalso. apply Hn. unfold pstate_at. now rewrite Hnew.
    + intros _. lia.
Qed.

Local Abbreviation pr' :=
  ({| pstate := Pending; reactions := reactions pr ++ [f (length ps)];
      origin := origin pr |}).
Local Abbreviation ps' := (<[q := pr']> (ps ++ [np])).

(** [then] on a pending queue promise: the reaction waits on it. *)
Lemma chain_then_pending :
  pstate pr = Pending -> chain_inv ps' js lt q'.
Proof.
  intros Hst. destruct then_queue_facts as (Hqlt & Hqs & Hqc).
  assert (Hlen : (q < length (ps ++ [np]))%nat) by (rewrite length_app; cbn; lia).
  assert (Hqnew : ps' !! q = Some pr') by now apply list_lookup_insert_eq.
  assert (Hnew : ps' !! t = Some np).
  { rewrite list_lookup_insert_ne by lia. now apply list_lookup_middle. }
  assert (Hinvl : forall x y, ps' !! x = Some y ->
                              (x = q /\ y = pr') \/ (x = t /\ y = np)
                              \/ (x <> q /\ ps !! x = Some y)).
  { intros x y H. apply lookup_insert_inv in H as [[-> ->]|[Hne H]]; [now left|].
    right. apply lookup_app_Some in H as [H|[H1 H2]]; [now right|].
    left. apply list_lookup_singleton_Some in H2 as [H2 <-]. split; [lia | reflexivity]. }
  assert (Hstable : forall x y, ps !! x = Some y ->
                      exists y', ps' !! x = Some y' /\ pstate y' = pstate y
                                 /\ origin y' = origin y).
  { intros x y H. destruct (decide (x = q)) as [->|Hne].
    - exists pr'. rewrite Hq in H. injection H as <-. cbn. now rewrite Hst.
    - exists y. rewrite list_lookup_insert_ne by congruence.
      split; [now apply lookup_app_l_Some | now split]. }
  assert (Hat : forall x s0, pstate_at ps x = Some s0 -> pstate_at ps' x = Some s0).
  { intros x s0 H. unfold pstate_at in *. destruct (ps !! x) as [y|] eqn:E; [|discriminate].
    destruct (Hstable x y E) as (y' & -> & Hy' & _). cbn in *. congruence. }
  assert (Hinfl : inflight ps' lt = inflight ps lt).
  { apply count_ext. intros x Hx. unfold is_pending.
    pose proof (leg_target_lt x Hx) as Hxlt.
    destruct (lookup_lt_is_Some_2 ps x Hxlt) as [y Hy].
    rewrite (Hat x (pstate y)); unfold pstate_at; now rewrite Hy. }
  assert (Hholder : forall p prp r, ps !! p = Some prp -> r ∈ reactions prp ->
                      exists prp', ps' !! p = Some prp' /\ r ∈ reactions prp').
  { intros p prp r Hp Hr. destruct (decide (p = q)) as [->|Hne].
    - exists pr'. split; [assumption|]. cbn. apply elem_of_app. left.
      rewrite Hq in Hp. now injection Hp as <-.
    - exists prp. split; [|assumption]. rewrite list_lookup_insert_ne by congruence.
      now apply lookup_app_l_Some. }
  pose proof origin_np as Hon.
  split.
  - intros p prp r Hp Hr. apply Hinvl in Hp as [[-> ->]|[[-> ->]|[Hne Hp]]].
    + cbn in Hr. apply elem_of_app in Hr as [Hr|Hr].
      * destruct (ci_waiting _ _ _ _ Hinv q pr r Hq Hr) as (H1 & H2 & tr & H3 & H4 & H5).
        repeat split; try assumption.
        destruct (Hstable _ _ H3) as (tr' & G1 & G2 & G3).
        exists tr'. repeat split; congruence.
      * apply list_elem_of_singleton in Hr as ->.
        repeat split; try assumption. exists np. rewrite Hf. now repeat split.
    + inversion Hr.
    + destruct (ci_waiting _ _ _ _ Hinv p prp r Hp Hr) as (H1 & H2 & tr & H3 & H4 & H5).
      repeat split; try assumption.
      destruct (Hstable _ _ H3) as (tr' & G1 & G2 & G3).
      exists tr'. repeat split; congruence.
  - intros p prp Hp. apply Hinvl in Hp as [[-> ->]|[[-> ->]|[Hne Hp]]].
    + cbn. rewrite fmap_app. apply NoDup_app.
      split; [now apply (ci_waiting_nodup _ _ _ _ Hinv q)|].
      split; [|apply NoDup_singleton].
      intros x Hx Hx'. cbn in Hx'. apply list_elem_of_singleton in Hx'.
      rewrite Hf in Hx'. subst x.
      apply list_elem_of_fmap in Hx as (r & Heq & Hr).
      pose proof (waiting_target_lt q pr r Hq Hr). lia.
    + constructor.
    + now apply (ci_waiting_nodup _ _ _ _ Hinv p).
  - intros j Hj.
    destruct (ci_jobs _ _ _ _ Hinv j Hj) as (tr & p & H1 & H2 & H3 & H4).
    destruct (Hstable _ _ H1) as (tr' & G1 & G2 & G3).
    exists tr', p. repeat split; try congruence. now apply Hat.
  - apply (ci_jobs_nodup _ _ _ _ Hinv).
  - intros t' Ht'.
    destruct (ci_legs _ _ _ _ Hinv t' Ht') as (H1 & tr & p & H2 & H3 & H4).
    split; [assumption|].
    destruct (Hstable _ _ H2) as (tr' & G1 & G2 & G3).
    exists tr', p. repeat split; try congruence. now apply Hat.
  - intros t2 tr2 H2 Hp2.
    assert (Hcase : t2 = t \/ exists y, ps !! t2 = Some y /\ pstate y = Pending).
    { apply Hinvl in H2 as [[-> ->]|[[-> ->]|[Hne H2]]].
      - right. exists pr. now split.
      - now left.
      - right. exists tr2. now split. }
    destruct Hcase as [->|(y & Hy & Hyp)].
    + right. left. exists q, pr', (f t). rewrite Hf. repeat split; [assumption|].
      cbn. apply elem_of_app. right. apply list_elem_of_here.
    + destruct (ci_covered _ _ _ _ Hinv t2 y Hy Hyp)
        as [(j' & Hj' & Heq)|[(p & prp & r & Hp & Hr & Heq)|Hl]].
      * left. now exists j'.
      * right. left. destruct (Hholder p prp r Hp Hr) as (prp' & G1 & G2).
        now exists p, prp', r.
      * right. now right.
  - intros t2 tr2 p2 H2 Hpar2.
    apply Hinvl in H2 as [[-> ->]|[[-> ->]|[Hne H2]]].
    + assert (Hpp : parent pr = Some p2) by exact Hpar2.
      destruct (ci_order _ _ _ _ Hinv q pr p2 Hq Hpp) as (G1 & _ & _).
      split; [assumption|]. cbn. split; congruence.
    + rewrite parent_np in Hpar2. injection Hpar2 as <-.
      split; [assumption|]. cbn. split; congruence.
    + destruct (ci_order _ _ _ _ Hinv t2 tr2 p2 H2 Hpar2) as (G1 & G2 & G3).
      split; [assumption|]. split.
      * intros Hf'. apply Hat. auto.
      * intros Hf'. destruct (G3 Hf') as [G|[G G']]; [left | right; split]; auto.
  - destruct m eqn:Em.
    + exists np. split; [assumption|]. split; [|reflexivity].
      rewrite Hon. reflexivity.
    + exists pr'. split; [assumption|]. split; [assumption|].
      cbn. rewrite count_app. cbn. rewrite Hm, Hqc. reflexivity.
  - intros p prp Hp. apply Hinvl in Hp as [[-> ->]|[[-> ->]|[Hne Hp]]].
    + cbn. rewrite count_app. cbn. rewrite Hqc. destruct (is_move (f t)); lia.
    + cbn. lia.
    + now apply (ci_one_move _ _ _ _ Hinv p).
  - rewrite Hinfl. apply (ci_front _ _ _ _ Hinv).
  - intros Hn. exfalso. apply Hn. unfold pstate_at. destruct m.
    + now rewrite Hnew.
    + now rewrite Hqnew.
Qed.

End Then.

(** ** The scheduler and the handle list *)

Lemma elem_of_without (hs : list Handle) (l : list Scheduled) (sc : Scheduled) :
  sc ∈ without hs l <-> sc ∈ l /\ handle sc ∉ hs.
Proof.
  unfold without. rewrite !list_elem_of_In, filter_In, negb_true_iff.
  split; intros [H1 H2]; (split; [assumption|]).
  - intros Hin.
    assert (existsb (Nat.eqb (handle sc)) hs = true); [|congruence].
    apply existsb_exists. exists (handle sc). split; [assumption|].
    apply Nat.eqb_refl.
  - destruct (existsb (Nat.eqb (handle sc)) hs) eqn:E; [|reflexivity].
    apply existsb_exists in E as (h & Hin & Heq). apply Nat.eqb_eq in Heq.
    subst h. exfalso. now apply H2.
Qed.

Section Handles.

Variables (stopped : bool) (hs : list Handle) (sched : list Scheduled)
  (ps : list Promise) (lt : list PromiseId).
Hypothesis Hinv : handles_inv stopped hs sched ps lt.

Lemma handles_subset (sched' : list Scheduled) :
  (forall sc, sc ∈ sched' -> sc ∈ sched) ->
  handles_inv stopped hs sched' ps lt.
Proof.
  intros Hsub. destruct Hinv as [H1 H2 H3 H4]. split; auto.
Qed.

Lemma handles_run (h : Handle) (L : LegId) :
  handles_inv stopped hs
    (sched ++ [{| handle := h; callback := UpdateRotation L; period := None |}])
    ps lt.
Proof.
  destruct Hinv as [H1 H2 H3 H4]. split; auto.
  - intros sc Hsc Hp. apply elem_of_app in Hsc as [Hsc|Hsc]; [auto|].
    apply list_elem_of_singleton in Hsc as ->. cbn in Hp. congruence.
  - intros sc L' Hsc Hcb. apply elem_of_app in Hsc as [Hsc|Hsc]; [auto|].
    apply list_elem_of_singleton in Hsc as ->. cbn in Hcb. congruence.
Qed.

Lemma handles_pstate (ps' : list Promise) :
  (forall t, t ∈ lt -> pstate_at ps' t = pstate_at ps t) ->
  handles_inv stopped hs sched ps' lt.
Proof.
  intros Hsame. destruct Hinv as [H1 H2 H3 H4]. split; auto.
  - intros sc L Hsc Hcb. destruct (H3 sc L Hsc Hcb) as (G1 & t & G2 & G3).
    split; [assumption|]. exists t. split; [assumption|].
    rewrite Hsame; [assumption|]. eapply list_elem_of_lookup_2; eassumption.
  - intros Hne. specialize (H4 Hne). unfold inflight in *.
    erewrite count_ext; [eassumption|]. intros t Ht. unfold is_pending.
    now rewrite Hsame.
Qed.

Lemma handles_clear : handles_inv stopped [] (without hs sched) ps lt.
Proof.
  destruct Hinv as [H1 H2 H3 H4]. split.
  - intros sc Hsc Hp. apply elem_of_without in Hsc as [Hsc Hnot].
    exfalso. auto.
  - reflexivity.
  - intros sc L Hsc Hcb. apply elem_of_without in Hsc as [Hsc Hnot].
    destruct (H3 sc L Hsc Hcb) as (G1 & _). exfalso. auto.
  - congruence.
Qed.

End Handles.

Lemma handles_empty_any (stopped stopped' : bool) (sched : list Scheduled)
  (ps ps' : list Promise) (lt lt' : list PromiseId) :
  handles_inv stopped [] sched ps lt -> handles_inv stopped' [] sched ps' lt'.
Proof.
  intros [H1 H2 H3 H4]. split; auto; try congruence.
  intros sc L Hsc Hcb. destruct (H3 sc L Hsc Hcb) as (G1 & _).
  specialize (H1 sc Hsc G1). inversion H1.
Qed.

Lemma handles_add_leg (hs : list Handle) (sched : list Scheduled)
  (ps : list Promise) (lt : list PromiseId) (t : PromiseId) (h : Handle) (n : nat) :
  handles_inv false hs sched ps lt ->
  pstate_at ps t = Some Pending ->
  handles_inv false (hs ++ [h])
    (sched ++ [{| handle := h; callback := MoveEntity (length lt);
                  period := Some n |}])
    ps (lt ++ [t]).
Proof.
  intros [H1 H2 H3 H4] Hp. split.
  - intros sc Hsc Hper. apply elem_of_app.
    apply elem_of_app in Hsc as [Hsc|Hsc]; [left; auto|].
    apply list_elem_of_singleton in Hsc as ->. right. apply list_elem_of_here.
  - discriminate.
  - intros sc L Hsc Hcb. apply elem_of_app in Hsc as [Hsc|Hsc].
    + destruct (H3 sc L Hsc Hcb) as (G1 & t0 & G2 & G3).
      split; [assumption|]. exists t0. split; [|assumption].
      now apply lookup_app_l_Some.
    + apply list_elem_of_singleton in Hsc as ->. cbn in *.
      injection Hcb as <-. split; [discriminate|]. exists t.
      split; [|assumption]. now apply list_lookup_middle.
  - intros _. unfold inflight. rewrite count_app. cbn.
    apply (proj2 (is_pending_true ps t)) in Hp. rewrite Hp. lia.
Qed.

(** ** Counting [onComplete] calls and fulfilled [start] promises *)

Lemma count_insert {A} (f : A -> bool) (l : list A) (i : nat) (a b : A) :
  l !! i = Some a ->
  (count f (<[i := b]> l) + (if f a then 1 else 0)
   = count f l + (if f b then 1 else 0))%nat.
Proof.
  revert i. induction l as [|c l IH]; intros i Hi; [discriminate|].
  destruct i as [|i]; cbn in Hi.
  - injection Hi as ->. change (<[0%nat := b]> (a :: l)) with (b :: l). cbn.
    destruct (f a), (f b); lia.
  - specialize (IH i Hi). change (<[S i := b]> (c :: l)) with (c :: <[i := b]> l).
    cbn. destruct (f a), (f b), (f c); lia.
Qed.

Lemma fulfilled_starts_settle (ps : list Promise) (t : PromiseId)
  (tr : Promise) (st : PromiseState) :
  ps !! t = Some tr -> pstate tr = Pending ->
  fulfilled_starts (<[t := settled tr st]> ps)
  = (fulfilled_starts ps
     + if is_fulfilled_start (settled tr st) then 1 else 0)%nat.
Proof.
  intros Ht Hp. unfold fulfilled_starts.
  pose proof (count_insert is_fulfilled_start ps t tr (settled tr st) Ht) as H.
  assert (is_fulfilled_start tr = false) as Hf
    by (unfold is_fulfilled_start; rewrite Hp; apply andb_false_r).
  rewrite Hf in H. lia.
Qed.

Lemma fulfilled_starts_then (ps : list Promise) (q : PromiseId) (pr : Promise)
  (o : Origin) (l : list Reaction) :
  ps !! q = Some pr ->
  fulfilled_starts (ps ++ [new_promise o]) = fulfilled_starts ps
  /\ fulfilled_starts
       (<[q := {| pstate := pstate pr; reactions := l; origin := origin pr |}]>
          (ps ++ [new_promise o]))
     = fulfilled_starts ps.
Proof.
  intros Hq. unfold fulfilled_starts.
  assert (H0 : count is_fulfilled_start (ps ++ [new_promise o])
               = count is_fulfilled_start ps).
  { rewrite count_app. cbn. unfold is_fulfilled_start. cbn.
    rewrite andb_false_r. lia. }
  split; [assumption|].
  pose proof (count_insert is_fulfilled_start (ps ++ [new_promise o]) q pr
                {| pstate := pstate pr; reactions := l; origin := origin pr |}
                (lookup_app_l_Some _ _ _ _ Hq)) as H.
  assert (Hsame : is_fulfilled_start
                    {| pstate := pstate pr; reactions := l; origin := origin pr |}
                  = is_fulfilled_start pr) by reflexivity.
  rewrite Hsame in H. rewrite <- H0. destruct (is_fulfilled_start pr); lia.
Qed.

Lemma completes_snoc (tr : list Effect) (e : Effect) :
  completes (tr ++ [e]) = (completes tr + if is_complete e then 1 else 0)%nat.
Proof. unfold completes. rewrite count_app. cbn. lia. Qed.

(** ** The state invariant, step by step *)

Lemma settle_pending (t : PromiseId) (st : PromiseState) (s : State) (tr : Promise) :
  promises s !! t = Some tr -> pstate tr = Pending ->
  settle t st s
  = with_promises (<[t := settled tr st]> (promises s))
      (jobs s ++ (job_of st <$> reactions tr)) s.
Proof. intros Ht Hp. unfold settle. now rewrite Ht, Hp. Qed.

Lemma settle_not_pending (t : PromiseId) (st : PromiseState) (s : State) :
  pstate_at (promises s) t <> Some Pending -> settle t st s = s.
Proof. apply settle_settled. Qed.

Lemma resolve_alter (f : LegEnv -> LegEnv) (L : LegId) (l : list LegEnv) :
  (forall e, resolve (f e) = resolve e) ->
  resolve <$> alter f L l = resolve <$> l.
Proof.
  intros Hf. rewrite (list_fmap_alter resolve f (fun x => x))
    by (apply Forall_forall; intros; apply Hf).
  now apply list_alter_id.
Qed.

Lemma forallb_lifecycle_app (l k : list Effect) :
  forallb lifecycle (l ++ k) = forallb lifecycle l && forallb lifecycle k.
Proof. apply forallb_app. Qed.

Lemma quiet_extend (since : option (list Effect)) (stopped : bool)
  (tr es : list Effect) :
  quiet_inv since stopped tr ->
  stopped = false \/ forallb lifecycle es = true ->
  quiet_inv since stopped (tr ++ es).
Proof.
  intros Hq Hes t0 Ht0. destruct (Hq t0 Ht0) as (Hs & es0 & -> & Hl).
  split; [assumption|]. exists (es0 ++ es). split; [now rewrite app_assoc|].
  rewrite forallb_lifecycle_app, Hl. destruct Hes as [Hf|Hf]; [congruence|].
  now rewrite Hf.
Qed.

(** A step that adds effects other than [onComplete] calls, may register
    or drop one-shot rotation callbacks, and leaves the manager, the
    promises, the jobs and the legs' promises alone, and the movement
    component too unless no leg is unresolved. *)
Lemma inv_data (c : bool) (since : option (list Effect)) (r : option Job)
  (s s' : State) (es : list Effect) :
  state_inv c since r s ->
  manager s' = manager s -> promises s' = promises s -> jobs s' = jobs s ->
  resolve <$> legs s' = resolve <$> legs s ->
  movement (entity s') = movement (entity s)
  \/ inflight (promises s) (resolve <$> legs s) = 0%nat ->
  (forall sc, sc ∈ scheduled s' ->
              sc ∈ scheduled s
              \/ (period sc = None /\ exists L, callback sc = UpdateRotation L)) ->
  trace s' = trace s ++ es ->
  count is_complete es = 0%nat ->
  isStopped (manager s) = false \/ forallb lifecycle es = true ->
  state_inv c since r s'.
Proof.
  intros [H1 H2 H3 H4 H5] Hm Hp Hj Hl Hmv Hsc Ht Hes Hq.
  split; rewrite ?Hm, ?Hp, ?Hj, ?Hl, ?Ht; try assumption.
  - destruct H2 as [G1 G2 G3 G4]. split; auto.
    + intros sc Hin Hper. destruct (Hsc sc Hin) as [Hold|[Hnone _]]; [auto | congruence].
    + intros sc L Hin Hcb. destruct (Hsc sc Hin) as [Hold|[_ [L' HL']]]; [auto | congruence].
  - destruct Hmv as [Hmv|Hmv]; [now rewrite Hmv|]. intros Hin. lia.
  - intros Hc. destruct (H4 Hc) as [G1 G2]. split; [assumption|].
    unfold completes in *. rewrite count_app. lia.
  - now apply quiet_extend.
Qed.

Lemma inv_clear (c : bool) (since : option (list Effect)) (r : option Job)
  (s : State) :
  state_inv c since r s -> state_inv c since r (clearAllIntervals s).
Proof.
  intros [H1 H2 H3 H4 H5]. rewrite clearAllIntervals_eq.
  split; cbn; try assumption. now apply handles_clear.
Qed.

Lemma inv_pop (c : bool) (since : option (list Effect)) (s : State)
  (j : Job) (js : list Job) :
  state_inv c since None s -> jobs s = j :: js ->
  state_inv c since (Some j) (with_promises (promises s) js s).
Proof.
  intros [H1 H2 H3 H4 H5] Hj. split; cbn; try assumption.
  cbn in H1. now rewrite Hj in H1.
Qed.

(** A leg's callback resolves the leg's promise, the handles cleared. *)
Lemma inv_settle_leg (c : bool) (since : option (list Effect)) (s : State)
  (t : PromiseId) :
  state_inv c since None s ->
  intervalHandles (manager s) = [] ->
  t ∈ resolve <$> legs s ->
  state_inv c since None (settle t Fulfilled s).
Proof.
  intros Hinv Hh Ht.
  destruct (promises s !! t) as [tr|] eqn:Htr; [destruct (pstate tr) eqn:Hp|].
  2,3,4: rewrite settle_not_pending;
    [assumption | unfold pstate_at; rewrite Htr; cbn; congruence].
  destruct Hinv as [H1 H2 H3 H4 H5]. cbn in H1.
  rewrite (settle_pending t Fulfilled s tr Htr Hp).
  assert (Hlt : (t < length (promises s))%nat) by (eapply lookup_lt_Some; eassumption).
  split; cbn.
  - now apply chain_settle_leg.
  - rewrite Hh in *. eapply handles_empty_any; eassumption.
  - intros Hin. apply H3.
    pose proof (inflight_settle_le (promises s) (resolve <$> legs s) t
                  (settled tr Fulfilled) Hlt) as Hle.
    cbn in Hle. specialize (Hle ltac:(congruence)). lia.
  - intros Hc. destruct (H4 Hc) as [G1 G2]. split; [assumption|].
    rewrite fulfilled_starts_settle by assumption.
    destruct (ci_legs _ _ _ _ H1 t Ht) as (_ & tr0 & p0 & E1 & E2 & _).
    rewrite Htr in E1. injection E1 as <-.
    unfold is_fulfilled_start. cbn. rewrite E2. cbn. lia.
  - assumption.
Qed.

(** The invariant reads these parts of the state only. *)
Lemma inv_ext (c : bool) (since : option (list Effect)) (r : option Job)
  (s s' : State) :
  state_inv c since r s ->
  isStopped (manager s') = isStopped (manager s) ->
  intervalHandles (manager s') = intervalHandles (manager s) ->
  queue (manager s') = queue (manager s) ->
  callbacks (manager s') = callbacks (manager s) ->
  promises s' = promises s -> jobs s' = jobs s ->
  resolve <$> legs s' = resolve <$> legs s ->
  scheduled s' = scheduled s ->
  movement (entity s') = movement (entity s) ->
  trace s' = trace s ->
  state_inv c since r s'.
Proof.
  intros [H1 H2 H3 H4 H5] E1 E2 E3 E4 E5 E6 E7 E8 E9 E10.
  split; rewrite ?E1, ?E2, ?E3, ?E4, ?E5, ?E6, ?E7, ?E8, ?E9, ?E10; assumption.
Qed.

Lemma running_job_facts (c : bool) (since : option (list Effect)) (s : State)
  (j : Job) :
  state_inv c since (Some j) s ->
  exists tr p, promises s !! job_target j = Some tr /\ pstate tr = Pending
               /\ origin tr = origin_of (job_reaction j) p
               /\ pstate_at (promises s) p = Some (parent_state j)
               /\ forall t, t ∈ resolve <$> legs s -> t <> job_target j.
Proof.
  intros [H1 _ _ _ _]. cbn in H1.
  destruct (ci_jobs _ _ _ _ H1 j) as (tr & p & G1 & G2 & G3 & G4);
    [apply list_elem_of_here|].
  exists tr, p. repeat split; try assumption.
  intros t Ht Heq. destruct (ci_legs _ _ _ _ H1 t Ht) as (G & _).
  apply (G j); [apply list_elem_of_here | congruence].
Qed.

(** The running job settles its promise; not the job of a [start] promise
    fulfilling it, which is [inv_complete_step]. *)
Lemma inv_settle_job (c : bool) (since : option (list Effect)) (s : State)
  (j : Job) (st : PromiseState) :
  state_inv c since (Some j) s ->
  st <> Pending ->
  (st = Fulfilled -> parent_state j = Fulfilled) ->
  (st = Rejected -> parent_state j = Rejected \/ is_move (job_reaction j) = true) ->
  is_move (job_reaction j) = true \/ st = Rejected ->
  state_inv c since None (settle (job_target j) st s).
Proof.
  intros Hinv Hst Hful Hrej Hkind.
  destruct (running_job_facts _ _ _ _ Hinv) as (tr & p & Htr & Hp & Ho & Hpar & Hlegs).
  destruct Hinv as [H1 H2 H3 H4 H5]. cbn in H1.
  rewrite (settle_pending _ st s tr Htr Hp).
  assert (Hlt : (job_target j < length (promises s))%nat)
    by (eapply lookup_lt_Some; eassumption).
  assert (Hsame : forall t, t ∈ resolve <$> legs s ->
                    pstate_at (<[job_target j := settled tr st]> (promises s)) t
                    = pstate_at (promises s) t).
  { intros t Ht. rewrite pstate_at_insert by assumption.
    destruct (decide (job_target j = t)) as [<-|]; [|reflexivity].
    exfalso. now apply (Hlegs _ Ht). }
  split; cbn.
  - now apply chain_settle_job.
  - eapply handles_pstate; [exact H2 | exact Hsame].
  - intros Hin. apply H3.
    pose proof (inflight_settle_le (promises s) (resolve <$> legs s) (job_target j)
                  (settled tr st) Hlt Hst) as Hle. lia.
  - intros Hc. destruct (H4 Hc) as [G1 G2]. split; [assumption|].
    rewrite fulfilled_starts_settle by assumption.
    unfold is_fulfilled_start. cbn. rewrite Ho, is_start_origin_of.
    destruct Hkind as [-> | ->]; cbn; rewrite ?andb_false_r; lia.
  - assumption.
Qed.

Lemma inv_complete_step (c : bool) (since : option (list Effect)) (s : State)
  (t : PromiseId) :
  state_inv c since (Some (Run (CompleteStep t))) s ->
  state_inv c since None (completeStep t s).
Proof.
  intros Hinv.
  destruct (running_job_facts _ _ _ _ Hinv) as (tr & p & Htr & Hp & Ho & Hpar & Hlegs).
  destruct Hinv as [H1 H2 H3 H4 H5]. cbn in H1, Htr, Ho, Hlegs.
  assert (Hlt : (t < length (promises s))%nat)
    by (eapply lookup_lt_Some; eassumption).
  assert (Hsame : forall x, x ∈ resolve <$> legs s ->
                    pstate_at (<[t := settled tr Fulfilled]> (promises s)) x
                    = pstate_at (promises s) x).
  { intros x Hx. rewrite pstate_at_insert by assumption.
    destruct (decide (t = x)) as [<-|]; [|reflexivity].
    exfalso. now apply (Hlegs _ Hx). }
  assert (Hchain : chain_inv (<[t := settled tr Fulfilled]> (promises s))
                     (jobs s ++ (job_of Fulfilled <$> reactions tr))
                     (resolve <$> legs s) (queue (manager s))).
  { apply (chain_settle_job _ _ _ _ (Run (CompleteStep t)) tr Fulfilled);
      try assumption; try congruence; try reflexivity. }
  assert (Hfs : fulfilled_starts (<[t := settled tr Fulfilled]> (promises s))
                = S (fulfilled_starts (promises s))).
  { rewrite fulfilled_starts_settle by assumption.
    unfold is_fulfilled_start. cbn. rewrite Ho. cbn. lia. }
  unfold completeStep.
  destruct (onComplete (callbacks (manager s))) as [h|] eqn:Hh.
  - rewrite (settle_pending t Fulfilled _ tr) by assumption.
    split; cbn; try assumption.
    + eapply handles_pstate; [exact H2 | exact Hsame].
    + intros Hin. apply H3.
      pose proof (inflight_settle_le (promises s) (resolve <$> legs s) t
                    (settled tr Fulfilled) Hlt) as Hle.
      cbn in Hle. specialize (Hle ltac:(congruence)). lia.
    + intros Hc. destruct (H4 Hc) as [G1 G2]. split; [assumption|].
      rewrite completes_snoc, Hfs. cbn. lia.
    + apply quiet_extend; [assumption | now right].
  - rewrite (settle_pending t Fulfilled _ tr) by assumption.
    split; cbn; try assumption.
    + eapply handles_pstate; [exact H2 | exact Hsame].
    + intros Hin. apply H3.
      pose proof (inflight_settle_le (promises s) (resolve <$> legs s) t
                    (settled tr Fulfilled) Hlt) as Hle.
      cbn in Hle. specialize (Hle ltac:(congruence)). lia.
    + intros Hc. destruct (H4 Hc) as [G1 G2]. congruence.
Qed.

Lemma inv_add_leg (c : bool) (since : option (list Effect)) (s : State)
  (leg : Leg) (t : PromiseId) (d : Vector3.t) (speed distance : R)
  (options : MovementConfig) (mc : MovementComponent) :
  state_inv c since (Some (Run (MoveStep leg t))) s ->
  isStopped (manager s) = false ->
  movement (entity s) = Some mc ->
  state_inv c since None (leg_ready d speed distance options t s).
Proof.
  intros Hinv Hs Hmv.
  destruct (running_job_facts _ _ _ _ Hinv) as (tr & p & Htr & Hp & Ho & Hpar & Hlegs).
  destruct Hinv as [H1 H2 H3 H4 H5]. cbn in H1, Htr.
  unfold leg_ready. split; cbn.
  - rewrite fmap_app. cbn. now apply chain_add_leg with (leg := leg).
  - rewrite fmap_app. cbn. rewrite <- (length_fmap resolve (legs s)).
    rewrite Hs in *. apply handles_add_leg; [assumption|].
    unfold pstate_at. rewrite Htr. cbn. now rewrite Hp.
  - intros _. rewrite Hmv. cbn. eexists. split; reflexivity.
  - intros Hc. destruct (H4 Hc) as [G1 G2]. split; [assumption|].
    rewrite <- app_assoc. unfold completes in *. rewrite count_app. cbn. lia.
  - rewrite <- app_assoc. apply quiet_extend; [assumption | now left].
Qed.

(** [then] on the queue promise, for [move] ([m] true: the queue moves on
    to the new promise) and for [start]. *)
Lemma inv_then (c : bool) (since : option (list Effect)) (s : State)
  (f : PromiseId -> Reaction) (m : bool) :
  state_inv c since None s ->
  (forall t, target (f t) = t) -> (forall t, is_move (f t) = m) ->
  let r := then_ (queue (manager s)) f s in
  state_inv c since None
    (with_manager
       (set_queue (if m then fst r else queue (manager s)) (manager (snd r)))
       (snd r)).
Proof.
  intros [H1 H2 H3 H4 H5] Hf Hm. cbn in H1.
  destruct (ci_queue _ _ _ _ H1) as (pr & Hq & _).
  assert (Hlegs : forall t, t ∈ resolve <$> legs s ->
                            (t < length (promises s))%nat)
    by (intros t Ht; apply (leg_target_lt _ _ _ _ H1 t Ht)).
  assert (Hqlt : (queue (manager s) < length (promises s))%nat)
    by (eapply lookup_lt_Some; eassumption).
  unfold then_. rewrite Hq. cbv zeta.
  set (np := new_promise (origin_of (f (length (promises s))) (queue (manager s)))).
  destruct (pstate pr) eqn:Hp.
  - (* pending *)
    assert (Hsame : forall t, t ∈ resolve <$> legs s ->
              pstate_at
                (<[queue (manager s) :=
                     {| pstate := Pending;
                        reactions := reactions pr ++ [f (length (promises s))];
                        origin := origin pr |}]> (promises s ++ [np])) t
              = pstate_at (promises s) t).
    { intros t Ht. rewrite pstate_at_insert by (rewrite length_app; cbn; lia).
      destruct (decide (queue (manager s) = t)) as [<-|].
      - unfold pstate_at. rewrite Hq. cbn. now rewrite Hp.
      - apply pstate_at_app. auto. }
    split; cbn.
    + now apply (chain_then_pending _ _ _ _ f m pr).
    + eapply handles_pstate; [exact H2 | exact Hsame].
    + intros Hin. apply H3. unfold inflight in *.
      erewrite <- count_ext; [exact Hin|]. intros t Ht. unfold is_pending.
      now rewrite Hsame.
    + intros Hc. destruct (H4 Hc) as [G1 G2]. split; [assumption|].
      rewrite G2. symmetry. rewrite <- Hp.
      now apply (fulfilled_starts_then (promises s) (queue (manager s)) pr).
    + assumption.
  - (* fulfilled *)
    assert (Hsame : forall t, t ∈ resolve <$> legs s ->
              pstate_at (promises s ++ [np]) t = pstate_at (promises s) t)
      by (intros t Ht; apply pstate_at_app; auto).
    split; cbn.
    + pose proof (chain_then_settled _ _ _ _ f m pr H1 Hf Hm Hq) as G.
      rewrite Hp in G. apply G. congruence.
    + eapply handles_pstate; [exact H2 | exact Hsame].
    + intros Hin. apply H3. unfold inflight in *.
      erewrite <- count_ext; [exact Hin|]. intros t Ht. unfold is_pending.
      now rewrite Hsame.
    + intros Hc. destruct (H4 Hc) as [G1 G2]. split; [assumption|].
      rewrite G2. symmetry.
      now apply (fulfilled_starts_then (promises s) (queue (manager s)) pr _ []).
    + assumption.
  - (* rejected *)
    assert (Hsame : forall t, t ∈ resolve <$> legs s ->
              pstate_at (promises s ++ [np]) t = pstate_at (promises s) t)
      by (intros t Ht; apply pstate_at_app; auto).
    split; cbn.
    + pose proof (chain_then_settled _ _ _ _ f m pr H1 Hf Hm Hq) as G.
      rewrite Hp in G. apply G. congruence.
    + eapply handles_pstate; [exact H2 | exact Hsame].
    + intros Hin. apply H3. unfold inflight in *.
      erewrite <- count_ext; [exact Hin|]. intros t Ht. unfold is_pending.
      now rewrite Hsame.
    + intros Hc. destruct (H4 Hc) as [G1 G2]. split; [assumption|].
      rewrite G2. symmetry.
      now apply (fulfilled_starts_then (promises s) (queue (manager s)) pr _ []).
    + assumption.
Qed.

Lemma inv_move (c : bool) (since : option (list Effect)) (s : State)
  direction distance options :
  state_inv c since None s ->
  state_inv c since None (move direction distance options s).
Proof.
  intros Hinv. unfold move.
  apply (inv_then c since s
           (MoveStep {| leg_direction := direction; leg_distance := distance;
                        leg_config := spread (config (manager s)) options |})
           true Hinv); reflexivity.
Qed.

Lemma inv_start (c : bool) (since : option (list Effect)) (s : State) :
  state_inv c since None s -> state_inv c since None (snd (start s)).
Proof.
  intros Hinv. unfold start.
  eapply inv_ext;
    [exact (inv_then c since s CompleteStep false Hinv
              (fun t => eq_refl) (fun t => eq_refl)) | ..];
    try reflexivity.
  cbn. unfold then_.
  destruct (promises s !! queue (manager s)) as [pr|]; [destruct (pstate pr)|];
    reflexivity.
Qed.

Lemma inv_stop (c : bool) (since : option (list Effect)) (s : State) :
  state_inv c since None s -> state_inv c since None (snd (stop s)).
Proof.
  intros [H1 H2 H3 H4 H5].
  destruct (stop_fields s)
    as (E1 & E2 & E3 & E4 & _ & E6 & E7 & E8 & E9 & E10 & E11).
  split; rewrite ?E1, ?E2, ?E3, ?E4, ?E6, ?E7, ?E8, ?E9, ?E10, ?E11;
    try assumption.
  - apply (handles_empty_any (isStopped (manager s)) true _ (promises s) _
             (resolve <$> legs s)).
    now apply handles_clear.
  - intros Hc. destruct (H4 Hc) as [G1 G2]. split; [assumption|].
    unfold completes in *. rewrite count_app.
    unfold onStop_call. destruct (onStop (callbacks (manager s))); cbn; lia.
  - intros t0 Ht0. destruct (H5 t0 Ht0) as (_ & es & -> & Hes).
    split; [reflexivity|]. exists (es ++ onStop_call s).
    split; [now rewrite app_assoc|].
    rewrite forallb_lifecycle_app, Hes. unfold onStop_call.
    now destruct (onStop (callbacks (manager s))).
Qed.

Lemma inv_on (c : bool) (since : option (list Effect)) (s : State)
  (event : string) (callback : option HandlerId) :
  state_inv c since None s ->
  (c = true -> keeps_onComplete (CallOn event callback) = true) ->
  state_inv c since None (on event callback s).
Proof.
  intros [H1 H2 H3 H4 H5] Hk. unfold on.
  destruct (String.eqb event "onStart"); [split; cbn; assumption|].
  destruct (String.eqb event "onStop"); [split; cbn; assumption|].
  destruct (String.eqb event "onComplete") eqn:Hev; [|split; assumption].
  split; cbn; try assumption.
  intros Hc. destruct (H4 Hc) as [G1 G2]. split; [|assumption].
  specialize (Hk Hc). cbn in Hk. destruct callback; [discriminate|].
  rewrite Hev in Hk. discriminate.
Qed.

Lemma inv_world (c : bool) (since : option (list Effect)) (s : State)
  (w : WorldUpdate) :
  state_inv c since None s -> state_inv c since None (world w s).
Proof. intros [H1 H2 H3 H4 H5]. split; assumption. Qed.

(** ** The state invariant, function by function *)

Lemma leg_target_elem (s : State) (L : LegId) (e : LegEnv) :
  legs s !! L = Some e -> resolve e ∈ resolve <$> legs s.
Proof.
  intros H. apply list_elem_of_fmap_2. eapply list_elem_of_lookup_2; eassumption.
Qed.

Lemma not_aborted (s : State) :
  aborted s = false -> isStopped (manager s) = false /\ isValid (entity s) = true.
Proof.
  unfold aborted. destruct (isStopped (manager s)), (isValid (entity s));
    cbn; intros; split; congruence.
Qed.

Lemma inv_abort_leg (c : bool) (since : option (list Effect)) (s : State)
  (L : LegId) (e : LegEnv) :
  state_inv c since None s -> legs s !! L = Some e ->
  state_inv c since None (settle (resolve e) Fulfilled (clearAllIntervals s)).
Proof.
  intros Hinv Hleg. apply inv_settle_leg.
  - now apply inv_clear.
  - now rewrite clearAllIntervals_eq.
  - rewrite clearAllIntervals_eq. cbn. now apply (leg_target_elem s L).
Qed.

Lemma updateRotation_inv (c : bool) (since : option (list Effect)) (s : State)
  (L : LegId) :
  state_inv c since None s -> state_inv c since None (updateRotation L s).
Proof.
  intros Hinv. destruct (legs s !! L) as [e|] eqn:Hleg.
  2:{ unfold updateRotation. now rewrite Hleg. }
  destruct (aborted s) eqn:Ha.
  { rewrite (updateRotation_abort L s e Hleg Ha). now apply (inv_abort_leg _ _ _ L). }
  destruct (Rlt_dec (distanceTraveled e) (env_distance e)) as [Hd|Hd].
  - rewrite (updateRotation_continue L s e Hleg Ha Hd).
    eapply (inv_data c since None s);
      [ exact Hinv | reflexivity | reflexivity | reflexivity | reflexivity
      | left; reflexivity | | cbn; rewrite <- app_assoc; reflexivity
      | reflexivity | left; now apply not_aborted ].
    cbn. intros sc Hsc. apply elem_of_app in Hsc as [Hsc|Hsc]; [now left|].
    apply list_elem_of_singleton in Hsc as ->. right. cbn. eauto.
  - apply Rnot_lt_le in Hd. now rewrite (updateRotation_done L s e Hleg Ha Hd).
Qed.

Ltac data_path Hinv Ha :=
  eapply (inv_data _ _ None _);
  [ exact Hinv | reflexivity | reflexivity | reflexivity
  | cbn; rewrite ?resolve_alter by reflexivity; reflexivity
  | left; reflexivity
  | let x := fresh in let Hx := fresh in intros x Hx; left; exact Hx
  | cbn; first [reflexivity | symmetry; apply app_nil_r]
  | reflexivity
  | left; now apply not_aborted ].

Lemma moveEntity_inv (c : bool) (since : option (list Effect)) (s : State)
  (L : LegId) (sc : Scheduled) :
  state_inv c since None s ->
  sc ∈ scheduled s -> callback sc = MoveEntity L ->
  state_inv c since None (moveEntity L s).
Proof.
  intros Hinv Hsc Hcb. destruct (legs s !! L) as [e|] eqn:Hleg.
  2:{ unfold moveEntity. now rewrite Hleg. }
  destruct (aborted s) eqn:Ha.
  { rewrite (moveEntity_abort s L e Hleg Ha). now apply (inv_abort_leg _ _ _ L). }
  destruct (truthy (env_canJump e)
            && aboveIsAir
                 (getBlockFromRay (entity s) (location (entity s)) (env_direction e))
            && isOnGround (entity s) && negb (climbing e)) eqn:Hcs.
  { rewrite (moveEntity_climb_start s L e Hleg Ha Hcs). data_path Hinv Ha. }
  destruct (Bool.bool_dec (climbing e) true) as [Hcl|Hcl];
    [|apply not_true_is_false in Hcl];
    (destruct (Bool.bool_dec (isOnGround (entity s)) true) as [Hg|Hg];
     [|apply not_true_is_false in Hg]).
  - rewrite (moveEntity_climb_end s L e Hleg Ha Hcs Hcl Hg). data_path Hinv Ha.
  - rewrite (moveEntity_climbing_airborne s L e Hleg Ha Hcs Hcl Hg).
    data_path Hinv Ha.
  - set (cp := Vector3.center (location (entity s))).
    set (d := distanceTraveled e
              + Vector3.length (Vector3.subtract cp (startPosition e))).
    destruct (Rlt_dec d (env_distance e)) as [Hd|Hd].
    { rewrite (moveEntity_advance s L e Hleg Ha Hcs Hcl Hg Hd). data_path Hinv Ha. }
    apply Rnot_lt_le in Hd.
    rewrite (moveEntity_complete s L e Hleg Ha Hcs Hcl Hg Hd). fold cp d.
    (* the leg of a scheduled movement loop is unresolved *)
    assert (Hpend : pstate_at (promises s) (resolve e) = Some Pending).
    { destruct (hi_move_loop _ _ _ _ _ (inv_handles _ _ _ _ Hinv) sc L Hsc Hcb)
        as (_ & t & Ht & Hp).
      rewrite list_lookup_fmap, Hleg in Ht. cbn in Ht. congruence. }
    assert (Hin : resolve e ∈ resolve <$> legs s) by now apply (leg_target_elem s L).
    set (s2 := clearAllIntervals s).
    assert (Hinv2 : state_inv c since None (settle (resolve e) Fulfilled s2))
      by now apply (inv_abort_leg _ _ _ L).
    assert (Hzero : inflight (promises (settle (resolve e) Fulfilled s2))
                      (resolve <$> legs (settle (resolve e) Fulfilled s2)) = 0%nat).
    { unfold pstate_at in Hpend.
      destruct (promises s !! resolve e) as [tr|] eqn:Htr; [|discriminate].
      cbn in Hpend. injection Hpend as Hpend.
      subst s2. rewrite (settle_pending _ _ _ tr); rewrite ?clearAllIntervals_eq;
        cbn; try assumption.
      apply inflight_settle_zero; try assumption.
      - eapply lookup_lt_Some; eassumption.
      - cbn. congruence.
      - unfold pstate_at. rewrite Htr. cbn. now rewrite Hpend.
      - pose proof (ci_front _ _ _ _ (inv_chain _ _ _ _ Hinv)). lia. }
    eapply (inv_data c since None _ _ [_; _]);
      [ exact Hinv2 | .. ].
    + cbn. rewrite !settle_manager. subst s2. now rewrite !clearAllIntervals_eq.
    + cbn. apply settle_congr; subst s2; now rewrite !clearAllIntervals_eq.
    + cbn. apply settle_congr; subst s2; now rewrite !clearAllIntervals_eq.
    + cbn. rewrite !settle_legs. subst s2. rewrite !clearAllIntervals_eq. cbn.
      now rewrite !resolve_alter by reflexivity.
    + right. exact Hzero.
    + cbn. rewrite !settle_scheduled. subst s2. rewrite !clearAllIntervals_eq. cbn.
      intros x Hx. now left.
    + cbn. rewrite !settle_trace. subst s2. rewrite !clearAllIntervals_eq. cbn.
      now rewrite <- app_assoc.
    + reflexivity.
    + left. rewrite settle_manager. subst s2. rewrite clearAllIntervals_eq. cbn.
      now apply not_aborted.
  - rewrite (moveEntity_idle s L e Hleg Ha Hcs Hcl Hg). data_path Hinv Ha.
Qed.

Lemma clearRun_inv (c : bool) (since : option (list Effect)) (s : State)
  (h : Handle) :
  state_inv c since None s -> state_inv c since None (clearRun h s).
Proof.
  intros Hinv.
  eapply (inv_data c since None s _ []);
    [ exact Hinv | reflexivity | reflexivity | reflexivity | reflexivity
    | left; reflexivity | | symmetry; apply app_nil_r | reflexivity
    | right; reflexivity ].
  cbn. intros sc Hsc. left. apply list_elem_of_In in Hsc.
  apply filter_In in Hsc as [Hsc _]. now apply list_elem_of_In.
Qed.

Lemma fire_inv (c : bool) (since : option (list Effect)) (s : State)
  (h : Handle) :
  state_inv c since None s -> state_inv c since None (fire h s).
Proof.
  intros Hinv. unfold fire.
  destruct (find (fun sc => Nat.eqb (handle sc) h) (scheduled s)) as [sc|] eqn:Hf;
    [|assumption].
  apply find_some in Hf as [Hin _]. apply list_elem_of_In in Hin.
  destruct (callback sc) as [L|L] eqn:Hcb; cbn.
  - destruct (hi_move_loop _ _ _ _ _ (inv_handles _ _ _ _ Hinv) sc L Hin Hcb)
      as (Hper & _).
    destruct (period sc); [|congruence].
    now apply (moveEntity_inv c since s L sc).
  - apply updateRotation_inv. destruct (period sc); [assumption|].
    now apply clearRun_inv.
Qed.

Lemma executeMove_inv (c : bool) (since : option (list Effect)) (s : State)
  (leg : Leg) (t : PromiseId) direction distance options :
  state_inv c since (Some (Run (MoveStep leg t))) s ->
  isStopped (manager s) = false ->
  state_inv c since None (executeMove direction distance options t s).
Proof.
  intros Hinv Hs.
  destruct (isValid (entity s)) eqn:Hv.
  2:{ rewrite executeMove_invalid by assumption.
      apply (inv_settle_job c since _ (Run (MoveStep leg t)) Fulfilled);
        [now apply inv_clear | congruence | reflexivity | congruence | now left]. }
  destruct (movement (entity s)) as [mc|] eqn:Hm.
  2:{ rewrite executeMove_no_component by assumption.
      apply (inv_settle_job c since _ (Run (MoveStep leg t)) Rejected);
        [assumption | congruence | congruence | now right | now right]. }
  destruct (directions direction) as [d|] eqn:Hd.
  2:{ rewrite (executeMove_no_direction _ _ _ _ _ mc) by assumption.
      apply (inv_settle_job c since _ (Run (MoveStep leg t)) Rejected);
        [assumption | congruence | congruence | now right | now right]. }
  rewrite (executeMove_ready _ _ _ _ _ mc d) by assumption.
  apply updateRotation_inv. now apply (inv_add_leg c since s leg t _ _ _ _ mc).
Qed.

Lemma moveStep_inv (c : bool) (since : option (list Effect)) (s : State)
  (leg : Leg) (t : PromiseId) :
  state_inv c since (Some (Run (MoveStep leg t))) s ->
  state_inv c since None (moveStep leg t s).
Proof.
  intros Hinv. unfold moveStep. destruct (aborted s) eqn:Ha.
  { apply (inv_settle_job c since _ (Run (MoveStep leg t)) Fulfilled);
      [now apply inv_clear | congruence | reflexivity | congruence | now left]. }
  destruct (not_aborted s Ha) as [Hs Hv].
  apply (executeMove_inv c since _ leg t).
  - destruct (onStart (callbacks (manager s))) as [h|]; [|assumption].
    eapply (inv_data c since _ s _ [_]);
      [ exact Hinv | reflexivity | reflexivity | reflexivity | reflexivity
      | left; reflexivity | intros sc Hsc; now left | reflexivity | reflexivity
      | now left ].
  - now destruct (onStart (callbacks (manager s))).
Qed.

Lemma runJob_inv (c : bool) (since : option (list Effect)) (s : State) (j : Job) :
  state_inv c since (Some j) s -> state_inv c since None (runJob j s).
Proof.
  intros Hinv. destruct j as [[leg t|t]|r]; cbn.
  - now apply moveStep_inv.
  - now apply inv_complete_step.
  - apply (inv_settle_job c since s (Skip r) Rejected);
      [assumption | congruence | congruence | now left | now right].
Qed.

Lemma drain_fuel_inv (c : bool) (since : option (list Effect)) (fuel : nat)
  (s : State) :
  state_inv c since None s -> state_inv c since None (drain_fuel fuel s).
Proof.
  revert s. induction fuel as [|fuel IH]; intros s Hinv; [assumption|].
  cbn. destruct (jobs s) as [|j js] eqn:Hj; [assumption|].
  apply IH, runJob_inv. now apply inv_pop.
Qed.

Lemma call_inv (c : bool) (since : option (list Effect)) (s : State) (cl : Call) :
  state_inv c since None s ->
  (c = true -> keeps_onComplete cl = true) ->
  state_inv c since None (call cl s).
Proof.
  intros Hinv Hk. destruct cl; cbn.
  - now apply inv_on.
  - now apply inv_move.
  - now apply inv_start.
  - now apply inv_stop.
Qed.

Lemma calls_inv (c : bool) (since : option (list Effect)) (calls : list Call)
  (s : State) :
  state_inv c since None s ->
  (c = true -> forallb keeps_onComplete calls = true) ->
  state_inv c since None (fold_left (fun st cl => call cl st) calls s).
Proof.
  revert s. induction calls as [|cl calls IH]; intros s Hinv Hk; [assumption|].
  cbn. apply IH.
  - apply call_inv; [assumption|]. intros Hc. specialize (Hk Hc). cbn in Hk.
    now apply andb_true_iff in Hk.
  - intros Hc. specialize (Hk Hc). cbn in Hk. now apply andb_true_iff in Hk.
Qed.

Lemma step_inv (c : bool) (since : option (list Effect)) (s : State) (i : Input) :
  state_inv c since None s -> input_ok c i -> state_inv c since None (step s i).
Proof.
  intros Hinv Hok. unfold step, drain. apply drain_fuel_inv.
  destruct i as [calls|h|w]; cbn.
  - now apply calls_inv.
  - now apply fire_inv.
  - now apply inv_world.
Qed.

Lemma run_inv (c : bool) (since : option (list Effect)) (inputs : list Input)
  (s : State) :
  state_inv c since None s -> Forall (input_ok c) inputs ->
  state_inv c since None (run s inputs).
Proof.
  revert s. induction inputs as [|i inputs IH]; intros s Hinv Hok; [assumption|].
  cbn. apply Forall_cons in Hok as [Hi Hok]. apply IH; [|assumption].
  now apply step_inv.
Qed.

(** The state a new manager starts in satisfies the invariant. *)
Lemma construct_inv (e : Entity) (cfg : MovementConfig) :
  state_inv false None None (construct e cfg).
Proof.
  split; cbn.
  - split; cbn.
    + intros p pr r Hp Hr. destruct p; cbn in Hp; [|discriminate].
      injection Hp as <-. inversion Hr.
    + intros p pr Hp. destruct p; cbn in Hp; [|discriminate].
      injection Hp as <-. constructor.
    + intros j Hj. inversion Hj.
    + constructor.
    + intros t Ht. inversion Ht.
    + intros t tr Ht Hp. destruct t; cbn in Ht; [|discriminate].
      injection Ht as <-. discriminate.
    + intros t tr p Ht Hp. destruct t; cbn in Ht; [|discriminate].
      injection Ht as <-. discriminate.
    + eexists. repeat split.
    + intros p pr Hp. destruct p; cbn in Hp; [|discriminate].
      injection Hp as <-. cbn. lia.
    + cbn. lia.
    + reflexivity.
  - split; cbn; try congruence.
    + intros sc Hsc. inversion Hsc.
    + intros sc L Hsc. inversion Hsc.
  - intros Hin. cbn in Hin. lia.
  - discriminate.
  - discriminate.
Qed.

(** ** The job queue empties *)

Lemma settles_like_refl (s s' : State) :
  promises s' = promises s -> jobs s' = jobs s -> settles_like s s'.
Proof. intros; left; now split. Qed.

Lemma settles_like_settle (s s1 : State) (t : PromiseId) (st : PromiseState) :
  promises s1 = promises s -> jobs s1 = jobs s ->
  settles_like s (settle t st s1).
Proof.
  intros Hp Hj. right. exists t, st. now apply settle_congr.
Qed.

Lemma settles_like_frame (s s1 s' : State) :
  settles_like s1 s' -> promises s1 = promises s -> jobs s1 = jobs s ->
  settles_like s s'.
Proof.
  intros [[H1 H2]|(t & st & H1 & H2)] Hp Hj.
  - left. split; congruence.
  - right. exists t, st. rewrite H1, H2. now apply settle_congr.
Qed.

Lemma updateRotation_settles (L : LegId) (s : State) :
  settles_like s (updateRotation L s).
Proof.
  unfold updateRotation. destruct (legs s !! L) as [e|]; [|now left].
  destruct (aborted s).
  - apply settles_like_settle; now rewrite clearAllIntervals_eq.
  - destruct (Rltb _ _); now left.
Qed.

Lemma moveEntity_settles (L : LegId) (s : State) :
  settles_like s (moveEntity L s).
Proof.
  unfold moveEntity. destruct (legs s !! L) as [e|]; [|now left].
  destruct (aborted s).
  { apply settles_like_settle; now rewrite clearAllIntervals_eq. }
  cbv zeta.
  repeat match goal with
         | |- context [if ?b then _ else _] => destruct b
         end;
    try (now left).
  eapply settles_like_frame;
    [eapply settles_like_settle; reflexivity | |];
    now rewrite ?clearAllIntervals_eq.
Qed.

Lemma executeMove_settles direction distance options t (s : State) :
  settles_like s (executeMove direction distance options t s).
Proof.
  unfold executeMove. destruct (negb (isValid (entity s))).
  { apply settles_like_settle; now rewrite clearAllIntervals_eq. }
  destruct (movement (entity s)); [|now apply settles_like_settle].
  destruct (directions direction); [|now apply settles_like_settle].
  eapply settles_like_frame; [apply updateRotation_settles | reflexivity..].
Qed.

Lemma runJob_settles (j : Job) (s : State) : settles_like s (runJob j s).
Proof.
  destruct j as [[leg t|t]|r]; cbn.
  - unfold moveStep. destruct (aborted s).
    + apply settles_like_settle; now rewrite clearAllIntervals_eq.
    + eapply settles_like_frame; [apply executeMove_settles | |];
        now destruct (onStart (callbacks (manager s))).
  - unfold completeStep. apply settles_like_settle;
      now destruct (onComplete (callbacks (manager s))).
  - now apply settles_like_settle.
Qed.

Lemma sum_insert {A} (f : A -> nat) (l : list A) (i : nat) (a b : A) :
  l !! i = Some a ->
  (list_sum (map f (<[i := b]> l)) + f a = list_sum (map f l) + f b)%nat.
Proof.
  revert i. induction l as [|c l IH]; intros i Hi; [discriminate|].
  destruct i as [|i]; cbn in Hi.
  - injection Hi as ->. change (<[0%nat := b]> (a :: l)) with (b :: l).
    unfold list_sum. cbn [map fold_right]. lia.
  - specialize (IH i Hi). change (<[S i := b]> (c :: l)) with (c :: <[i := b]> l).
    unfold list_sum in *. cbn [map fold_right]. lia.
Qed.

Lemma pending_work_settle (t : PromiseId) (st : PromiseState) (s : State) :
  pending_work (settle t st s) = pending_work s.
Proof.
  unfold settle. destruct (promises s !! t) as [tr|] eqn:Ht; [|reflexivity].
  destruct (pstate tr); try reflexivity.
  pose proof (sum_insert (fun p => length (reactions p)) (promises s) t tr
                {| pstate := st; reactions := []; origin := origin tr |} Ht) as H.
  unfold pending_work. cbn [promises jobs with_promises].
  rewrite length_app, length_fmap. cbn [reactions] in H. cbn [length] in H. lia.
Qed.

Lemma pending_work_settles (s s' : State) :
  settles_like s s' -> pending_work s' = pending_work s.
Proof.
  intros [[H1 H2]|(t & st & H1 & H2)].
  - unfold pending_work. now rewrite H1, H2.
  - rewrite <- (pending_work_settle t st s). unfold pending_work.
    now rewrite H1, H2.
Qed.

Lemma drain_fuel_empties (fuel : nat) (s : State) :
  (pending_work s <= fuel)%nat -> jobs (drain_fuel fuel s) = [].
Proof.
  revert s. induction fuel as [|fuel IH]; intros s Hle.
  - cbn. unfold pending_work in Hle. destruct (jobs s); [reflexivity|].
    cbn in Hle. lia.
  - cbn. destruct (jobs s) as [|j js] eqn:Hj; [assumption|].
    apply IH. rewrite (pending_work_settles _ _ (runJob_settles j _)).
    unfold pending_work in *. rewrite Hj in Hle.
    cbn [jobs promises with_promises length] in *. lia.
Qed.

(** After a task no promise job is left. *)
Lemma drain_empties (s : State) : jobs (drain s) = [].
Proof. unfold drain. now apply drain_fuel_empties. Qed.

Lemma step_quiescent (s : State) (i : Input) : jobs (step s i) = [].
Proof. apply drain_empties. Qed.

(** ** Switching the optional parts of the invariant on *)

Lemma inv_quiet_start (c : bool) (r : option Job) (s : State) :
  state_inv c None r s -> isStopped (manager s) = true ->
  state_inv c (Some (trace s)) r s.
Proof.
  intros [H1 H2 H3 H4 H5] Hs. split; try assumption.
  intros t0 [= <-]. split; [assumption|]. exists []. now rewrite app_nil_r.
Qed.

Lemma inv_counting_start (since : option (list Effect)) (r : option Job)
  (s : State) :
  state_inv false since r s ->
  onComplete (callbacks (manager s)) <> None ->
  completes (trace s) = fulfilled_starts (promises s) ->
  state_inv true since r s.
Proof.
  intros [H1 H2 H3 H4 H5] Hh Hc. split; try assumption. intros _. now split.
Qed.

Lemma inv_counting_stop (c : bool) (since : option (list Effect))
  (r : option Job) (s : State) :
  state_inv c since r s -> state_inv false since r s.
Proof. intros [H1 H2 H3 H4 H5]. split; try assumption. discriminate. Qed.

Lemma Forall_input_ok_false (inputs : list Input) :
  Forall (input_ok false) inputs.
Proof. apply Forall_forall. intros i _ Hc. discriminate. Qed.

(** Every state a run from a new manager reaches satisfies the
    invariant. *)
Lemma reachable_inv (e : Entity) (cfg : MovementConfig) (inputs : list Input) :
  state_inv false None None (run (construct e cfg) inputs).
Proof.
  apply run_inv; [apply construct_inv | apply Forall_input_ok_false].
Qed.

(** ** When no leg is unresolved, nothing is pending *)

Lemma all_settled (c : bool) (since : option (list Effect)) (s : State) :
  state_inv c since None s -> jobs s = [] ->
  inflight (promises s) (resolve <$> legs s) = 0%nat ->
  forall p pr, promises s !! p = Some pr -> pstate pr <> Pending.
Proof.
  intros [H1 _ _ _ _] Hj Hz. cbn in H1. rewrite Hj in H1.
  intros p. induction p as [p IH] using lt_wf_ind. intros pr Hp Hpend.
  destruct (ci_covered _ _ _ _ H1 p pr Hp Hpend)
    as [(j & Hin & _)|[(q & qr & r & Hq & Hr & Heq)|Hl]].
  - inversion Hin.
  - destruct (ci_waiting _ _ _ _ H1 q qr r Hq Hr) as (Hqp & _ & tr & Ht & _ & Ho).
    rewrite Heq, Hp in Ht. injection Ht as <-.
    apply parent_origin_of in Ho.
    destruct (ci_order _ _ _ _ H1 p pr q Hp Ho) as (Hlt & _).
    now apply (IH q Hlt qr).
  - unfold inflight in Hz. rewrite count_zero in Hz. specialize (Hz p Hl).
    unfold is_pending, pstate_at in Hz. rewrite Hp in Hz. cbn in Hz.
    rewrite Hpend in Hz. discriminate.
Qed.

(** ** Stopped or invalid: the queued step and the loops give up *)

Lemma aborted_iff (s : State) :
  aborted s = true <-> isStopped (manager s) = true \/ isValid (entity s) = false.
Proof.
  unfold aborted. destruct (isStopped (manager s)), (isValid (entity s)); cbn;
    intuition congruence.
Qed.

Lemma abort_state (t : PromiseId) (s : State) :
  let s' := settle t Fulfilled (clearAllIntervals s) in
  intervalHandles (manager s') = []
  /\ isStopped (manager s') = isStopped (manager s)
  /\ scheduled s' = without (intervalHandles (manager s)) (scheduled s)
  /\ trace s' = trace s
  /\ legs s' = legs s
  /\ entity s' = entity s
  /\ (state_of s t = Some Pending -> state_of s' t = Some Fulfilled).
Proof.
  cbv zeta. rewrite settle_manager, settle_scheduled, settle_trace, settle_legs,
    settle_entity, !clearAllIntervals_eq. cbn. repeat split.
  intros Hp. now apply state_of_settle_eq.
Qed.

Lemma moveStep_abort (leg : Leg) (t : PromiseId) (s : State) :
  aborted s = true ->
  moveStep leg t s = settle t Fulfilled (clearAllIntervals s).
Proof. intros Ha. unfold moveStep. now rewrite Ha. Qed.

Lemma quiet_after_stop (e : Entity) (cfg : MovementConfig)
  (ins1 : list Input) (calls1 calls2 : list Call) (ins2 : list Input) :
  let s := snd (stop (fold_left (fun st c => call c st) calls1
                        (run (construct e cfg) ins1))) in
  let s' := run s (Script calls2 :: ins2) in
  isStopped (manager s) = true
  /\ isStopped (manager s') = true
  /\ exists es, trace s' = trace s ++ es /\ forallb lifecycle es = true.
Proof.
  intros s s'.
  assert (Hs : isStopped (manager s) = true) by apply stop_fields.
  assert (Hinv : state_inv false (Some (trace s)) None s).
  { apply inv_quiet_start; [|assumption]. subst s. apply inv_stop.
    apply calls_inv; [apply reachable_inv | discriminate]. }
  assert (Hinv' : state_inv false (Some (trace s)) None s')
    by (apply run_inv; [assumption | apply Forall_input_ok_false]).
  destruct (inv_quiet _ _ _ _ Hinv' (trace s) eq_refl) as (H1 & H2).
  now repeat split.
Qed.

(** C3: a queued step whose turn comes while the manager is stopped or the
    agent is invalid clears the tracked handles and fulfils its promise at
    once, with no effect at all (no [onStart], no impulse, no leg set up);
    and from a [stop] on, whatever is still queued or called, the only
    effects are calls of [onStop] and [onComplete]. *)
Theorem stopped_step_is_noop :
  (forall (s : State) (leg : Leg) (t : PromiseId),
      isStopped (manager s) = true \/ isValid (entity s) = false ->
      let s' := moveStep leg t s in
      intervalHandles (manager s') = []
      /\ scheduled s' = without (intervalHandles (manager s)) (scheduled s)
      /\ trace s' = trace s
      /\ legs s' = legs s
      /\ entity s' = entity s
      /\ (state_of s t = Some Pending -> state_of s' t = Some Fulfilled))
  /\ (forall (e : Entity) (cfg : MovementConfig) (ins1 : list Input)
        (calls1 calls2 : list Call) (ins2 : list Input),
        let s := snd (stop (fold_left (fun st c => call c st) calls1
                              (run (construct e cfg) ins1))) in
        exists es, trace (run s (Script calls2 :: ins2)) = trace s ++ es
                   /\ forallb lifecycle es = true).
Proof.
  split.
  - intros s leg t Ha. apply aborted_iff in Ha. cbv zeta.
    rewrite (moveStep_abort leg t s Ha).
    destruct (abort_state t s) as (H1 & _ & H3 & H4 & H5 & H6 & H7). tauto.
  - intros e cfg ins1 calls1 calls2 ins2.
    apply (quiet_after_stop e cfg ins1 calls1 calls2 ins2).
Qed.

Lemma stopped_step_is_noop_witness :
  let s := world Scenario.removed Scenario.oneLeg in
  let leg := {| leg_direction := "east"; leg_distance := 5;
                leg_config := Scenario.noOptions |} in
  trace (moveStep leg 2 s) = trace s /\ legs (moveStep leg 2 s) = legs s.
Proof.
  intros s leg.
  destruct (proj1 stopped_step_is_noop s leg 2%nat) as (_ & _ & H3 & H4 & _).
  - right. reflexivity.
  - split; assumption.
Defined.



(** ** Exits of a leg clear the handles *)

Lemma updateRotation_exit (L : LegId) (s : State) :
  promises (updateRotation L s) = promises s
  \/ intervalHandles (manager (updateRotation L s)) = [].
Proof.
  unfold updateRotation. destruct (legs s !! L) as [e|]; [|now left].
  destruct (aborted s).
  - right. now rewrite settle_manager, clearAllIntervals_eq.
  - destruct (Rltb _ _); now left.
Qed.

Lemma moveEntity_exit (L : LegId) (s : State) :
  promises (moveEntity L s) = promises s
  \/ intervalHandles (manager (moveEntity L s)) = [].
Proof.
  unfold moveEntity. destruct (legs s !! L) as [e|]; [|now left].
  destruct (aborted s).
  { right. now rewrite settle_manager, clearAllIntervals_eq. }
  cbv zeta.
  repeat match goal with
         | |- context [if ?b then _ else _] => destruct b
         end;
    try (now left).
  right. cbn. now rewrite settle_manager, clearAllIntervals_eq.
Qed.

Lemma executeMove_exit direction distance options t (s : State) :
  promises (executeMove direction distance options t s) = promises s
  \/ intervalHandles (manager (executeMove direction distance options t s)) = []
  \/ executeMove direction distance options t s = settle t Rejected s.
Proof.
  unfold executeMove. destruct (negb (isValid (entity s))).
  { right. left. now rewrite settle_manager, clearAllIntervals_eq. }
  destruct (movement (entity s)); [|now right; right].
  destruct (directions direction); [|now right; right].
  match goal with
  | |- context [updateRotation ?L ?s1] =>
      destruct (updateRotation_exit L s1) as [H|H]
  end.
  - left. rewrite H. reflexivity.
  - right. now left.
Qed.

Lemma resolves_changes (t : PromiseId) (s s' : State) :
  resolves t s s' -> promises s' <> promises s.
Proof.
  intros [H1 H2] Heq. unfold state_of in *. rewrite Heq in H2. congruence.
Qed.

Lemma not_resolved_by_reject (t : PromiseId) (s : State) :
  ~ resolves t s (settle t Rejected s).
Proof.
  intros [H1 H2]. rewrite (state_of_settle_eq t Rejected s H1) in H2.
  discriminate.
Qed.

(** A set-up that goes through registers the movement loop under a
    period and pushes its handle, then registers the rotation loop for the
    next tick and drops that handle. *)
Lemma executeMove_set_up (s : State) direction distance options t mc d :
  isStopped (manager s) = false -> isValid (entity s) = true ->
  movement (entity s) = Some mc -> directions direction = Some d ->
  0 < distance ->
  let s' := executeMove direction distance options t s in
  intervalHandles (manager s') = intervalHandles (manager s) ++ [nextHandle s]
  /\ scheduled s'
     = scheduled s
       ++ [ {| handle := nextHandle s;
               callback := MoveEntity (length (legs s));
               period := Some 5%nat |};
            {| handle := S (nextHandle s);
               callback := UpdateRotation (length (legs s));
               period := None |} ]
  /\ promises s' = promises s /\ jobs s' = jobs s
  /\ (exists c, movement (entity s') = Some c /\ currentValue c = 0).
Proof.
  intros Hs Hv Hm Hd Hpos. cbv zeta.
  rewrite (executeMove_ready _ _ _ _ _ mc d) by assumption.
  erewrite updateRotation_continue.
  - cbn. rewrite <- app_assoc, Hm. cbn. repeat split. eexists. now split.
  - unfold leg_ready. cbn. now apply list_lookup_middle.
  - unfold aborted, leg_ready. cbn. now rewrite Hs, Hv.
  - cbn. exact Hpos.
Qed.

Lemma periodic_tracked_of_inv (c : bool) (since : option (list Effect))
  (r : option Job) (s : State) :
  state_inv c since r s -> periodic_tracked s.
Proof.
  intros Hinv sc Hin Hper. apply list_elem_of_In.
  apply (hi_tracked _ _ _ _ _ (inv_handles _ _ _ _ Hinv)); [|assumption].
  now apply list_elem_of_In.
Qed.

(** C1, as stated, fails: the handle [system.run] returns for the
    rotation loop is live in the scheduler and not in the handle list. *)
Lemma handles_tracked_counterexample :
  let s := Scenario.oneLeg in
  In {| handle := 1%nat; callback := UpdateRotation 0%nat; period := None |}
     (scheduled s)
  /\ ~ In 1%nat (intervalHandles (manager s)).
Proof.
  cbv zeta. rewrite oneLeg_eq. cbn. split.
  - right. now left.
  - intros [H|[]]. discriminate.
Qed.

(** C1, as amended: the handle of the periodic movement loop is recorded
    in the handle list when the leg is set up; the handles of the rotation
    loop's [system.run] are not, neither the one of the set-up nor the one
    of a run of the loop that goes on, which schedules its next run and
    leaves the handle list as it is; in every state a run reaches, every
    periodic callback still scheduled is tracked, and handles are tracked
    only while a leg is unresolved; and whichever way a leg's promise gets
    fulfilled (by the movement loop reaching the target or aborting, by
    the rotation loop aborting, in the set-up itself, or by the queued step
    giving up), the handle list is empty right afterwards. *)
Theorem handles_tracked_and_cleared :
  (forall (s : State) direction distance options t mc d,
      isStopped (manager s) = false -> isValid (entity s) = true ->
      movement (entity s) = Some mc -> directions direction = Some d ->
      0 < distance ->
      let s' := executeMove direction distance options t s in
      intervalHandles (manager s') = intervalHandles (manager s) ++ [nextHandle s]
      /\ scheduled s'
         = scheduled s
           ++ [ {| handle := nextHandle s;
                   callback := MoveEntity (length (legs s));
                   period := Some 5%nat |};
                {| handle := S (nextHandle s);
                   callback := UpdateRotation (length (legs s));
                   period := None |} ])
  /\ (forall e cfg inputs,
        let s := run (construct e cfg) inputs in
        periodic_tracked s
        /\ (inflight (promises s) (resolve <$> legs s) = 0%nat ->
            intervalHandles (manager s) = []))
  /\ (forall (s : State) (L : LegId) (e : LegEnv),
        legs s !! L = Some e ->
        (resolves (resolve e) s (moveEntity L s) ->
         intervalHandles (manager (moveEntity L s)) = [])
        /\ (resolves (resolve e) s (updateRotation L s) ->
            intervalHandles (manager (updateRotation L s)) = []))
  /\ (forall (s : State) direction distance options (t : PromiseId),
        resolves t s (executeMove direction distance options t s) ->
        intervalHandles
          (manager (executeMove direction distance options t s)) = [])
  /\ (forall (s : State) (leg : Leg) (t : PromiseId),
        resolves t s (moveStep leg t s) ->
        intervalHandles (manager (moveStep leg t s)) = [])
  /\ (forall (s : State) (L : LegId) (e : LegEnv),
        legs s !! L = Some e -> aborted s = false ->
        distanceTraveled e < env_distance e ->
        scheduled (updateRotation L s)
        = scheduled s ++ [ {| handle := nextHandle s;
                              callback := UpdateRotation L;
                              period := None |} ]
        /\ intervalHandles (manager (updateRotation L s))
           = intervalHandles (manager s)).
Proof.
  split; [|split; [|split; [|split; [|split]]]].
  - intros s direction distance options t mc d Hs Hv Hm Hd Hpos.
    destruct (executeMove_set_up s direction distance options t mc d
                Hs Hv Hm Hd Hpos) as (H1 & H2 & _).
    now split.
  - intros e cfg inputs s. pose proof (reachable_inv e cfg inputs) as Hinv.
    fold s in Hinv. split; [now apply (periodic_tracked_of_inv _ _ _ _ Hinv)|].
    intros Hz. destruct (intervalHandles (manager s)) as [|h hs] eqn:Hh;
      [reflexivity|].
    pose proof (hi_hygiene _ _ _ _ _ (inv_handles _ _ _ _ Hinv)) as Hhy.
    rewrite Hh in Hhy. specialize (Hhy ltac:(discriminate)). lia.
  - intros s L e Hleg. split; intros Hr; apply resolves_changes in Hr.
    + destruct (moveEntity_exit L s); [contradiction | assumption].
    + destruct (updateRotation_exit L s); [contradiction | assumption].
  - intros s direction distance options t Hr.
    destruct (executeMove_exit direction distance options t s) as [H|[H|H]].
    + apply resolves_changes in Hr. contradiction.
    + assumption.
    + rewrite H in Hr. now apply not_resolved_by_reject in Hr.
  - intros s leg t Hr. unfold moveStep in *. destruct (aborted s).
    + now rewrite settle_manager, clearAllIntervals_eq.
    + set (s1 := match onStart (callbacks (manager s)) with
                 | Some h => emit _ s
                 | None => s
                 end) in *.
      assert (Hp : promises s1 = promises s)
        by (subst s1; now destruct (onStart (callbacks (manager s)))).
      assert (Hr1 : resolves t s1
                      (executeMove (leg_direction leg) (leg_distance leg)
                         (leg_config leg) t s1)).
      { destruct Hr as [H1 H2]. split; [|assumption].
        unfold state_of in *. now rewrite Hp. }
      destruct (executeMove_exit (leg_direction leg) (leg_distance leg)
                  (leg_config leg) t s1) as [H|[H|H]].
      * apply resolves_changes in Hr1. contradiction.
      * assumption.
      * rewrite H in Hr1. now apply not_resolved_by_reject in Hr1.
  - intros s L e Hleg Ha Hd.
    rewrite (updateRotation_continue L s e Hleg Ha Hd). cbn. now split.
Qed.

Lemma handles_tracked_and_cleared_witness :
  let s0 := construct Scenario.agent Scenario.noOptions in
  let s := world Scenario.removed Scenario.oneLeg in
  intervalHandles
    (manager (executeMove "north" 5 Scenario.noOptions 1 s0)) = [0%nat]
  /\ intervalHandles (manager (run s0 [])) = []
  /\ intervalHandles (manager (updateRotation 0 s)) = [].
Proof.
  intros s0 s.
  destruct handles_tracked_and_cleared as (H1 & H2 & H3 & _).
  split; [|split].
  - destruct (H1 s0 "north"%string 5 Scenario.noOptions 1%nat
                {| defaultValue := Some 0.1; currentValue := 0.1 |}
                (Vector3.mk 0 0 (-1))) as [E _];
      [reflexivity | reflexivity | reflexivity | reflexivity | lra | exact E].
  - apply (H2 Scenario.agent Scenario.noOptions []). reflexivity.
  - apply (H3 s 0%nat Scenario.northEnv).
    + subst s. now rewrite oneLeg_eq.
    + subst s. rewrite oneLeg_eq. split; reflexivity.
Defined.

(** ** The movement speed across a leg *)

Lemma updateRotation_trace (L : LegId) (s : State) :
  exists es, trace (updateRotation L s) = trace s ++ es
             /\ ~ In ResetToDefaultValue es.
Proof.
  unfold updateRotation. destruct (legs s !! L) as [e|].
  2:{ exists []. split; [now rewrite app_nil_r | intros []]. }
  destruct (aborted s).
  { exists []. rewrite settle_trace, clearAllIntervals_eq. cbn.
    split; [now rewrite app_nil_r | intros []]. }
  destruct (Rltb _ _).
  - eexists [_; _]. cbn. rewrite <- app_assoc. split; [reflexivity|].
    cbn. intuition discriminate.
  - exists []. split; [now rewrite app_nil_r | intros []].
Qed.

Lemma moveEntity_trace (L : LegId) (s : State) :
  exists es,
    trace (moveEntity L s) = trace s ++ es
    /\ (In ResetToDefaultValue es ->
        exists e, legs s !! L = Some e
                  /\ isStopped (manager s) = false
                  /\ isValid (entity s) = true
                  /\ isOnGround (entity s) = true
                  /\ climbing e = false
                  /\ env_distance e <= distanceTraveled e + displacement s e).
Proof.
  destruct (legs s !! L) as [e|] eqn:Hleg.
  2:{ unfold moveEntity. rewrite Hleg. exists [].
      split; [now rewrite app_nil_r | intros []]. }
  destruct (aborted s) eqn:Ha.
  { rewrite (moveEntity_abort s L e Hleg Ha). exists [].
    rewrite settle_trace, clearAllIntervals_eq. cbn.
    split; [now rewrite app_nil_r | intros []]. }
  destruct (truthy (env_canJump e)
            && aboveIsAir
                 (getBlockFromRay (entity s) (location (entity s)) (env_direction e))
            && isOnGround (entity s) && negb (climbing e)) eqn:Hcs.
  { rewrite (moveEntity_climb_start s L e Hleg Ha Hcs). eexists [_].
    split; [reflexivity | cbn; intuition discriminate]. }
  destruct (Bool.bool_dec (climbing e) true) as [Hcl|Hcl];
    [|apply not_true_is_false in Hcl];
    (destruct (Bool.bool_dec (isOnGround (entity s)) true) as [Hg|Hg];
     [|apply not_true_is_false in Hg]).
  - rewrite (moveEntity_climb_end s L e Hleg Ha Hcs Hcl Hg). exists [].
    split; [cbn; now rewrite app_nil_r | intros []].
  - rewrite (moveEntity_climbing_airborne s L e Hleg Ha Hcs Hcl Hg). eexists [_].
    split; [reflexivity | cbn; intuition discriminate].
  - set (cp := Vector3.center (location (entity s))).
    set (d := distanceTraveled e
              + Vector3.length (Vector3.subtract cp (startPosition e))).
    destruct (Rlt_dec d (env_distance e)) as [Hd|Hd].
    { rewrite (moveEntity_advance s L e Hleg Ha Hcs Hcl Hg Hd). eexists [_].
      split; [reflexivity | cbn; intuition discriminate]. }
    apply Rnot_lt_le in Hd.
    rewrite (moveEntity_complete s L e Hleg Ha Hcs Hcl Hg Hd).
    eexists [_; _]. split.
    + cbn. rewrite settle_trace, clearAllIntervals_eq. cbn.
      now rewrite <- app_assoc.
    + intros _. exists e. destruct (not_aborted s Ha). now repeat split.
  - rewrite (moveEntity_idle s L e Hleg Ha Hcs Hcl Hg). exists [].
    split; [cbn; now rewrite app_nil_r | intros []].
Qed.

Lemma same_world_aborted (s s' : State) :
  same_world s s' -> aborted s' = aborted s.
Proof. intros (H1 & H2 & _). unfold aborted. now rewrite H1, H2. Qed.

Lemma runJob_aborted (j : Job) (s : State) :
  aborted s = true -> same_world s (runJob j s).
Proof.
  intros Ha. destruct j as [[leg t|t]|r]; cbn.
  - rewrite (moveStep_abort leg t s Ha).
    destruct (abort_state t s) as (_ & H2 & _ & _ & H5 & H6 & _).
    now repeat split.
  - unfold same_world, completeStep.
    rewrite settle_entity, settle_manager, settle_legs.
    now destruct (onComplete (callbacks (manager s))).
  - unfold same_world. now rewrite settle_entity, settle_manager, settle_legs.
Qed.

Lemma drain_fuel_aborted (fuel : nat) (s : State) :
  aborted s = true -> same_world s (drain_fuel fuel s).
Proof.
  revert s. induction fuel as [|fuel IH]; intros s Ha; [now repeat split|].
  cbn. destruct (jobs s) as [|j js]; [now repeat split|].
  set (s0 := with_promises (promises s) js s).
  assert (H0 : same_world s s0) by now repeat split.
  assert (H1 : same_world s0 (runJob j s0))
    by (apply runJob_aborted; now rewrite (same_world_aborted _ _ H0)).
  assert (H2 : same_world (runJob j s0) (drain_fuel fuel (runJob j s0))).
  { apply IH. now rewrite (same_world_aborted _ _ H1), (same_world_aborted _ _ H0). }
  destruct H0 as (A1 & A2 & A3), H1 as (B1 & B2 & B3), H2 as (C1 & C2 & C3).
  repeat split; congruence.
Qed.

Lemma fire_aborted (h : Handle) (s : State) :
  aborted s = true -> same_world s (fire h s).
Proof.
  intros Ha. unfold fire.
  destruct (find _ (scheduled s)) as [sc|]; [|now repeat split].
  set (s0 := match period sc with None => clearRun h s | Some _ => s end).
  assert (H0 : same_world s s0) by (subst s0; destruct (period sc); now repeat split).
  assert (Ha0 : aborted s0 = true) by now rewrite (same_world_aborted _ _ H0).
  assert (H1 : same_world s0 (invoke (callback sc) s0)).
  { destruct (callback sc) as [L|L]; cbn.
    - unfold moveEntity. destruct (legs s0 !! L); [|now repeat split].
      rewrite Ha0. destruct (abort_state (resolve l) s0) as (_ & H2 & _ & _ & H5 & H6 & _).
      now repeat split.
    - unfold updateRotation. destruct (legs s0 !! L); [|now repeat split].
      rewrite Ha0. destruct (abort_state (resolve l) s0) as (_ & H2 & _ & _ & H5 & H6 & _).
      now repeat split. }
  destruct H0 as (A1 & A2 & A3), H1 as (B1 & B2 & B3).
  repeat split; congruence.
Qed.

Lemma step_fire_aborted (h : Handle) (s : State) :
  aborted s = true -> same_world s (step s (Fire h)).
Proof.
  intros Ha. unfold step, drain. cbn.
  pose proof (fire_aborted h s Ha) as H0.
  pose proof (drain_fuel_aborted (pending_work (fire h s)) (fire h s)
                ltac:(now rewrite (same_world_aborted _ _ H0))) as H1.
  destruct H0 as (A1 & A2 & A3), H1 as (B1 & B2 & B3).
  repeat split; congruence.
Qed.

(** C9: the leg's set-up writes movement speed zero; the abort paths of
    both loops, and [stop], leave the entity as it is and add no effect;
    [resetToDefaultValue] is called by the movement loop on the path where
    the distance target is reached and nowhere else in the loops; so in
    every state a run reaches the speed is zero while a leg is unresolved,
    and it is still zero after the tick on which a stopped manager or an
    invalid agent makes the loops give up. *)
Theorem abort_leaves_speed_zero :
  (forall (s : State) direction distance options t mc d,
      isStopped (manager s) = false -> isValid (entity s) = true ->
      movement (entity s) = Some mc -> directions direction = Some d ->
      0 < distance ->
      exists c, movement (entity (executeMove direction distance options t s))
                = Some c /\ currentValue c = 0)
  /\ (forall (s : State) (L : LegId) (e : LegEnv),
        legs s !! L = Some e ->
        isStopped (manager s) = true \/ isValid (entity s) = false ->
        entity (moveEntity L s) = entity s
        /\ trace (moveEntity L s) = trace s
        /\ entity (updateRotation L s) = entity s
        /\ trace (updateRotation L s) = trace s)
  /\ (forall s : State, entity (snd (stop s)) = entity s)
  /\ (forall (s : State) (L : LegId),
        exists es,
          trace (moveEntity L s) = trace s ++ es
          /\ (In ResetToDefaultValue es ->
              exists e, legs s !! L = Some e
                        /\ isStopped (manager s) = false
                        /\ isValid (entity s) = true
                        /\ isOnGround (entity s) = true
                        /\ climbing e = false
                        /\ env_distance e
                           <= distanceTraveled e + displacement s e))
  /\ (forall (s : State) (L : LegId),
        exists es, trace (updateRotation L s) = trace s ++ es
                   /\ ~ In ResetToDefaultValue es)
  /\ (forall e cfg inputs h,
        let s := run (construct e cfg) inputs in
        (1 <= inflight (promises s) (resolve <$> legs s))%nat ->
        (exists c, movement (entity s) = Some c /\ currentValue c = 0)
        /\ (isStopped (manager s) = true \/ isValid (entity s) = false ->
            exists c, movement (entity (step s (Fire h))) = Some c
                      /\ currentValue c = 0)).
Proof.
  split; [|split; [|split; [|split; [|split]]]].
  - intros s direction distance options t mc d Hs Hv Hm Hd Hpos.
    apply (executeMove_set_up s direction distance options t mc d Hs Hv Hm Hd Hpos).
  - intros s L e Hleg Ha. apply aborted_iff in Ha.
    rewrite (moveEntity_abort s L e Hleg Ha), (updateRotation_abort L s e Hleg Ha).
    destruct (abort_state (resolve e) s) as (_ & _ & _ & H4 & _ & H6 & _).
    now repeat split.
  - intros s. apply stop_fields.
  - intros s L. apply moveEntity_trace.
  - intros s L. apply updateRotation_trace.
  - intros e cfg inputs h s Hin.
    pose proof (inv_speed _ _ _ _ (reachable_inv e cfg inputs) Hin) as Hz.
    fold s in Hz. split; [assumption|].
    intros Ha. apply aborted_iff in Ha.
    destruct (step_fire_aborted h s Ha) as (He & _). now rewrite He.
Qed.

Lemma abort_leaves_speed_zero_witness :
  let s0 := construct Scenario.agent Scenario.noOptions in
  let s := world Scenario.removed Scenario.oneLeg in
  (exists c, movement (entity (executeMove "north" 5 Scenario.noOptions 1 s0))
             = Some c /\ currentValue c = 0)
  /\ entity (moveEntity 0 s) = entity s /\ trace (moveEntity 0 s) = trace s.
Proof.
  intros s0 s.
  destruct abort_leaves_speed_zero as (H0 & H & _).
  split.
  - apply (H0 s0 "north"%string 5 Scenario.noOptions 1%nat
             {| defaultValue := Some 0.1; currentValue := 0.1 |}
             (Vector3.mk 0 0 (-1)));
      [reflexivity | reflexivity | reflexivity | reflexivity | lra].
  - destruct (H s 0%nat Scenario.northEnv) as (H1 & H2 & _).
    + subst s. now rewrite oneLeg_eq.
    + right. reflexivity.
    + now split.
Defined.

(** ** The chain drains *)

Lemma inflight_settle_any (t : PromiseId) (st : PromiseState) (s : State)
  (lt : list PromiseId) :
  st <> Pending ->
  (inflight (promises (settle t st s)) lt <= inflight (promises s) lt)%nat.
Proof.
  intros Hst. unfold settle.
  destruct (promises s !! t) as [tr|] eqn:Ht; [|lia].
  destruct (pstate tr); try lia. cbn.
  apply inflight_settle_le; [eapply lookup_lt_Some; eassumption | assumption].
Qed.

Lemma runJob_aborted_inflight (j : Job) (s : State) :
  aborted s = true ->
  (inflight (promises (runJob j s)) (resolve <$> legs (runJob j s))
   <= inflight (promises s) (resolve <$> legs s))%nat.
Proof.
  intros Ha. destruct (runJob_aborted j s Ha) as (_ & _ & Hl). rewrite Hl.
  destruct j as [[leg t|t]|r]; cbn.
  - rewrite (moveStep_abort leg t s Ha).
    etransitivity; [apply inflight_settle_any; discriminate|].
    now rewrite clearAllIntervals_eq.
  - unfold completeStep.
    etransitivity; [apply inflight_settle_any; discriminate|].
    now destruct (onComplete (callbacks (manager s))).
  - apply inflight_settle_any. discriminate.
Qed.

Lemma drain_fuel_aborted_inflight (fuel : nat) (s : State) :
  aborted s = true ->
  (inflight (promises (drain_fuel fuel s)) (resolve <$> legs (drain_fuel fuel s))
   <= inflight (promises s) (resolve <$> legs s))%nat.
Proof.
  revert s. induction fuel as [|fuel IH]; intros s Ha; [cbn; lia|].
  cbn. destruct (jobs s) as [|j js]; [lia|].
  set (s0 := with_promises (promises s) js s).
  assert (Ha0 : aborted s0 = true) by exact Ha.
  pose proof (runJob_aborted_inflight j s0 Ha0) as H1.
  pose proof (runJob_aborted j s0 Ha0) as Hw.
  specialize (IH (runJob j s0) ltac:(now rewrite (same_world_aborted _ _ Hw))).
  etransitivity; [exact IH|]. exact H1.
Qed.

Lemma fire_leg_abort (s : State) (h : Handle) (sc : Scheduled) (e : LegEnv) :
  aborted s = true ->
  scheduled_as s h = Some sc ->
  legs s !! leg_of (callback sc) = Some e ->
  exists s0, promises s0 = promises s /\ jobs s0 = jobs s /\ legs s0 = legs s
             /\ fire h s = settle (resolve e) Fulfilled (clearAllIntervals s0).
Proof.
  intros Ha Hf Hleg. unfold fire. unfold scheduled_as in Hf. rewrite Hf.
  exists (match period sc with None => clearRun h s | Some _ => s end).
  assert (Hfr : forall s0 : State,
             s0 = match period sc with None => clearRun h s | Some _ => s end ->
             promises s0 = promises s /\ jobs s0 = jobs s /\ legs s0 = legs s
             /\ aborted s0 = true).
  { intros s0 ->. destruct (period sc); now repeat split. }
  destruct (Hfr _ eq_refl) as (H1 & H2 & H3 & H4).
  repeat split; try assumption.
  destruct (callback sc) as [L|L]; cbn in *.
  - apply moveEntity_abort; [now rewrite H3 | assumption].
  - apply updateRotation_abort; [now rewrite H3 | assumption].
Qed.

Lemma run_quiescent (s : State) (inputs : list Input) :
  jobs s = [] -> jobs (run s inputs) = [].
Proof.
  revert s. induction inputs as [|i inputs IH]; intros s Hj; [assumption|].
  cbn. apply IH, step_quiescent.
Qed.

(** The tick on which the loops of the one unresolved leg give up settles
    every promise there is. *)
Lemma abort_drains (c : bool) (since : option (list Effect)) (s : State)
  (h : Handle) (sc : Scheduled) (e : LegEnv) :
  state_inv c since None s -> jobs s = [] ->
  aborted s = true ->
  scheduled_as s h = Some sc ->
  legs s !! leg_of (callback sc) = Some e ->
  pstate_at (promises s) (resolve e) = Some Pending ->
  forall p pr, promises (step s (Fire h)) !! p = Some pr -> pstate pr <> Pending.
Proof.
  intros Hinv Hj Ha Hf Hleg Hpend.
  assert (Hinv1 : state_inv c since None (fire h s)) by now apply fire_inv.
  assert (Hw1 : same_world s (fire h s)) by now apply fire_aborted.
  assert (Ha1 : aborted (fire h s) = true)
    by now rewrite (same_world_aborted _ _ Hw1).
  assert (Hz1 : inflight (promises (fire h s)) (resolve <$> legs (fire h s)) = 0%nat).
  { destruct Hw1 as (_ & _ & Hl). rewrite Hl.
    destruct (fire_leg_abort s h sc e Ha Hf Hleg) as (s0 & E1 & E2 & E3 & ->).
    unfold pstate_at in Hpend.
    destruct (promises s !! resolve e) as [tr|] eqn:Htr; [|discriminate].
    cbn in Hpend. injection Hpend as Hpend.
    rewrite (settle_pending _ _ _ tr);
      rewrite ?clearAllIntervals_eq; cbn; rewrite ?E1; try assumption.
    apply inflight_settle_zero.
    - eapply lookup_lt_Some; eassumption.
    - discriminate.
    - now apply (leg_target_elem s (leg_of (callback sc))).
    - unfold pstate_at. rewrite Htr. cbn. now rewrite Hpend.
    - pose proof (ci_front _ _ _ _ (inv_chain _ _ _ _ Hinv)). lia. }
  apply (all_settled c since (step s (Fire h))).
  - unfold step, drain. now apply drain_fuel_inv.
  - apply step_quiescent.
  - pose proof (drain_fuel_aborted_inflight (pending_work (fire h s)) (fire h s) Ha1).
    unfold step, drain. cbn [task]. lia.
Qed.



Lemma counting_inv (e : Entity) (cfg : MovementConfig) (h : HandlerId)
  (inputs : list Input) :
  Forall (input_ok true) inputs ->
  state_inv true None None
    (run (on "onComplete" (Some h) (construct e cfg)) inputs).
Proof.
  intros Hok. apply run_inv; [|assumption].
  apply inv_counting_start.
  - apply inv_on; [apply construct_inv | discriminate].
  - discriminate.
  - reflexivity.
Qed.


(** * Further properties

    What the rest of the file shows about the code: the vector class as
    the movement loop uses it, the table of directions and the yaw, the
    methods of the manager one by one, the chain of promises under
    rejection and [stop], and the spawn handler. *)

(** ** Vector3 *)

Lemma Vector3_ext (v w : Vector3.t) :
  Vector3.x v = Vector3.x w -> Vector3.y v = Vector3.y w ->
  Vector3.z v = Vector3.z w -> v = w.
Proof. destruct v, w. cbn. now intros -> -> ->. Qed.

Ltac vector_ring :=
  intros; apply Vector3_ext; cbn; ring.

(** X1: [add], [subtract] and [scale] obey the laws of a vector space:
    [add] is commutative and associative with the zero vector as unit,
    [subtract] is [add] of the vector scaled by -1 and undoes [add], and
    [scale] is compatible with 1, 0, products and sums of factors and
    distributes over [add]. *)
Theorem vector_space_laws (u v w : Vector3.t) (a b : R) :
  Vector3.add v w = Vector3.add w v
  /\ Vector3.add (Vector3.add u v) w = Vector3.add u (Vector3.add v w)
  /\ Vector3.add v (Vector3.mk 0 0 0) = v
  /\ Vector3.subtract v v = Vector3.mk 0 0 0
  /\ Vector3.subtract v w = Vector3.add v (Vector3.scale w (-1))
  /\ Vector3.add (Vector3.subtract v w) w = v
  /\ Vector3.scale v 1 = v
  /\ Vector3.scale v 0 = Vector3.mk 0 0 0
  /\ Vector3.scale (Vector3.scale v a) b = Vector3.scale v (a * b)
  /\ Vector3.scale (Vector3.add v w) a
     = Vector3.add (Vector3.scale v a) (Vector3.scale w a)
  /\ Vector3.scale v (a + b)
     = Vector3.add (Vector3.scale v a) (Vector3.scale v b).
Proof. repeat split; vector_ring. Qed.

Lemma length_sqr (v : Vector3.t) :
  Vector3.length v * Vector3.length v
  = Vector3.x v * Vector3.x v + Vector3.y v * Vector3.y v
    + Vector3.z v * Vector3.z v.
Proof. unfold Vector3.length. apply sqrt_sqrt. nra. Qed.

Lemma length_zero_iff (v : Vector3.t) :
  Vector3.length v = 0 <-> v = Vector3.mk 0 0 0.
Proof.
  split.
  - intros H. pose proof (length_sqr v) as Hs. rewrite H in Hs.
    apply Vector3_ext; cbn; nra.
  - intros ->. unfold Vector3.length. cbn.
    replace (0 * 0 + 0 * 0 + 0 * 0) with 0 by ring. apply sqrt_0.
Qed.

Lemma length_scale (v : Vector3.t) (s : R) :
  Vector3.length (Vector3.scale v s) = Rabs s * Vector3.length v.
Proof.
  unfold Vector3.length. cbn.
  replace (Vector3.x v * s * (Vector3.x v * s) + Vector3.y v * s * (Vector3.y v * s)
           + Vector3.z v * s * (Vector3.z v * s))
    with (s² * (Vector3.x v * Vector3.x v + Vector3.y v * Vector3.y v
                + Vector3.z v * Vector3.z v)) by (unfold Rsqr; ring).
  rewrite sqrt_mult_alt by apply Rle_0_sqr. now rewrite sqrt_Rsqr_abs.
Qed.

Lemma dot_le_lengths (v w : Vector3.t) :
  Vector3.x v * Vector3.x w + Vector3.y v * Vector3.y w + Vector3.z v * Vector3.z w
  <= Vector3.length v * Vector3.length w.
Proof.
  set (d := Vector3.x v * Vector3.x w + Vector3.y v * Vector3.y w
            + Vector3.z v * Vector3.z w).
  pose proof (length_nonneg v) as Hv. pose proof (length_nonneg w) as Hw.
  destruct (Rle_dec d 0) as [Hd|Hd]; [nra|].
  apply Rnot_le_lt in Hd.
  assert (H : d * d <= (Vector3.length v * Vector3.length w)
                       * (Vector3.length v * Vector3.length w)).
  { replace ((Vector3.length v * Vector3.length w)
             * (Vector3.length v * Vector3.length w))
      with ((Vector3.length v * Vector3.length v)
            * (Vector3.length w * Vector3.length w)) by ring.
    rewrite !length_sqr. subst d.
    destruct v as [a b c], w as [a' b' c']. cbn.
    assert (0 <= (a * b' - b * a') * (a * b' - b * a')
                 + (a * c' - c * a') * (a * c' - c * a')
                 + (b * c' - c * b') * (b * c' - c * b')).
    { pose proof (Rle_0_sqr (a * b' - b * a')).
      pose proof (Rle_0_sqr (a * c' - c * a')).
      pose proof (Rle_0_sqr (b * c' - c * b')). unfold Rsqr in *. lra. }
    assert ((a * a + b * b + c * c) * (a' * a' + b' * b' + c' * c')
            - (a * a' + b * b' + c * c') * (a * a' + b * b' + c * c')
            = (a * b' - b * a') * (a * b' - b * a')
              + (a * c' - c * a') * (a * c' - c * a')
              + (b * c' - c * b') * (b * c' - c * b')) by ring.
    lra. }
  pose proof (Rmult_le_pos _ _ Hv Hw) as Hp.
  apply Rnot_lt_le. intros Hlt.
  assert (Vector3.length v * Vector3.length w * (Vector3.length v * Vector3.length w)
          < d * d) by nra.
  lra.
Qed.

Lemma length_triangle (v w : Vector3.t) :
  Vector3.length (Vector3.add v w) <= Vector3.length v + Vector3.length w.
Proof.
  pose proof (length_nonneg v) as Hv. pose proof (length_nonneg w) as Hw.
  pose proof (length_nonneg (Vector3.add v w)) as Hvw.
  pose proof (length_sqr v) as Sv. pose proof (length_sqr w) as Sw.
  pose proof (length_sqr (Vector3.add v w)) as Svw. cbn in Svw.
  pose proof (dot_le_lengths v w) as Hd.
  nra.
Qed.

(** X2: [length] is a norm: it is not negative, zero for the zero vector
    only, scales with the absolute value of the factor, gives the same
    distance both ways round and satisfies the triangle inequality. *)
Theorem length_is_a_norm (v w : Vector3.t) (s : R) :
  0 <= Vector3.length v
  /\ (Vector3.length v = 0 <-> v = Vector3.mk 0 0 0)
  /\ Vector3.length (Vector3.scale v s) = Rabs s * Vector3.length v
  /\ Vector3.length (Vector3.subtract v w) = Vector3.length (Vector3.subtract w v)
  /\ Vector3.length (Vector3.add v w) <= Vector3.length v + Vector3.length w.
Proof.
  split; [apply length_nonneg|]. split; [apply length_zero_iff|].
  split; [apply length_scale|]. split; [|apply length_triangle].
  unfold Vector3.length. cbn. f_equal. ring.
Qed.

Lemma length_is_a_norm_witness : Vector3.length (Vector3.mk 0 0 0) = 0.
Proof.
  apply (proj2 (proj1 (proj2 (length_is_a_norm (Vector3.mk 0 0 0)
                                (Vector3.mk 0 0 0) 1)))).
  reflexivity.
Defined.

Lemma Math_floor_IZR (n : Z) : Math_floor (IZR n) = IZR n.
Proof. unfold Math_floor. now rewrite ZfloorZ. Qed.

Lemma Math_floor_bound (r : R) : Math_floor r <= r < Math_floor r + 1.
Proof. unfold Math_floor. apply Zfloor_bound. Qed.

Lemma Math_floor_half (r : R) : Math_floor (Math_floor r + 0.5) = Math_floor r.
Proof. unfold Math_floor at 1 2. apply Math_floor_eq. lra. Qed.

(** X3: [floor] and [center] are idempotent; [floor] rounds each
    coordinate down by less than one; [center] keeps the height, moves x
    and z by at most half a block, is the floor of x and z plus a half, and
    is the same for two positions in the same block at the same height. *)
Theorem floor_and_center (v w : Vector3.t) :
  Vector3.floor (Vector3.floor v) = Vector3.floor v
  /\ Vector3.center (Vector3.center v) = Vector3.center v
  /\ Vector3.center (Vector3.floor v)
     = Vector3.add (Vector3.floor v) (Vector3.mk 0.5 0 0.5)
  /\ (Vector3.x (Vector3.floor v) <= Vector3.x v < Vector3.x (Vector3.floor v) + 1
      /\ Vector3.y (Vector3.floor v) <= Vector3.y v < Vector3.y (Vector3.floor v) + 1
      /\ Vector3.z (Vector3.floor v) <= Vector3.z v < Vector3.z (Vector3.floor v) + 1)
  /\ Vector3.y (Vector3.center v) = Vector3.y v
  /\ Rabs (Vector3.x (Vector3.center v) - Vector3.x v) <= 0.5
  /\ Rabs (Vector3.z (Vector3.center v) - Vector3.z v) <= 0.5
  /\ (Vector3.floor v = Vector3.floor w ->
      Vector3.y v = Vector3.y w -> Vector3.center v = Vector3.center w).
Proof.
  pose proof (Math_floor_bound (Vector3.x v)) as Hx.
  pose proof (Math_floor_bound (Vector3.y v)) as Hy.
  pose proof (Math_floor_bound (Vector3.z v)) as Hz.
  split; [|split; [|split; [|split; [|split; [|split; [|split]]]]]].
  - apply Vector3_ext; cbn [Vector3.floor Vector3.x Vector3.y Vector3.z];
      unfold Math_floor; now rewrite ZfloorZ.
  - apply Vector3_ext; cbn [Vector3.center Vector3.x Vector3.y Vector3.z];
      now rewrite ?Math_floor_half.
  - apply Vector3_ext;
      cbn [Vector3.center Vector3.floor Vector3.add Vector3.x Vector3.y Vector3.z];
      unfold Math_floor; rewrite ?ZfloorZ; ring.
  - cbn [Vector3.floor Vector3.x Vector3.y Vector3.z]. lra.
  - reflexivity.
  - cbn [Vector3.center Vector3.x]. apply Rabs_le. lra.
  - cbn [Vector3.center Vector3.z]. apply Rabs_le. lra.
  - intros Hf Hyw. unfold Vector3.floor in Hf. injection Hf as H1 H2 H3.
    unfold Vector3.center. now rewrite H1, H3, Hyw.
Qed.

Lemma floor_and_center_witness :
  Vector3.center (Vector3.mk 0.2 64 0.3) = Vector3.center (Vector3.mk 0.7 64 0.9).
Proof.
  apply (floor_and_center (Vector3.mk 0.2 64 0.3) (Vector3.mk 0.7 64 0.9)).
  - unfold Vector3.floor. cbn [Vector3.x Vector3.y Vector3.z].
    rewrite (Math_floor_eq 0 0.2), (Math_floor_eq 0 0.7),
      (Math_floor_eq 0 0.3), (Math_floor_eq 0 0.9) by lra.
    reflexivity.
  - reflexivity.
Defined.

Lemma sqr_int_zero_or_one (n m : Z) :
  (n * n + m * m = 0 \/ 1 <= n * n + m * m)%Z.
Proof. nia. Qed.

(** X4: the distance between two block centres, which is what the movement
    loop adds to the distance travelled: it is zero exactly when the
    centres are equal; within one column of blocks it is the difference in
    height, which [center] does not round; and at equal height it is zero
    or at least one block. *)
Theorem center_distance (a b : Vector3.t) :
  let d := Vector3.length (Vector3.subtract (Vector3.center a) (Vector3.center b)) in
  (d = 0 <-> Vector3.center a = Vector3.center b)
  /\ (Math_floor (Vector3.x a) = Math_floor (Vector3.x b) ->
      Math_floor (Vector3.z a) = Math_floor (Vector3.z b) ->
      d = Rabs (Vector3.y a - Vector3.y b))
  /\ (Vector3.y a = Vector3.y b -> d = 0 \/ 1 <= d).
Proof.
  intros d. split; [|split].
  - subst d. rewrite length_zero_iff. split.
    + intros H. injection H as H1 H2 H3.
      apply Vector3_ext; cbn in *; lra.
    + intros ->. apply Vector3_ext; cbn; ring.
  - intros Hx Hz. subst d. unfold Vector3.length. cbn. rewrite Hx, Hz.
    replace ((Math_floor (Vector3.x b) + 0.5 - (Math_floor (Vector3.x b) + 0.5))
             * (Math_floor (Vector3.x b) + 0.5 - (Math_floor (Vector3.x b) + 0.5))
             + (Vector3.y a - Vector3.y b) * (Vector3.y a - Vector3.y b)
             + (Math_floor (Vector3.z b) + 0.5 - (Math_floor (Vector3.z b) + 0.5))
               * (Math_floor (Vector3.z b) + 0.5 - (Math_floor (Vector3.z b) + 0.5)))
      with ((Vector3.y a - Vector3.y b)²) by (unfold Rsqr; ring).
    apply sqrt_Rsqr_abs.
  - intros Hy. subst d. unfold Vector3.length. cbn. rewrite Hy.
    unfold Math_floor.
    set (n := (Zfloor (Vector3.x a) - Zfloor (Vector3.x b))%Z).
    set (m := (Zfloor (Vector3.z a) - Zfloor (Vector3.z b))%Z).
    match goal with
    | |- sqrt ?t = 0 \/ _ =>
        replace t with (IZR (n * n + m * m))
    end.
    2:{ subst n m. rewrite plus_IZR, !mult_IZR, !minus_IZR. ring. }
    destruct (sqr_int_zero_or_one n m) as [H|H].
    + left. rewrite H. apply sqrt_0.
    + right. rewrite <- sqrt_1. apply sqrt_le_1_alt. now apply IZR_le.
Qed.

Lemma center_distance_witness :
  Vector3.length
    (Vector3.subtract (Vector3.center (Vector3.mk 0.2 64 0.3))
       (Vector3.center (Vector3.mk 0.7 65 0.9)))
  = Rabs (64 - 65).
Proof.
  apply (proj1 (proj2 (center_distance (Vector3.mk 0.2 64 0.3)
                         (Vector3.mk 0.7 65 0.9))));
    cbn [Vector3.x Vector3.z].
  - rewrite (Math_floor_eq 0 0.2), (Math_floor_eq 0 0.7) by lra. reflexivity.
  - rewrite (Math_floor_eq 0 0.3), (Math_floor_eq 0 0.9) by lra. reflexivity.
Defined.

(** ** The table of directions and the yaw *)

Local Open Scope string_scope.

Lemma SQRT1_2_sqr : Math_SQRT1_2 * Math_SQRT1_2 = 1 / 2.
Proof. unfold Math_SQRT1_2. apply sqrt_sqrt. lra. Qed.

Lemma SQRT1_2_pos : 0 < Math_SQRT1_2.
Proof. unfold Math_SQRT1_2. apply sqrt_lt_R0. lra. Qed.

Lemma directions_cases (name : string) (d : Vector3.t) :
  directions name = Some d ->
  (name = "north" /\ d = Vector3.mk 0 0 (-1))
  \/ (name = "south" /\ d = Vector3.mk 0 0 1)
  \/ (name = "west" /\ d = Vector3.mk (-1) 0 0)
  \/ (name = "east" /\ d = Vector3.mk 1 0 0)
  \/ (name = "northeast" /\ d = Vector3.scale (Vector3.mk 1 0 (-1)) Math_SQRT1_2)
  \/ (name = "southeast" /\ d = Vector3.scale (Vector3.mk 1 0 1) Math_SQRT1_2)
  \/ (name = "southwest" /\ d = Vector3.scale (Vector3.mk (-1) 0 1) Math_SQRT1_2)
  \/ (name = "northwest" /\ d = Vector3.scale (Vector3.mk (-1) 0 (-1)) Math_SQRT1_2).
Proof.
  unfold directions.
  repeat match goal with
         | |- context [String.eqb name ?n] =>
             destruct (String.eqb_spec name n) as [->|?]
         end; intros [= <-]; tauto.
Qed.

Lemma length_unit (a b c : R) :
  a * a + b * b + c * c = 1 -> Vector3.length (Vector3.mk a b c) = 1.
Proof. intros H. unfold Vector3.length. cbn. rewrite H. apply sqrt_1. Qed.

Lemma directions_unit (name : string) (d : Vector3.t) :
  directions name = Some d -> Vector3.length d = 1 /\ Vector3.y d = 0.
Proof.
  intros H. pose proof SQRT1_2_sqr as Hq.
  destruct (directions_cases name d H)
    as [[_ ->]|[[_ ->]|[[_ ->]|[[_ ->]|[[_ ->]|[[_ ->]|[[_ ->]|[_ ->]]]]]]]];
    (split; [apply length_unit; cbn; lra | cbn; ring]).
Qed.

(** X5: the [directions] table has the eight compass names and no other;
    each entry is a horizontal vector of length one, so the impulse vector
    of a leg is horizontal and as long as the speed. *)
Theorem directions_table (name : string) :
  (In name direction_names <-> exists d, directions name = Some d)
  /\ (forall d, directions name = Some d ->
        Vector3.length d = 1 /\ Vector3.y d = 0
        /\ forall speed, Vector3.length (Vector3.scale d speed) = Rabs speed
                         /\ Vector3.y (Vector3.scale d speed) = 0).
Proof.
  split.
  - split.
    + intros H. cbn in H.
      repeat (destruct H as [<-|H]; [eexists; reflexivity|]). destruct H.
    + intros [d H]. apply directions_cases in H. cbn.
      repeat (destruct H as [[-> _]|H]; [tauto|]). destruct H as [-> _]. tauto.
  - intros d H. destruct (directions_unit name d H) as [H1 H2].
    split; [assumption|]. split; [assumption|]. intros speed. split.
    + unfold Vector3.length in *. cbn.
      replace (Vector3.x d * speed * (Vector3.x d * speed)
               + Vector3.y d * speed * (Vector3.y d * speed)
               + Vector3.z d * speed * (Vector3.z d * speed))
        with (speed² * (Vector3.x d * Vector3.x d + Vector3.y d * Vector3.y d
                        + Vector3.z d * Vector3.z d)) by (unfold Rsqr; ring).
      rewrite sqrt_mult_alt by apply Rle_0_sqr.
      rewrite H1, sqrt_Rsqr_abs. ring.
    + cbn. rewrite H2. ring.
Qed.

Lemma directions_table_witness :
  In "north" direction_names /\ Vector3.length (Vector3.mk 0 0 (-1)) = 1.
Proof.
  destruct (directions_table "north") as [H1 H2]. split.
  - apply H1. exists (Vector3.mk 0 0 (-1)). reflexivity.
  - apply (H2 (Vector3.mk 0 0 (-1))). reflexivity.
Defined.

Lemma atan2_scale (b a s : R) :
  0 < s -> Math_atan2 (b * s) (a * s) = Math_atan2 b a.
Proof.
  intros Hs. unfold Math_atan2.
  assert (E : a <> 0 -> b * s / (a * s) = b / a) by (intros; field; lra).
  destruct (Rlt_dec 0 a) as [Ha|Ha].
  { destruct (Rlt_dec 0 (a * s)) as [_|N]; [|exfalso; apply N; nra].
    rewrite E by lra. reflexivity. }
  destruct (Rlt_dec 0 (a * s)) as [P|_]; [exfalso; apply Ha; nra|].
  destruct (Rlt_dec a 0) as [Ha'|Ha'].
  { destruct (Rlt_dec (a * s) 0) as [_|N]; [|exfalso; apply N; nra].
    rewrite E by lra.
    destruct (Rle_dec 0 b) as [Hb|Hb].
    - destruct (Rle_dec 0 (b * s)) as [_|N]; [reflexivity|exfalso; apply N; nra].
    - destruct (Rle_dec 0 (b * s)) as [P|_]; [exfalso; apply Hb; nra|reflexivity]. }
  destruct (Rlt_dec (a * s) 0) as [P|_]; [exfalso; apply Ha'; nra|].
  destruct (Rlt_dec 0 b) as [Hb|Hb].
  { destruct (Rlt_dec 0 (b * s)) as [_|N]; [reflexivity|exfalso; apply N; nra]. }
  destruct (Rlt_dec 0 (b * s)) as [P|_]; [exfalso; apply Hb; nra|].
  destruct (Rlt_dec b 0) as [Hb'|Hb'].
  { destruct (Rlt_dec (b * s) 0) as [_|N]; [reflexivity|exfalso; apply N; nra]. }
  destruct (Rlt_dec (b * s) 0) as [P|_]; [exfalso; apply Hb'; nra|reflexivity].
Qed.

Lemma calculateYaw_scale (v : Vector3.t) (s : R) :
  0 < s -> calculateYaw (Vector3.scale v s) = calculateYaw v.
Proof. intros Hs. unfold calculateYaw. cbn. now rewrite atan2_scale. Qed.

Lemma atan2_bound (b a : R) : - PI < Math_atan2 b a <= PI.
Proof.
  pose proof PI_RGT_0 as Hpi. unfold Math_atan2.
  pose proof (atan_bound (b / a)) as Hb.
  destruct (Rlt_dec 0 a) as [Ha|Ha]; [lra|].
  destruct (Rlt_dec a 0) as [Ha'|Ha'].
  - assert (Hi : / a < 0) by now apply Rinv_lt_0_compat.
    destruct (Rle_dec 0 b) as [Hb0|Hb0].
    + assert (b / a <= 0) by (unfold Rdiv; nra).
      assert (atan (b / a) <= 0).
      { rewrite <- atan_0. destruct H as [H|H].
        - left. now apply atan_increasing.
        - rewrite H. lra. }
      lra.
    + assert (0 < b / a) by (unfold Rdiv; nra).
      assert (0 < atan (b / a)) by (rewrite <- atan_0; now apply atan_increasing).
      lra.
  - destruct (Rlt_dec 0 b); [lra|]. destruct (Rlt_dec b 0); lra.
Qed.

Lemma atan_m1 : atan (-1) = - (PI / 4).
Proof. replace (-1) with (- (1)) by lra. rewrite atan_opp, atan_1. reflexivity. Qed.

Ltac atan2_eval :=
  unfold Math_atan2;
  repeat match goal with
         | |- context [Rlt_dec ?a ?b] => destruct (Rlt_dec a b); try lra
         | |- context [Rle_dec ?a ?b] => destruct (Rle_dec a b); try lra
         end.

Lemma yaw_value (b a k : R) :
  Math_atan2 b a = k * (PI / 4) ->
  Math_atan2 b a * (180 / PI) - 90 = k * 45 - 90.
Proof. intros ->. pose proof PI_RGT_0. field. lra. Qed.

Lemma calculateYaw_range (v : Vector3.t) : -270 < calculateYaw v <= 90.
Proof.
  unfold calculateYaw.
  pose proof (atan2_bound (Vector3.z v) (Vector3.x v)) as Hb.
  pose proof PI_RGT_0 as Hpi.
  assert (E : forall t, t * (180 / PI) = 180 * (t / PI)) by (intros; field; lra).
  rewrite E.
  assert (-1 < Math_atan2 (Vector3.z v) (Vector3.x v) / PI <= 1).
  { split.
    - apply Rmult_lt_reg_r with PI; [assumption|]. unfold Rdiv.
      rewrite Rmult_assoc, Rinv_l by lra. lra.
    - apply Rmult_le_reg_r with PI; [assumption|]. unfold Rdiv.
      rewrite Rmult_assoc, Rinv_l by lra. lra. }
  lra.
Qed.

Lemma yaw_table (name : string) (d : Vector3.t) (yaw : R) :
  directions name = Some d -> In (name, yaw) direction_yaws ->
  calculateYaw d = yaw.
Proof.
  intros Hd Hin. unfold direction_yaws in Hin.
  pose proof SQRT1_2_pos as Hq. pose proof PI_RGT_0 as Hpi.
  assert (Hdiv1 : 1 * Math_SQRT1_2 / (1 * Math_SQRT1_2) = 1) by (field; lra).
  assert (Hdiv2 : -1 * Math_SQRT1_2 / (1 * Math_SQRT1_2) = -1) by (field; lra).
  assert (Hdiv3 : 1 * Math_SQRT1_2 / (-1 * Math_SQRT1_2) = -1) by (field; lra).
  assert (Hdiv4 : -1 * Math_SQRT1_2 / (-1 * Math_SQRT1_2) = 1) by (field; lra).
  cbn in Hin.
  repeat (destruct Hin as [[= <- <-]|Hin];
          [cbv [directions String.eqb Ascii.eqb Bool.eqb] in Hd;
           injection Hd as <-|]); [..|destruct Hin];
    unfold calculateYaw; cbn [Vector3.scale Vector3.x Vector3.y Vector3.z].
  - transitivity (2 * 45 - 90); [apply yaw_value | lra].
    atan2_eval; try nra.
  - transitivity (4 * 45 - 90); [apply yaw_value | lra].
    atan2_eval; try nra. replace (0 / -1) with 0 by field. rewrite atan_0. lra.
  - transitivity (-2 * 45 - 90); [apply yaw_value | lra].
    atan2_eval; try nra.
  - transitivity (0 * 45 - 90); [apply yaw_value | lra].
    atan2_eval; try nra. replace (0 / 1) with 0 by field. rewrite atan_0. lra.
  - transitivity (1 * 45 - 90); [apply yaw_value | lra].
    atan2_eval; try nra. rewrite Hdiv1, atan_1. lra.
  - transitivity (3 * 45 - 90); [apply yaw_value | lra].
    atan2_eval; try nra. rewrite Hdiv3, atan_m1. lra.
  - transitivity (-3 * 45 - 90); [apply yaw_value | lra].
    atan2_eval; try nra. rewrite Hdiv4, atan_1. lra.
  - transitivity (-1 * 45 - 90); [apply yaw_value | lra].
    atan2_eval; try nra. rewrite Hdiv2, atan_m1. lra.
Qed.

(** X6: [calculateYaw] does not change when the vector is scaled by a
    positive factor, its result lies in (-270, 90], and for a positive
    speed the yaw of each direction's impulse is the one of the world's
    convention: south 0, west 90, north -180, east -90, and the diagonals
    in between. *)
Theorem yaw_of_directions (speed : R) :
  0 < speed ->
  (forall v, calculateYaw (Vector3.scale v speed) = calculateYaw v)
  /\ (forall v, -270 < calculateYaw v <= 90)
  /\ (forall name d yaw,
        directions name = Some d -> In (name, yaw) direction_yaws ->
        calculateYaw (Vector3.scale d speed) = yaw).
Proof.
  intros Hs. split; [|split].
  - intros v. now apply calculateYaw_scale.
  - apply calculateYaw_range.
  - intros name d yaw Hd Hin. rewrite calculateYaw_scale by assumption.
    now apply (yaw_table name).
Qed.

Lemma yaw_of_directions_witness :
  calculateYaw (Vector3.scale (Vector3.mk 0 0 (-1)) 0.1) = -180.
Proof.
  apply (proj2 (proj2 (yaw_of_directions 0.1 ltac:(lra))) "north").
  - reflexivity.
  - right. right. left. reflexivity.
Defined.

Local Close Scope string_scope.

(** ** Running the promise jobs *)

Lemma drain_fuel_nil (fuel : nat) (s : State) :
  jobs s = [] -> drain_fuel fuel s = s.
Proof. intros H. destruct fuel; cbn; [reflexivity | now rewrite H]. Qed.

Lemma drain_nil (s : State) : jobs s = [] -> drain s = s.
Proof. apply drain_fuel_nil. Qed.

Lemma drain_fuel_cons (fuel : nat) (s : State) (j : Job) (js : list Job) :
  jobs s = j :: js ->
  drain_fuel (S fuel) s
  = drain_fuel fuel (runJob j (with_promises (promises s) js s)).
Proof. intros H. cbn. now rewrite H. Qed.

Ltac eval_host :=
  lazy -[Rlt_dec Rle_dec Rplus Rmult Rminus Rdiv Ropp Rinv sqrt IZR atan PI
         Zfloor Math_floor Math_SQRT1_2 Math_atan2 calculateYaw Rltb
         Vector3.center Vector3.scale Vector3.length Vector3.subtract
         spread default].

Lemma oneMove_eq e cfg options h direction distance :
  oneMove e cfg options h direction distance
  = drain_fuel 1
      (moveStep {| leg_direction := direction; leg_distance := distance;
                   leg_config := spread (spread {| canJump := Some (Some true) |} cfg)
                                   options |} 1 (oneMove_queued e cfg h)).
Proof.
  unfold oneMove, run, fold_left, step.
  match goal with
  | |- drain ?T = _ =>
      let T' := eval lazy -[Rlt_dec Rle_dec Rplus Rmult Rminus Rdiv Ropp Rinv
                             sqrt IZR spread drain moveStep] in T in
      change T with T'
  end.
  unfold drain.
  match goal with
  | |- drain_fuel ?n _ = _ =>
      let n' := eval lazy in n in change n with n'
  end.
  erewrite drain_fuel_cons by reflexivity. reflexivity.
Qed.

Lemma oneMove_zero e cfg options h direction distance mc d :
  isValid e = true -> movement e = Some mc ->
  directions direction = Some d -> distance <= 0 ->
  oneMove e cfg options h direction distance
  = leg_ready d (default 0.1 (defaultValue mc)) distance
      (spread (spread {| canJump := Some (Some true) |} cfg) options) 1
      (oneMove_queued e cfg h).
Proof.
  intros Hv Hm Hd Hle. rewrite oneMove_eq.
  unfold moveStep, aborted. cbn [oneMove_queued manager entity isStopped callbacks onStart
    leg_direction leg_distance leg_config]. rewrite Hv. cbn [orb negb].
  rewrite (executeMove_ready _ _ _ _ _ mc d) by assumption.
  rewrite (updateRotation_done 0 _
             {| env_distance := distance;
         env_canJump := canJump_value (spread (spread {| canJump := Some (Some true) |} cfg)
                                   options);
         env_direction := d;
         impulseVector := Vector3.scale d (default 0.1 (defaultValue mc));
         startPosition := Vector3.center (location e);
         distanceTraveled := 0;
         climbing := false;
         wasOnGround := isOnGround e;
         resolve := 1%nat |}).
  - apply drain_fuel_nil. reflexivity.
  - reflexivity.
  - unfold aborted, leg_ready. cbn. now rewrite Hv.
  - cbn. exact Hle.
Qed.

(** [oneMove] for a leg with a target above zero. *)
Lemma oneMove_pos e cfg options h direction distance mc d :
  isValid e = true -> movement e = Some mc ->
  directions direction = Some d -> 0 < distance ->
  oneMove e cfg options h direction distance
  = snd (system_run (UpdateRotation 0)
           (runCommand_actionbar
              (setRotation 0
                 (calculateYaw (Vector3.scale d (default 0.1 (defaultValue mc))))
                 (leg_ready d (default 0.1 (defaultValue mc)) distance
                    (spread (spread {| canJump := Some (Some true) |} cfg) options) 1
                    (oneMove_queued e cfg h))))).
Proof.
  intros Hv Hm Hd Hpos. rewrite oneMove_eq.
  unfold moveStep, aborted. cbn [oneMove_queued manager entity isStopped callbacks onStart
    leg_direction leg_distance leg_config]. rewrite Hv. cbn [orb negb].
  rewrite (executeMove_ready _ _ _ _ _ mc d) by assumption.
  rewrite (updateRotation_continue 0 _
             {| env_distance := distance;
         env_canJump := canJump_value (spread (spread {| canJump := Some (Some true) |} cfg)
                                   options);
         env_direction := d;
         impulseVector := Vector3.scale d (default 0.1 (defaultValue mc));
         startPosition := Vector3.center (location e);
         distanceTraveled := 0;
         climbing := false;
         wasOnGround := isOnGround e;
         resolve := 1%nat |}).
  - apply drain_fuel_nil. reflexivity.
  - reflexivity.
  - unfold aborted, leg_ready. cbn. now rewrite Hv.
  - cbn. exact Hpos.
Qed.

Lemma then_frame (p : PromiseId) (f : PromiseId -> Reaction) (s : State) :
  manager (snd (then_ p f s)) = manager s
  /\ entity (snd (then_ p f s)) = entity s
  /\ scheduled (snd (then_ p f s)) = scheduled s
  /\ nextHandle (snd (then_ p f s)) = nextHandle s
  /\ legs (snd (then_ p f s)) = legs s
  /\ trace (snd (then_ p f s)) = trace s.
Proof.
  unfold then_. destruct (promises s !! p) as [pr|]; [|cbn; tauto].
  destruct (pstate pr); cbn; tauto.
Qed.

Lemma then_pending (p : PromiseId) (f : PromiseId -> Reaction) (s : State)
  (pr : Promise) :
  promises s !! p = Some pr -> pstate pr = Pending ->
  then_ p f s
  = (length (promises s),
     with_promises
       (<[p := {| pstate := Pending;
                  reactions := reactions pr ++ [f (length (promises s))];
                  origin := origin pr |}]>
          (promises s
           ++ [new_promise (origin_of (f (length (promises s))) p)]))
       (jobs s) s).
Proof. intros Hp Hst. unfold then_. now rewrite Hp, Hst. Qed.

Lemma then_promises (p : PromiseId) (f : PromiseId -> Reaction) (s : State) :
  let s' := snd (then_ p f s) in
  length (promises s') = S (length (promises s))
  /\ (forall q, (q < length (promises s))%nat ->
                state_of s' q = state_of s q)
  /\ state_of s' (length (promises s)) = Some Pending.
Proof.
  cbv zeta. unfold then_, state_of.
  destruct (promises s !! p) as [pr|] eqn:Hp; [destruct (pstate pr) eqn:Hst|];
    cbn; rewrite ?length_insert, ?length_app; cbn.
  - split; [lia|]. split.
    + intros q Hq. destruct (decide (q = p)) as [->|Hne].
      * rewrite list_lookup_insert_eq by (rewrite length_app; cbn; lia).
        rewrite Hp. cbn. now rewrite Hst.
      * rewrite list_lookup_insert_ne by congruence.
        now rewrite lookup_app_l by assumption.
    + apply lookup_lt_Some in Hp.
      rewrite list_lookup_insert_ne by lia.
      now rewrite list_lookup_middle.
  - split; [lia|]. split.
    + intros q Hq. now rewrite lookup_app_l by assumption.
    + now rewrite list_lookup_middle.
  - split; [lia|]. split.
    + intros q Hq. now rewrite lookup_app_l by assumption.
    + now rewrite list_lookup_middle.
  - split; [lia|]. split.
    + intros q Hq. now rewrite lookup_app_l by assumption.
    + now rewrite list_lookup_middle.
Qed.

Lemma settle_fresh (t : PromiseId) (st : PromiseState) (s : State) (o : Origin) :
  promises s !! t = Some (new_promise o) ->
  jobs (settle t st s) = jobs s
  /\ state_of (settle t st s) t = Some st
  /\ length (promises (settle t st s)) = length (promises s).
Proof.
  intros Ht. unfold settle, state_of. rewrite Ht. cbn.
  rewrite app_nil_r, length_insert.
  rewrite list_lookup_insert_eq by (eapply lookup_lt_Some; eassumption).
  now repeat split.
Qed.

Lemma settle_pstate (t : PromiseId) (st : PromiseState) (s : State)
  (p : PromiseId) (pr : Promise) :
  promises (settle t st s) !! p = Some pr ->
  pstate pr = st \/ promises s !! p = Some pr.
Proof.
  unfold settle. destruct (promises s !! t) as [tr|] eqn:Ht; [|now right].
  destruct (pstate tr); try (now right). cbn.
  destruct (decide (p = t)) as [->|Hne].
  - rewrite list_lookup_insert_eq by (eapply lookup_lt_Some; eassumption).
    intros [= <-]. now left.
  - rewrite list_lookup_insert_ne by congruence. now right.
Qed.

Lemma completes_app (t1 t2 : list Effect) :
  completes (t1 ++ t2) = (completes t1 + completes t2)%nat.
Proof. apply count_app. Qed.

(** ** on *)

(** X7: [on] ignores an event name that is not one of the three
    callbacks; for one of the three it replaces the handler, the last
    registration winning; registrations for different events commute; and
    nothing but the callbacks is touched. *)
Theorem on_registration (s : State) (event : string) (cb cb' : option HandlerId) :
  (event <> "onStart"%string -> event <> "onStop"%string ->
   event <> "onComplete"%string ->
   on event cb s = s)
  /\ on event cb' (on event cb s) = on event cb' s
  /\ (forall event' : string,
        event' <> event ->
        on event cb (on event' cb' s) = on event' cb' (on event cb s))
  /\ onStart (callbacks (manager (on "onStart" cb s))) = cb
  /\ onStop (callbacks (manager (on "onStop" cb s))) = cb
  /\ onComplete (callbacks (manager (on "onComplete" cb s))) = cb
  /\ (let s' := on event cb s in
      isStopped (manager s') = isStopped (manager s)
      /\ intervalHandles (manager s') = intervalHandles (manager s)
      /\ config (manager s') = config (manager s)
      /\ queue (manager s') = queue (manager s)
      /\ entity s' = entity s /\ scheduled s' = scheduled s
      /\ promises s' = promises s /\ jobs s' = jobs s
      /\ legs s' = legs s /\ trace s' = trace s).
Proof.
  split; [|split; [|split; [|split; [|split; [|split]]]]].
  - intros H1 H2 H3. unfold on.
    destruct (String.eqb_spec event "onStart"); [contradiction|].
    destruct (String.eqb_spec event "onStop"); [contradiction|].
    destruct (String.eqb_spec event "onComplete"); [contradiction|].
    reflexivity.
  - unfold on.
    destruct (String.eqb_spec event "onStart"); [reflexivity|].
    destruct (String.eqb_spec event "onStop"); [reflexivity|].
    destruct (String.eqb_spec event "onComplete"); reflexivity.
  - intros event' Hne. unfold on.
    destruct (String.eqb_spec event "onStart") as [E1|N1];
      destruct (String.eqb_spec event' "onStart") as [E1'|N1'];
      destruct (String.eqb_spec event "onStop") as [E2|N2];
      destruct (String.eqb_spec event' "onStop") as [E2'|N2'];
      destruct (String.eqb_spec event "onComplete") as [E3|N3];
      destruct (String.eqb_spec event' "onComplete") as [E3'|N3'];
      try congruence; reflexivity.
  - reflexivity.
  - reflexivity.
  - reflexivity.
  - cbv zeta. unfold on.
    destruct (String.eqb event "onStart"); [cbn; tauto|].
    destruct (String.eqb event "onStop"); [cbn; tauto|].
    destruct (String.eqb event "onComplete"); cbn; tauto.
Qed.

Lemma on_registration_witness :
  on "onTick" (Some 7%nat) Scenario.oneLeg = Scenario.oneLeg.
Proof.
  apply (proj1 (on_registration Scenario.oneLeg "onTick" (Some 7%nat) None));
    discriminate.
Defined.

(** ** A direction name outside the table *)

(** X8: a queued step whose direction is not in the table calls [onStart]
    and then throws in the set-up, before anything is written: its promise
    is rejected, and the entity, the closure environments, the scheduler
    and the manager are as before. *)
Theorem unknown_direction_rejects (s : State) (leg : Leg) (t : PromiseId)
  (mc : MovementComponent) :
  isStopped (manager s) = false -> isValid (entity s) = true ->
  movement (entity s) = Some mc ->
  directions (leg_direction leg) = None ->
  let s' := moveStep leg t s in
  (state_of s t = Some Pending -> state_of s' t = Some Rejected)
  /\ trace s' = trace s ++ onStart_call s leg
  /\ entity s' = entity s /\ legs s' = legs s
  /\ scheduled s' = scheduled s /\ manager s' = manager s.
Proof.
  intros Hs Hv Hm Hd s'. subst s'. unfold moveStep, aborted, onStart_call.
  rewrite Hs, Hv. cbn [orb negb].
  destruct (onStart (callbacks (manager s))) as [h|].
  - rewrite (executeMove_no_direction _ _ _ _ _ mc) by assumption.
    rewrite settle_trace, settle_entity, settle_legs, settle_scheduled,
      settle_manager. cbn. repeat split; try reflexivity.
    intros Hp. now apply (state_of_settle_eq t Rejected (emit _ s)).
  - rewrite (executeMove_no_direction _ _ _ _ _ mc) by assumption.
    rewrite settle_trace, settle_entity, settle_legs, settle_scheduled,
      settle_manager, app_nil_r. repeat split; try reflexivity.
    intros Hp. now apply state_of_settle_eq.
Qed.

Lemma unknown_direction_rejects_witness :
  let s := move "up" 5 Scenario.noOptions
             (construct Scenario.agent Scenario.noOptions) in
  let leg := {| leg_direction := "up"; leg_distance := 5;
                leg_config := Scenario.noOptions |} in
  state_of (moveStep leg 1 s) 1 = Some Rejected.
Proof.
  intros s leg.
  apply (proj1 (unknown_direction_rejects s leg 1%nat
                  {| defaultValue := Some 0.1; currentValue := 0.1 |}
                  eq_refl eq_refl eq_refl eq_refl)).
  reflexivity.
Defined.

(** ** The set-up of a leg *)

(** X9: the set-up of a leg, for a valid agent with a movement component
    and a direction of the table: the speed is the component's default
    value, or 0.1 where that is undefined; one closure environment is
    added, with the target, [canJump], the direction, the impulse, the
    block centre of the agent as first sample and nothing travelled; the
    movement speed is set to zero and the rotation to the yaw of the
    impulse, the location is not touched; no promise is settled; the
    movement loop is registered and tracked.  For a target above zero the
    rotation loop runs once and registers itself for the next tick; for a
    target of zero or less it does nothing and is never registered. *)
Theorem leg_set_up (s : State) direction distance options (t : PromiseId)
  (mc : MovementComponent) (d : Vector3.t) :
  isStopped (manager s) = false -> isValid (entity s) = true ->
  movement (entity s) = Some mc -> directions direction = Some d ->
  let speed := default 0.1 (defaultValue mc) in
  let yaw := calculateYaw (Vector3.scale d speed) in
  let interval := {| handle := nextHandle s;
                     callback := MoveEntity (length (legs s));
                     period := Some 5%nat |} in
  let s' := executeMove direction distance options t s in
  legs s'
  = legs s ++ [ {| env_distance := distance;
                   env_canJump := canJump_value options;
                   env_direction := d;
                   impulseVector := Vector3.scale d speed;
                   startPosition := Vector3.center (location (entity s));
                   distanceTraveled := 0;
                   climbing := false;
                   wasOnGround := isOnGround (entity s);
                   resolve := t |} ]
  /\ movement (entity s')
     = Some {| defaultValue := defaultValue mc; currentValue := 0 |}
  /\ rotation (entity s') = (0, yaw)
  /\ location (entity s') = location (entity s)
  /\ (0 < speed -> yaw = calculateYaw d)
  /\ promises s' = promises s /\ jobs s' = jobs s
  /\ intervalHandles (manager s') = intervalHandles (manager s) ++ [nextHandle s]
  /\ (0 < distance ->
      trace s' = trace s ++ [SetCurrentValue 0; SetRotation 0 yaw;
                             SetRotation 0 yaw; RunCommand 0 yaw]
      /\ scheduled s'
         = scheduled s
           ++ [interval;
               {| handle := S (nextHandle s);
                  callback := UpdateRotation (length (legs s));
                  period := None |}])
  /\ (distance <= 0 ->
      trace s' = trace s ++ [SetCurrentValue 0; SetRotation 0 yaw]
      /\ scheduled s' = scheduled s ++ [interval]).
Proof.
  intros Hs Hv Hm Hd speed yaw interval s'. subst s'.
  rewrite (executeMove_ready _ _ _ _ _ mc d) by assumption.
  fold speed.
  assert (Hleg : legs (leg_ready d speed distance options t s)
                 !! length (legs s)
                 = Some {| env_distance := distance;
                           env_canJump := canJump_value options;
                           env_direction := d;
                           impulseVector := Vector3.scale d speed;
                           startPosition := Vector3.center (location (entity s));
                           distanceTraveled := 0;
                           climbing := false;
                           wasOnGround := isOnGround (entity s);
                           resolve := t |})
    by (unfold leg_ready; cbn; now apply list_lookup_middle).
  assert (Ha : aborted (leg_ready d speed distance options t s) = false)
    by (unfold aborted, leg_ready; cbn; now rewrite Hs, Hv).
  destruct (Rlt_dec 0 distance) as [Hpos|Hpos].
  - erewrite updateRotation_continue; [|exact Hleg|exact Ha|exact Hpos].
    cbn. rewrite Hm. cbn. rewrite <- !app_assoc. cbn.
    repeat split; try reflexivity; try lra.
    intros Hsp. subst yaw. now apply calculateYaw_scale.
  - apply Rnot_lt_le in Hpos.
    erewrite updateRotation_done; [|exact Hleg|exact Ha|exact Hpos].
    cbn. rewrite Hm. cbn. rewrite <- !app_assoc. cbn.
    repeat split; try reflexivity; try lra.
    intros Hsp. subst yaw. now apply calculateYaw_scale.
Qed.

Lemma leg_set_up_witness :
  let s := executeMove "north" 5 Scenario.noOptions 1
             (construct Scenario.agent Scenario.noOptions) in
  length (legs s) = 1%nat
  /\ intervalHandles (manager s) = [0%nat]
  /\ scheduled s
     = [{| handle := 0%nat; callback := MoveEntity 0; period := Some 5%nat |};
        {| handle := 1%nat; callback := UpdateRotation 0; period := None |}].
Proof.
  intros s.
  destruct (leg_set_up (construct Scenario.agent Scenario.noOptions)
              "north"%string 5 Scenario.noOptions 1%nat
              {| defaultValue := Some 0.1; currentValue := 0.1 |}
              (Vector3.mk 0 0 (-1)) eq_refl eq_refl eq_refl eq_refl)
    as (H1 & _ & _ & _ & _ & _ & _ & H8 & H9 & _).
  destruct (H9 ltac:(lra)) as [_ H].
  subst s. rewrite H1, H8, H. repeat split.
Defined.

(** ** Ticks of the movement loop that measure nothing *)

(** X10: the other rules of the movement loop.  While the leg climbs and
    the agent is in the air, half the horizontal impulse is applied; when
    the climbing agent is on the ground again the flag is cleared and
    nothing else happens on that tick; an agent in the air that is not
    climbing gets nothing.  On none of these ticks is a promise settled, a
    handle cleared, the entity written, or the distance travelled or the
    last sample changed. *)
Theorem tick_without_advance (s : State) (L : LegId) (e : LegEnv) :
  legs s !! L = Some e ->
  isStopped (manager s) = false -> isValid (entity s) = true ->
  let s' := moveEntity L s in
  let half := Vector3.mk (Vector3.x (impulseVector e) * 0.5) 0
                         (Vector3.z (impulseVector e) * 0.5) in
  (climbing e = true -> isOnGround (entity s) = false ->
   trace s' = trace s ++ [ApplyImpulse half]
   /\ legs s' = <[L := set_wasOnGround false e]> (legs s))
  /\ (climbing e = true -> isOnGround (entity s) = true ->
      trace s' = trace s
      /\ legs s' = <[L := set_wasOnGround true (set_climbing false e)]> (legs s))
  /\ (climbing e = false -> isOnGround (entity s) = false ->
      trace s' = trace s
      /\ legs s' = <[L := set_wasOnGround false e]> (legs s))
  /\ (climbing e = true \/ isOnGround (entity s) = false ->
      promises s' = promises s /\ jobs s' = jobs s
      /\ manager s' = manager s /\ scheduled s' = scheduled s
      /\ entity s' = entity s
      /\ exists e', legs s' !! L = Some e'
                    /\ distanceTraveled e' = distanceTraveled e
                    /\ startPosition e' = startPosition e).
Proof.
  intros Hleg Hs Hv s' half.
  assert (Ha : aborted s = false) by (unfold aborted; now rewrite Hs, Hv).
  assert (HL : (L < length (legs s))%nat) by (eapply lookup_lt_Some; eassumption).
  assert (Halt : forall f, alter f L (legs s) = <[L := f e]> (legs s)).
  { intros f. apply list_eq. intros i.
    destruct (decide (i = L)) as [->|Hne].
    - rewrite list_lookup_alter_eq, list_lookup_insert_eq, Hleg by assumption.
      reflexivity.
    - now rewrite list_lookup_alter_ne, list_lookup_insert_ne by congruence. }
  assert (Halt2 : forall f g,
             alter f L (alter g L (legs s)) = <[L := f (g e)]> (legs s)).
  { intros f g. rewrite list_alter_alter_eq. apply (Halt (f ∘ g)). }
  assert (C1 : climbing e = true -> isOnGround (entity s) = false ->
               moveEntity L s
               = modify_leg L (set_wasOnGround false) (applyImpulse half s)).
  { intros Hc Hg. apply (moveEntity_climbing_airborne s L e Hleg Ha);
      [|assumption|assumption]. rewrite Hc, Hg. now rewrite !andb_false_r. }
  assert (C2 : climbing e = true -> isOnGround (entity s) = true ->
               moveEntity L s
               = modify_leg L (set_wasOnGround true)
                   (modify_leg L (set_climbing false) s)).
  { intros Hc Hg. apply (moveEntity_climb_end s L e Hleg Ha);
      [|assumption|assumption]. rewrite Hc. now rewrite !andb_false_r. }
  assert (C3 : climbing e = false -> isOnGround (entity s) = false ->
               moveEntity L s = modify_leg L (set_wasOnGround false) s).
  { intros Hc Hg. apply (moveEntity_idle s L e Hleg Ha);
      [|assumption|assumption]. rewrite Hg. now rewrite !andb_false_r. }
  split; [|split; [|split]].
  - intros Hc Hg. subst s'. rewrite (C1 Hc Hg). cbn. now rewrite Halt.
  - intros Hc Hg. subst s'. rewrite (C2 Hc Hg). cbn. now rewrite Halt2.
  - intros Hc Hg. subst s'. rewrite (C3 Hc Hg). cbn. now rewrite Halt.
  - intros Hor. subst s'.
    destruct (climbing e) eqn:Hc; destruct (isOnGround (entity s)) eqn:Hg;
      try (destruct Hor; discriminate).
    + rewrite (C2 eq_refl eq_refl). cbn. rewrite Halt2.
      rewrite list_lookup_insert_eq by assumption.
      repeat split. eexists. now split.
    + rewrite (C1 eq_refl eq_refl). cbn. rewrite Halt.
      rewrite list_lookup_insert_eq by assumption.
      repeat split. eexists. now split.
    + rewrite (C3 eq_refl eq_refl). cbn. rewrite Halt.
      rewrite list_lookup_insert_eq by assumption.
      repeat split. eexists. now split.
Qed.

Lemma tick_without_advance_witness :
  let s := world airborne Scenario.oneLeg in
  trace (moveEntity 0 s) = trace s.
Proof.
  intros s.
  assert (Hleg : legs s !! 0%nat = Some Scenario.northEnv)
    by (subst s; now rewrite oneLeg_eq).
  assert (Hs : isStopped (manager s) = false)
    by (subst s; now rewrite oneLeg_eq).
  destruct (tick_without_advance s 0%nat Scenario.northEnv Hleg Hs eq_refl)
    as (_ & _ & H & _).
  apply H; reflexivity.
Defined.

(** ** One run of the rotation loop *)

(** X11: a run of the rotation loop that is not aborted settles nothing
    and leaves the handle list alone.  While the target is not reached it
    sets the rotation to pitch zero and the yaw of the impulse, reports it,
    and registers itself again under a new handle, the old registration
    being used up; once the target is reached it does nothing and is not
    registered again. *)
Theorem rotation_loop (s : State) (h : Handle) (L : LegId) (e : LegEnv) :
  scheduled_as s h
  = Some {| handle := h; callback := UpdateRotation L; period := None |} ->
  legs s !! L = Some e ->
  isStopped (manager s) = false -> isValid (entity s) = true ->
  let yaw := calculateYaw (impulseVector e) in
  let s' := fire h s in
  promises s' = promises s /\ jobs s' = jobs s /\ legs s' = legs s
  /\ intervalHandles (manager s') = intervalHandles (manager s)
  /\ (distanceTraveled e < env_distance e ->
      scheduled s'
      = scheduled (clearRun h s)
        ++ [{| handle := nextHandle s; callback := UpdateRotation L;
               period := None |}]
      /\ nextHandle s' = S (nextHandle s)
      /\ trace s' = trace s ++ [SetRotation 0 yaw; RunCommand 0 yaw]
      /\ rotation (entity s') = (0, yaw))
  /\ (env_distance e <= distanceTraveled e ->
      scheduled s' = scheduled (clearRun h s)
      /\ trace s' = trace s /\ entity s' = entity s).
Proof.
  intros Hf Hleg Hs Hv yaw s'. subst s'. unfold fire.
  unfold scheduled_as in Hf. rewrite Hf. cbn [period callback invoke].
  assert (Ha : aborted (clearRun h s) = false)
    by (unfold aborted; cbn; now rewrite Hs, Hv).
  destruct (Rlt_dec (distanceTraveled e) (env_distance e)) as [Hd|Hd].
  - rewrite (updateRotation_continue L (clearRun h s) e Hleg Ha Hd). cbn.
    rewrite <- app_assoc.
    repeat split; try reflexivity; lra.
  - apply Rnot_lt_le in Hd.
    rewrite (updateRotation_done L (clearRun h s) e Hleg Ha Hd). cbn.
    repeat split; try reflexivity; lra.
Qed.

Lemma rotation_loop_witness :
  nextHandle (fire 1 Scenario.oneLeg) = S (nextHandle Scenario.oneLeg).
Proof.
  assert (Hf : scheduled_as Scenario.oneLeg 1
               = Some {| handle := 1%nat; callback := UpdateRotation 0;
                         period := None |})
    by now rewrite oneLeg_eq.
  assert (Hleg : legs Scenario.oneLeg !! 0%nat = Some Scenario.northEnv)
    by now rewrite oneLeg_eq.
  assert (Hs : isStopped (manager Scenario.oneLeg) = false)
    by now rewrite oneLeg_eq.
  assert (Hv : isValid (entity Scenario.oneLeg) = true)
    by now rewrite oneLeg_eq.
  destruct (rotation_loop Scenario.oneLeg 1%nat 0%nat Scenario.northEnv
              Hf Hleg Hs Hv) as (_ & _ & _ & _ & H & _).
  apply H. cbn. lra.
Defined.

(** ** A leg resolved twice *)

(** X12: both loops of a leg call [resolve] when they find the manager
    stopped or the agent invalid; the second call finds the promise
    settled and changes nothing: no promise, no job, no effect. *)
Theorem second_resolve_is_harmless (s : State) (L : LegId) (e : LegEnv) :
  legs s !! L = Some e ->
  state_of s (resolve e) <> Some Pending ->
  isStopped (manager s) = true \/ isValid (entity s) = false ->
  (promises (moveEntity L s) = promises s
   /\ jobs (moveEntity L s) = jobs s
   /\ trace (moveEntity L s) = trace s
   /\ legs (moveEntity L s) = legs s
   /\ entity (moveEntity L s) = entity s)
  /\ (promises (updateRotation L s) = promises s
      /\ jobs (updateRotation L s) = jobs s
      /\ trace (updateRotation L s) = trace s
      /\ legs (updateRotation L s) = legs s
      /\ entity (updateRotation L s) = entity s).
Proof.
  intros Hleg Hp Ha. apply aborted_iff in Ha.
  rewrite (moveEntity_abort s L e Hleg Ha), (updateRotation_abort L s e Hleg Ha).
  rewrite settle_settled by (now rewrite clearAllIntervals_eq).
  rewrite clearAllIntervals_eq. cbn. tauto.
Qed.

Lemma second_resolve_is_harmless_witness :
  let s := run Scenario.oneLeg [World Scenario.removed; Fire 0%nat] in
  promises (updateRotation 0 s) = promises s.
Proof.
  intros s.
  assert (E : legs s !! 0%nat = Some Scenario.northEnv
              /\ state_of s 1 = Some Fulfilled
              /\ isValid (entity s) = false).
  { subst s. rewrite oneLeg_eq. eval_host. repeat split. }
  destruct E as (H1 & H2 & H3).
  apply (second_resolve_is_harmless s 0%nat Scenario.northEnv H1).
  - cbn [resolve Scenario.northEnv]. rewrite H2. discriminate.
  - now right.
Defined.

(** ** A rejection runs down the chain *)

(** X13: in every state a run reaches, a promise chained onto a rejected
    promise is itself rejected and no leg was set up for it: once a set-up
    has thrown, every step chained after it is skipped; and the promise of
    a [start] is rejected only if the promise it was chained onto is. *)
Theorem rejection_runs_down_the_chain (e : Entity) (cfg : MovementConfig)
  (inputs : list Input) :
  let s := run (construct e cfg) inputs in
  forall t tr p,
    promises s !! t = Some tr -> parent tr = Some p ->
    (pstate_at (promises s) p = Some Rejected ->
     pstate tr = Rejected /\ t ∉ resolve <$> legs s)
    /\ (pstate tr = Rejected -> is_start (origin tr) = true ->
        pstate_at (promises s) p = Some Rejected).
Proof.
  intros s t tr p Ht Hp.
  pose proof (reachable_inv e cfg inputs) as Hinv. fold s in Hinv.
  assert (Hj : jobs s = []) by (subst s; now apply run_quiescent).
  pose proof (inv_chain _ _ _ _ Hinv) as Hc. cbn in Hc. rewrite Hj in Hc.
  destruct (ci_order _ _ _ _ Hc t tr p Ht Hp) as (_ & G2 & G3).
  split.
  - intros Hr.
    assert (Hnl : t ∉ resolve <$> legs s).
    { intros Hl. destruct (ci_legs _ _ _ _ Hc t Hl) as (_ & tr' & p' & E1 & E2 & E3).
      rewrite Ht in E1. injection E1 as <-.
      unfold parent in Hp. rewrite E2 in Hp. injection Hp as <-. congruence. }
    split; [|assumption].
    destruct (pstate tr) eqn:Hst; [|specialize (G2 eq_refl); congruence|reflexivity].
    exfalso.
    destruct (ci_covered _ _ _ _ Hc t tr Ht Hst)
      as [(j & Hin & _)|[(x & xr & r & Hx & Hrx & Heq)|Hl]].
    + inversion Hin.
    + destruct (ci_waiting _ _ _ _ Hc x xr r Hx Hrx)
        as (Hxp & _ & tr' & Ht' & _ & Hot).
      rewrite Heq, Ht in Ht'. injection Ht' as <-.
      apply parent_origin_of in Hot. assert (x = p) by congruence. subst x.
      unfold pstate_at in Hr. rewrite Hx in Hr. cbn in Hr. congruence.
    + contradiction.
  - intros Hst Hstart. destruct (G3 Hst) as [G|[_ G]]; congruence.
Qed.

Lemma rejection_runs_down_the_chain_witness :
  let s := run (construct Scenario.bareAgent Scenario.noOptions)
             [Script [CallMove "north" 5 Scenario.noOptions; CallStart]] in
  exists tr, promises s !! 2%nat = Some tr /\ pstate tr = Rejected.
Proof.
  intros s.
  set (tr := {| pstate := Rejected; reactions := []; origin := ThenStart 1 |}).
  assert (Ht : promises s !! 2%nat = Some tr) by (subst s tr; now eval_host).
  exists tr. split; [exact Ht|].
  apply (proj1 (rejection_runs_down_the_chain Scenario.bareAgent
                  Scenario.noOptions _ 2%nat tr 1%nat Ht eq_refl)).
  subst s. now eval_host.
Defined.

(** ** After [stop], the rotation loop lets the chain drain *)

Lemma runJob_aborted_none_rejected (c : bool) (since : option (list Effect))
  (j : Job) (s : State) :
  state_inv c since (Some j) s -> aborted s = true ->
  none_rejected s -> none_rejected (runJob j s).
Proof.
  intros Hinv Ha Hn p pr Hp.
  destruct j as [[leg t|t]|r]; cbn in Hp.
  - rewrite (moveStep_abort leg t s Ha) in Hp.
    apply settle_pstate in Hp as [Hp|Hp]; [congruence|].
    rewrite clearAllIntervals_eq in Hp. now apply (Hn p).
  - unfold completeStep in Hp.
    apply settle_pstate in Hp as [Hp|Hp]; [congruence|].
    destruct (onComplete (callbacks (manager s))); now apply (Hn p).
  - exfalso.
    destruct (ci_jobs _ _ _ _ (inv_chain _ _ _ _ Hinv) (Skip r))
      as (tr & q & _ & _ & _ & Hq); [cbn; left|].
    cbn in Hq. unfold pstate_at in Hq.
    destruct (promises s !! q) as [qr|] eqn:Hqr; [|discriminate].
    cbn in Hq. injection Hq as Hq. now apply (Hn q qr).
Qed.

Lemma drain_fuel_aborted_none_rejected (c : bool) (since : option (list Effect))
  (fuel : nat) (s : State) :
  state_inv c since None s -> aborted s = true ->
  none_rejected s -> none_rejected (drain_fuel fuel s).
Proof.
  revert s. induction fuel as [|fuel IH]; intros s Hinv Ha Hn; [assumption|].
  cbn. destruct (jobs s) as [|j js] eqn:Hj; [assumption|].
  set (s0 := with_promises (promises s) js s).
  assert (Hinv0 : state_inv c since (Some j) s0) by now apply inv_pop.
  assert (Ha0 : aborted s0 = true) by exact Ha.
  apply IH.
  - now apply runJob_inv.
  - now rewrite (same_world_aborted _ _ (runJob_aborted j s0 Ha0)).
  - now apply (runJob_aborted_none_rejected c since).
Qed.

Lemma fulfilled_starts_all (ps : list Promise) :
  (forall p pr, ps !! p = Some pr -> pstate pr = Fulfilled) ->
  fulfilled_starts ps = starts ps.
Proof.
  intros H. unfold fulfilled_starts, starts.
  induction ps as [|pr ps IH]; [reflexivity|]. cbn.
  rewrite IH by (intros p pr' Hp; apply (H (S p)); exact Hp).
  unfold is_fulfilled_start. rewrite (H 0%nat pr eq_refl).
  now rewrite andb_true_r.
Qed.

(** X14: in a stopped manager with a leg unresolved, the only callback of
    that leg still scheduled is the rotation loop, which [stop] does not
    cancel.  Its next run resolves the leg, and within the same task every
    promise of the chain is settled without another leg being set up or
    the entity touched; [onComplete] has then been called once for each
    fulfilled promise of [start], and, where no set-up had thrown, for
    each [start] there was: a stopped run completes. *)
Theorem stop_lets_the_chain_drain (e : Entity) (cfg : MovementConfig)
  (h : HandlerId) (inputs : list Input) (hd : Handle) (sc : Scheduled)
  (le : LegEnv) :
  Forall (input_ok true) inputs ->
  let s := run (on "onComplete" (Some h) (construct e cfg)) inputs in
  isStopped (manager s) = true ->
  scheduled_as s hd = Some sc ->
  legs s !! leg_of (callback sc) = Some le ->
  pstate_at (promises s) (resolve le) = Some Pending ->
  let s' := step s (Fire hd) in
  period sc = None
  /\ callback sc = UpdateRotation (leg_of (callback sc))
  /\ (forall p pr, promises s' !! p = Some pr -> pstate pr <> Pending)
  /\ legs s' = legs s /\ entity s' = entity s
  /\ completes (trace s') = fulfilled_starts (promises s')
  /\ (none_rejected s ->
      (forall p pr, promises s' !! p = Some pr -> pstate pr = Fulfilled)
      /\ completes (trace s') = starts (promises s')).
Proof.
  intros Hok s Hst Hf Hleg Hpend s'.
  pose proof (counting_inv e cfg h inputs Hok) as Hinv. fold s in Hinv.
  assert (Hj : jobs s = []) by (subst s; now apply run_quiescent).
  assert (Ha : aborted s = true) by (apply aborted_iff; now left).
  assert (Hin : sc ∈ scheduled s).
  { unfold scheduled_as in Hf. apply find_some in Hf as [Hf _].
    now apply list_elem_of_In. }
  assert (Hper : period sc = None).
  { destruct (period sc) as [n|] eqn:Hp; [|reflexivity]. exfalso.
    pose proof (hi_tracked _ _ _ _ _ (inv_handles _ _ _ _ Hinv) sc Hin
                  ltac:(congruence)) as Ht.
    rewrite (hi_stopped _ _ _ _ _ (inv_handles _ _ _ _ Hinv) Hst) in Ht.
    inversion Ht. }
  assert (Hinv' : state_inv true None None s')
    by (apply step_inv; [assumption | intros _; exact I]).
  assert (Hall : forall p pr, promises s' !! p = Some pr -> pstate pr <> Pending)
    by now apply (abort_drains true None s hd sc le).
  pose proof (step_fire_aborted hd s Ha) as (He & _ & Hl).
  split; [assumption|]. split.
  { destruct (callback sc) as [L|L] eqn:Hcb; [|reflexivity]. exfalso.
    destruct (hi_move_loop _ _ _ _ _ (inv_handles _ _ _ _ Hinv) sc L Hin Hcb)
      as [Hp _]. congruence. }
  split; [assumption|]. split; [assumption|]. split; [assumption|].
  split; [apply (inv_count _ _ _ _ Hinv' eq_refl)|].
  intros Hn.
  assert (Hn' : none_rejected s').
  { unfold s', step, drain. cbn [task].
    apply (drain_fuel_aborted_none_rejected true None).
    - now apply fire_inv.
    - now rewrite (same_world_aborted _ _ (fire_aborted hd s Ha)).
    - destruct (fire_leg_abort s hd sc le Ha Hf Hleg) as (s0 & E1 & _ & _ & ->).
      intros p pr Hp. apply settle_pstate in Hp as [Hp|Hp]; [congruence|].
      rewrite clearAllIntervals_eq in Hp. cbn in Hp. rewrite E1 in Hp.
      now apply (Hn p). }
  assert (Hful : forall p pr, promises s' !! p = Some pr -> pstate pr = Fulfilled).
  { intros p pr Hp. specialize (Hall p pr Hp). specialize (Hn' p pr Hp).
    destruct (pstate pr); congruence. }
  split; [assumption|].
  rewrite <- (fulfilled_starts_all _ Hful).
  apply (inv_count _ _ _ _ Hinv' eq_refl).
Qed.

Lemma stop_lets_the_chain_drain_witness :
  let s := run (on "onComplete" (Some 7%nat)
                  (construct Scenario.agent Scenario.noOptions))
             [Script [CallMove "north" 5 Scenario.noOptions; CallStart];
              Script [CallStop]] in
  completes (trace (step s (Fire 1))) = starts (promises (step s (Fire 1))).
Proof.
  intros s.
  set (sc := {| handle := 1%nat; callback := UpdateRotation 0; period := None |}).
  assert (Es : s = step (oneMove Scenario.agent Scenario.noOptions
                           Scenario.noOptions 7 "north" 5) (Script [CallStop]))
    by (subst s; unfold oneMove, run; cbn [fold_left]; reflexivity).
  assert (Ep : promises s
               = [{| pstate := Fulfilled; reactions := []; origin := Resolved |};
                  {| pstate := Pending; reactions := [CompleteStep 2%nat];
                     origin := ThenMove 0 |};
                  {| pstate := Pending; reactions := []; origin := ThenStart 1 |}]).
  { rewrite Es.
    rewrite (oneMove_pos _ _ _ _ _ _
               {| defaultValue := Some 0.1; currentValue := 0.1 |}
               (Vector3.mk 0 0 (-1))) by (reflexivity || lra).
    now eval_host. }
  assert (E : isStopped (manager s) = true
              /\ scheduled_as s 1 = Some sc
              /\ legs s !! 0%nat = Some Scenario.northEnv).
  { rewrite Es.
    rewrite (oneMove_pos _ _ _ _ _ _
               {| defaultValue := Some 0.1; currentValue := 0.1 |}
               (Vector3.mk 0 0 (-1))) by (reflexivity || lra).
    subst sc. eval_host. repeat split. }
  destruct E as (H1 & H2 & H3).
  assert (H4 : pstate_at (promises s) 1 = Some Pending) by now rewrite Ep.
  assert (H5 : none_rejected s).
  { intros p pr Hp. rewrite Ep in Hp.
    destruct p as [|[|[|p]]]; cbn in Hp; try discriminate;
      injection Hp as <-; discriminate. }
  destruct (stop_lets_the_chain_drain Scenario.agent Scenario.noOptions 7%nat
              [Script [CallMove "north" 5 Scenario.noOptions; CallStart];
               Script [CallStop]] 1%nat sc Scenario.northEnv
              ltac:(repeat constructor) H1 H2 H3 H4)
    as (_ & _ & _ & _ & _ & _ & H).
  apply H. exact H5.
Defined.

(** ** A leg with a target of zero or less *)

Lemma stranded_then (n : nat) (f : PromiseId -> Reaction) (s : State) :
  stranded n s ->
  let r := then_ (queue (manager s)) f s in
  fst r = length (promises s)
  /\ manager (snd r) = manager s /\ scheduled (snd r) = scheduled s
  /\ jobs (snd r) = jobs s /\ trace (snd r) = trace s
  /\ length (promises (snd r)) = S (length (promises s))
  /\ forall p pr, promises (snd r) !! p = Some pr -> (1 <= p)%nat ->
                  pstate pr = Pending.
Proof.
  intros (H0 & H1 & H2 & H3 & H4 & H5 & H6). cbv zeta.
  destruct (lookup_lt_is_Some_2 (promises s) (queue (manager s)) (proj2 H5))
    as [qr Hq].
  rewrite (then_pending _ f s qr Hq (H6 _ _ Hq (proj1 H5))). cbn.
  repeat split.
  - rewrite length_insert, length_app. cbn. lia.
  - intros p pr Hp Hge.
    destruct (decide (p = queue (manager s))) as [->|Hne].
    + rewrite list_lookup_insert_eq in Hp by (rewrite length_app; cbn; lia).
      now injection Hp as <-.
    + rewrite list_lookup_insert_ne in Hp by congruence.
      apply lookup_app_Some in Hp as [Hp|[_ Hp]].
      * now apply (H6 p).
      * destruct (p - length (promises s))%nat; [|discriminate].
        cbn in Hp. now injection Hp as <-.
Qed.

Lemma stranded_call (n : nat) (c : Call) (s : State) :
  stranded n s -> stranded n (call c s).
Proof.
  intros Hs. pose proof Hs as (H0 & H1 & H2 & H3 & H4 & H5 & H6).
  destruct c as [event cb|direction distance options| |]; cbn [call].
  - unfold on.
    destruct (String.eqb event "onStart"); [now repeat split|].
    destruct (String.eqb event "onStop"); [now repeat split|].
    destruct (String.eqb event "onComplete"); now repeat split.
  - unfold move.
    match goal with
    | |- context [then_ _ ?f s] =>
        destruct (stranded_then n f s Hs) as (E1 & E2 & E3 & E4 & E5 & E6 & E7);
        set (r := then_ (queue (manager s)) f s) in *
    end.
    unfold stranded. cbn. rewrite E1, E2, E3, E4, E5, E6.
    repeat split; try assumption; lia.
  - unfold start.
    destruct (stranded_then n CompleteStep s Hs) as (E1 & E2 & E3 & E4 & E5 & E6 & E7).
    unfold stranded. rewrite E2, E3, E4, E5, E6.
    repeat split; try assumption; lia.
  - destruct (stop_fields s) as (_ & G2 & G3 & G4 & _ & G6 & _ & G8 & G9 & _).
    unfold stranded. rewrite G2, G3, G4, G6, G8, G9, H1, completes_app, H4.
    repeat split; try assumption; try lia.
    unfold onStop_call. now destruct (onStop (callbacks (manager s))).
Qed.

Lemma stranded_step (n : nat) (s : State) (i : Input) :
  stranded n s -> stranded n (step s i).
Proof.
  intros Hs. unfold step.
  assert (Ht : stranded n (task i s)).
  { destruct i as [calls|h|w]; cbn [task].
    - revert s Hs. induction calls as [|c calls IH]; intros s Hs; [assumption|].
      cbn. now apply IH, stranded_call.
    - unfold fire. rewrite (proj1 (proj2 Hs)). exact Hs.
    - exact Hs. }
  rewrite drain_nil; [assumption | apply Ht].
Qed.

Lemma stranded_run (n : nat) (inputs : list Input) (s : State) :
  stranded n s -> stranded n (run s inputs).
Proof.
  revert s. induction inputs as [|i inputs IH]; intros s Hs; [assumption|].
  cbn. now apply IH, stranded_step.
Qed.






(** X15: a leg with a target of zero or less whose manager is stopped
    before the first tick of the movement loop never resolves.  The set-up
    leaves only the movement loop scheduled, the rotation loop having
    nothing to do; [stop] cancels that loop; and from then on, whatever is
    called or scheduled, no callback is left to call [resolve]: the leg's
    promise and the promise of [start] stay pending and [onComplete] is
    never called. *)
Theorem stop_before_first_tick_strands_zero_leg
  (e : Entity) (cfg options : MovementConfig) (h : HandlerId)
  (direction : string) (distance : R) (mc : MovementComponent)
  (d : Vector3.t) (inputs : list Input) :
  isValid e = true -> movement e = Some mc ->
  directions direction = Some d -> distance <= 0 ->
  let s0 := oneMove e cfg options h direction distance in
  let s := run s0 (Script [CallStop] :: inputs) in
  (length (legs s0) = 1%nat
   /\ scheduled s0
      = [{| handle := 0%nat; callback := MoveEntity 0; period := Some 5%nat |}]
   /\ state_of s0 1 = Some Pending)
  /\ scheduled s = []
  /\ state_of s 1 = Some Pending /\ state_of s 2 = Some Pending
  /\ completes (trace s) = 0%nat.
Proof.
  intros Hv Hm Hd Hle s0 s.
  assert (E0 : s0 = leg_ready d (default 0.1 (defaultValue mc)) distance
                      (spread (spread {| canJump := Some (Some true) |} cfg) options) 1
                      (oneMove_queued e cfg h))
    by (apply (oneMove_zero e cfg options h direction distance mc d); assumption).
  split.
  { rewrite E0. cbn. repeat split. }
  assert (Hst : stranded 3 (step s0 (Script [CallStop]))).
  { rewrite E0. unfold step. cbn [task fold_left call].
    destruct (stop_fields
                (leg_ready d (default 0.1 (defaultValue mc)) distance
                   (spread (spread {| canJump := Some (Some true) |} cfg) options) 1
                   (oneMove_queued e cfg h)))
      as (_ & G2 & G3 & G4 & _ & G6 & _ & G8 & G9 & _).
    rewrite drain_nil by (now rewrite G9).
    unfold stranded. rewrite G2, G3, G4, G6, G8, G9. cbn.
    repeat split; try lia.
    intros p pr Hp Hge.
    destruct p as [|[|[|p]]]; cbn in Hp; try lia; try discriminate;
      now injection Hp as <-. }
  assert (Hs : stranded 3 s) by (subst s; cbn [run fold_left]; now apply stranded_run).
  destruct Hs as (H0 & H1 & H2 & H3 & H4 & H5 & H6).
  assert (Hp : forall p, (1 <= p < 3)%nat -> state_of s p = Some Pending).
  { intros p Hp. unfold state_of.
    destruct (lookup_lt_is_Some_2 (promises s) p ltac:(lia)) as [pr Hpr].
    rewrite Hpr. cbn. f_equal. now apply (H6 p). }
  repeat split; try assumption; apply Hp; lia.
Qed.

Lemma stop_before_first_tick_strands_zero_leg_witness :
  let s := run (oneMove Scenario.agent Scenario.noOptions Scenario.noOptions 7
                  "north" 0)
             [Script [CallStop]; Fire 0%nat; Fire 1%nat] in
  state_of s 2 = Some Pending.
Proof.
  intros s.
  destruct (stop_before_first_tick_strands_zero_leg Scenario.agent
              Scenario.noOptions Scenario.noOptions 7%nat "north"%string 0
              {| defaultValue := Some 0.1; currentValue := 0.1 |}
              (Vector3.mk 0 0 (-1)) [Fire 0%nat; Fire 1%nat]
              eq_refl eq_refl eq_refl ltac:(lra))
    as (_ & _ & _ & H & _).
  exact H.
Defined.

(** X16: left alone, the same leg completes on the first tick of the
    movement loop that finds the agent on the ground with nothing to climb:
    no impulse is ever applied, the speed is reset, the agent is put on
    the centre of its block, the handles are cleared, and the promise of
    [start] is fulfilled with [onComplete] called in the same task. *)
Theorem zero_leg_completes_on_first_tick
  (e : Entity) (cfg options : MovementConfig) (h : HandlerId)
  (direction : string) (distance : R) (mc : MovementComponent)
  (d : Vector3.t) :
  isValid e = true -> movement e = Some mc ->
  directions direction = Some d -> distance <= 0 ->
  isOnGround e = true ->
  truthy (canJump_value (spread (spread {| canJump := Some (Some true) |} cfg) options))
  && aboveIsAir (getBlockFromRay e (location e) d) = false ->
  let s := step (oneMove e cfg options h direction distance) (Fire 0) in
  let yaw := calculateYaw (Vector3.scale d (default 0.1 (defaultValue mc))) in
  trace s
  = [SetCurrentValue 0; SetRotation 0 yaw; ResetToDefaultValue;
     Teleport (Vector3.center (location e)); CallOnComplete h]
  /\ state_of s 1 = Some Fulfilled /\ state_of s 2 = Some Fulfilled
  /\ scheduled s = [] /\ intervalHandles (manager s) = []
  /\ location (entity s) = Vector3.center (location e)
  /\ movement (entity s)
     = Some {| defaultValue := defaultValue mc;
               currentValue := default 0 (defaultValue mc) |}.
Proof.
  intros Hv Hm Hd Hle Hg Hj s yaw. subst s.
  rewrite (oneMove_zero e cfg options h direction distance mc d) by assumption.
  set (s0 := leg_ready _ _ _ _ _ _).
  set (env := {| env_distance := distance;
                 env_canJump := canJump_value (spread (spread {| canJump := Some (Some true) |} cfg) options);
                 env_direction := d;
                 impulseVector := Vector3.scale d (default 0.1 (defaultValue mc));
                 startPosition := Vector3.center (location e);
                 distanceTraveled := 0;
                 climbing := false;
                 wasOnGround := isOnGround e;
                 resolve := 1%nat |}).
  assert (Hleg : legs s0 !! 0%nat = Some env) by reflexivity.
  assert (Ha : aborted s0 = false) by (unfold aborted; cbn; now rewrite Hv).
  assert (Hfire : fire 0 s0 = moveEntity 0 s0) by reflexivity.
  unfold step. cbn [task]. rewrite Hfire.
  rewrite (moveEntity_complete s0 0%nat env Hleg Ha).
  - subst s0 env. unfold drain, leg_ready, oneMove_queued.
    eval_host. repeat split.
    change (let (_, _, _, _, movement, _) := e in movement) with (movement e).
    now rewrite Hm.
  - cbn. cbn in Hj. now rewrite Hj.
  - reflexivity.
  - exact Hg.
  - cbn.
    match goal with
    | |- context [Vector3.length ?v] => pose proof (length_nonneg v)
    end. lra.
Qed.

Lemma zero_leg_completes_on_first_tick_witness :
  state_of (step (oneMove Scenario.agent Scenario.noOptions Scenario.noOptions
                    7 "north" 0) (Fire 0)) 2
  = Some Fulfilled.
Proof.
  destruct (zero_leg_completes_on_first_tick Scenario.agent Scenario.noOptions
              Scenario.noOptions 7%nat "north"%string 0
              {| defaultValue := Some 0.1; currentValue := 0.1 |}
              (Vector3.mk 0 0 (-1))
              eq_refl eq_refl eq_refl ltac:(lra) eq_refl eq_refl)
    as (_ & _ & H & _).
  exact H.
Defined.

(** ** Closure environments and effects in every run *)

Lemma call_legs_trace (c : Call) (s : State) :
  legs (call c s) = legs s
  /\ exists es, trace (call c s) = trace s ++ es
                /\ forallb is_callback es = true.
Proof.
  destruct c as [event cb|direction distance options| |]; cbn [call].
  - split; [|exists []; rewrite app_nil_r; split; [|reflexivity]];
      unfold on;
      (destruct (String.eqb event "onStart"); [reflexivity|]);
      (destruct (String.eqb event "onStop"); [reflexivity|]);
      destruct (String.eqb event "onComplete"); reflexivity.
  - unfold move. cbn.
    match goal with
    | |- context [then_ ?p ?f s] =>
        destruct (then_frame p f s) as (_ & _ & _ & _ & E5 & E6)
    end.
    rewrite E5, E6. split; [reflexivity|]. exists []. now rewrite app_nil_r.
  - unfold start.
    destruct (then_frame (queue (manager s)) CompleteStep s)
      as (_ & _ & _ & _ & E5 & E6).
    rewrite E5, E6. split; [reflexivity|]. exists []. now rewrite app_nil_r.
  - destruct (stop_fields s) as (_ & _ & _ & G4 & _ & _ & _ & _ & _ & G10 & _).
    rewrite G4, G10. split; [reflexivity|]. exists (onStop_call s).
    split; [reflexivity|]. unfold onStop_call.
    now destruct (onStop (callbacks (manager s))).
Qed.

Section LegsAndTrace.

Variable P : list LegEnv -> list Effect -> Prop.

Hypothesis P_callback : forall l t ef,
  is_callback ef = true -> P l t -> P l (t ++ [ef]).
Hypothesis P_moveEntity : forall L s,
  P (legs s) (trace s) -> P (legs (moveEntity L s)) (trace (moveEntity L s)).
Hypothesis P_updateRotation : forall L s,
  P (legs s) (trace s) ->
  P (legs (updateRotation L s)) (trace (updateRotation L s)).
Hypothesis P_executeMove : forall direction distance options t s,
  P (legs s) (trace s) ->
  P (legs (executeMove direction distance options t s))
    (trace (executeMove direction distance options t s)).

Lemma P_callbacks (l : list LegEnv) (t es : list Effect) :
  forallb is_callback es = true -> P l t -> P l (t ++ es).
Proof.
  revert t. induction es as [|ef es IH]; intros t Hes Hp.
  - now rewrite app_nil_r.
  - cbn in Hes. apply andb_true_iff in Hes as [H1 H2].
    change (ef :: es) with ([ef] ++ es). rewrite app_assoc.
    apply IH; [assumption|]. now apply P_callback.
Qed.

Lemma P_call (c : Call) (s : State) :
  P (legs s) (trace s) -> P (legs (call c s)) (trace (call c s)).
Proof.
  intros Hp. destruct (call_legs_trace c s) as (E1 & es & E2 & Hes).
  rewrite E1, E2. now apply P_callbacks.
Qed.

Lemma P_fire (h : Handle) (s : State) :
  P (legs s) (trace s) -> P (legs (fire h s)) (trace (fire h s)).
Proof.
  intros Hp. unfold fire. destruct (find _ (scheduled s)) as [sc|]; [|assumption].
  destruct (callback sc) as [L|L]; cbn [invoke];
    [apply P_moveEntity | apply P_updateRotation];
    now destruct (period sc).
Qed.

Lemma P_runJob (j : Job) (s : State) :
  P (legs s) (trace s) -> P (legs (runJob j s)) (trace (runJob j s)).
Proof.
  intros Hp. destruct j as [[leg t|t]|r]; cbn [runJob].
  - unfold moveStep. destruct (aborted s).
    + now rewrite settle_legs, settle_trace, clearAllIntervals_eq.
    + apply P_executeMove.
      destruct (onStart (callbacks (manager s))); [|assumption].
      cbn. now apply P_callback.
  - unfold completeStep. rewrite settle_legs, settle_trace.
    destruct (onComplete (callbacks (manager s))); [|assumption].
    cbn. now apply P_callback.
  - now rewrite settle_legs, settle_trace.
Qed.

Lemma P_drain_fuel (fuel : nat) (s : State) :
  P (legs s) (trace s) ->
  P (legs (drain_fuel fuel s)) (trace (drain_fuel fuel s)).
Proof.
  revert s. induction fuel as [|fuel IH]; intros s Hp; [assumption|].
  cbn. destruct (jobs s) as [|j js]; [assumption|].
  apply IH. now apply P_runJob.
Qed.

Lemma P_step (s : State) (i : Input) :
  P (legs s) (trace s) -> P (legs (step s i)) (trace (step s i)).
Proof.
  intros Hp. unfold step, drain. apply P_drain_fuel.
  destruct i as [calls|h|w]; cbn [task].
  - revert s Hp. induction calls as [|c calls IH]; intros s Hp; [assumption|].
    cbn. now apply IH, P_call.
  - now apply P_fire.
  - assumption.
Qed.

Lemma P_run (inputs : list Input) (s : State) :
  P (legs s) (trace s) -> P (legs (run s inputs)) (trace (run s inputs)).
Proof.
  revert s. induction inputs as [|i inputs IH]; intros s Hp; [assumption|].
  cbn. now apply IH, P_step.
Qed.

End LegsAndTrace.

Lemma leg_ok_horizontal (e : LegEnv) :
  leg_ok e -> Vector3.y (impulseVector e) = 0.
Proof.
  intros (_ & _ & [name Hn] & [speed Hs] & _). rewrite Hs. cbn.
  destruct (directions_unit name _ Hn) as [_ ->]. ring.
Qed.

Lemma center_center (v : Vector3.t) :
  Vector3.center (Vector3.center v) = Vector3.center v.
Proof.
  apply Vector3_ext; cbn [Vector3.center Vector3.x Vector3.y Vector3.z];
    now rewrite ?Math_floor_half.
Qed.

Lemma Forall_snoc_ok {A} (Q : A -> Prop) (l : list A) (a : A) :
  Forall Q l -> Q a -> Forall Q (l ++ [a]).
Proof. intros H1 H2. apply Forall_app. split; [assumption | now constructor]. Qed.

Lemma ok_moveEntity (L : LegId) (s : State) :
  legs_and_effects_ok (legs s) (trace s) ->
  legs_and_effects_ok (legs (moveEntity L s)) (trace (moveEntity L s)).
Proof.
  intros [Hl Ht].
  destruct (legs s !! L) as [e|] eqn:Hleg.
  2:{ unfold moveEntity. rewrite Hleg. now split. }
  assert (He : leg_ok e) by (eapply Forall_lookup_1; eassumption).
  destruct (aborted s) eqn:Ha.
  { rewrite (moveEntity_abort s L e Hleg Ha).
    rewrite settle_legs, settle_trace, clearAllIntervals_eq. now split. }
  destruct (truthy (env_canJump e)
            && aboveIsAir
                 (getBlockFromRay (entity s) (location (entity s)) (env_direction e))
            && isOnGround (entity s) && negb (climbing e)) eqn:Hcs.
  { rewrite (moveEntity_climb_start s L e Hleg Ha Hcs). cbn. split.
    - rewrite list_alter_alter_eq. apply Forall_alter; [assumption|].
      intros x Hx _. rewrite Hleg in Hx. injection Hx as <-.
      destruct He as (H1 & H2 & H3 & H4 & H5). repeat split; try assumption.
      intros _. cbn.
      apply andb_true_iff in Hcs as [Hcs _]. apply andb_true_iff in Hcs as [Hcs _].
      now apply andb_true_iff in Hcs as [Hcs _].
    - apply Forall_snoc_ok; [assumption|]. now left. }
  destruct (Bool.bool_dec (climbing e) true) as [Hcl|Hcl];
    [|apply not_true_is_false in Hcl];
    (destruct (Bool.bool_dec (isOnGround (entity s)) true) as [Hg|Hg];
     [|apply not_true_is_false in Hg]).
  - rewrite (moveEntity_climb_end s L e Hleg Ha Hcs Hcl Hg). cbn. split; [|assumption].
    rewrite list_alter_alter_eq. apply Forall_alter; [assumption|].
    intros x Hx _. rewrite Hleg in Hx. injection Hx as <-.
    destruct He as (H1 & H2 & H3 & H4 & H5). repeat split; try assumption.
    cbn. discriminate.
  - rewrite (moveEntity_climbing_airborne s L e Hleg Ha Hcs Hcl Hg). cbn. split.
    + apply Forall_alter; [assumption|].
      intros x Hx _. rewrite Hleg in Hx. injection Hx as <-. exact He.
    + apply Forall_snoc_ok; [assumption|]. now right.
  - set (cp := Vector3.center (location (entity s))).
    set (dd := distanceTraveled e
               + Vector3.length (Vector3.subtract cp (startPosition e))).
    assert (Hdd : 0 <= dd).
    { subst dd. destruct He as (H1 & _).
      pose proof (length_nonneg (Vector3.subtract cp (startPosition e))). lra. }
    assert (Hprog : leg_ok (set_wasOnGround true (set_progress cp dd e))).
    { destruct He as (H1 & H2 & H3 & H4 & H5). repeat split; try assumption.
      apply center_center. }
    destruct (Rlt_dec dd (env_distance e)) as [Hd|Hd].
    { rewrite (moveEntity_advance s L e Hleg Ha Hcs Hcl Hg Hd). cbn. split.
      - rewrite list_alter_alter_eq. apply Forall_alter; [assumption|].
        intros x Hx _. rewrite Hleg in Hx. injection Hx as <-. exact Hprog.
      - apply Forall_snoc_ok; [assumption|]. right. cbn.
        now apply leg_ok_horizontal. }
    apply Rnot_lt_le in Hd.
    rewrite (moveEntity_complete s L e Hleg Ha Hcs Hcl Hg Hd). cbn.
    rewrite settle_legs, settle_trace, clearAllIntervals_eq. cbn. split.
    + rewrite list_alter_alter_eq. apply Forall_alter; [assumption|].
      intros x Hx _. rewrite Hleg in Hx. injection Hx as <-. exact Hprog.
    + apply Forall_snoc_ok; [apply Forall_snoc_ok; [assumption | exact I]|].
      apply center_center.
  - rewrite (moveEntity_idle s L e Hleg Ha Hcs Hcl Hg). cbn. split; [|assumption].
    apply Forall_alter; [assumption|].
    intros x Hx _. rewrite Hleg in Hx. injection Hx as <-. exact He.
Qed.

Lemma ok_updateRotation (L : LegId) (s : State) :
  legs_and_effects_ok (legs s) (trace s) ->
  legs_and_effects_ok (legs (updateRotation L s)) (trace (updateRotation L s)).
Proof.
  intros [Hl Ht]. unfold updateRotation.
  destruct (legs s !! L) as [e|]; [|now split].
  destruct (aborted s).
  { rewrite settle_legs, settle_trace, clearAllIntervals_eq. now split. }
  destruct (Rltb _ _); [|now split].
  cbn. split; [assumption|].
  pose proof (calculateYaw_range (impulseVector e)).
  apply Forall_snoc_ok; [apply Forall_snoc_ok; [assumption|]|]; now split.
Qed.

Lemma ok_executeMove direction distance options (t : PromiseId) (s : State) :
  legs_and_effects_ok (legs s) (trace s) ->
  legs_and_effects_ok (legs (executeMove direction distance options t s))
    (trace (executeMove direction distance options t s)).
Proof.
  intros [Hl Ht]. unfold executeMove.
  destruct (negb (isValid (entity s))).
  { rewrite settle_legs, settle_trace, clearAllIntervals_eq. now split. }
  destruct (movement (entity s)) as [mc|];
    [|rewrite settle_legs, settle_trace; now split].
  destruct (directions direction) as [d|] eqn:Hd;
    [|rewrite settle_legs, settle_trace; now split].
  apply ok_updateRotation. cbn. split.
  - apply Forall_snoc_ok; [assumption|].
    repeat split; cbn; try lra; try discriminate.
    + apply center_center.
    + now exists direction.
    + now eexists.
  - apply Forall_snoc_ok; [apply Forall_snoc_ok; [assumption | reflexivity]|].
    split; [reflexivity | apply calculateYaw_range].
Qed.

(** X17: in every state a run reaches, every closure environment has a
    distance travelled that is not negative, a block centre as last
    sample, a direction of the table with the impulse a multiple of it,
    and climbs only if it may jump; and every effect there has been is of
    the kinds the code has: the speed was only ever set to zero, every
    rotation has pitch zero and a yaw in (-270, 90], every impulse is the
    climb impulse (0, 0.5, 0) or horizontal, and every teleport went to a
    block centre. *)
Theorem legs_and_effects_well_formed (e : Entity) (cfg : MovementConfig)
  (inputs : list Input) :
  let s := run (construct e cfg) inputs in
  Forall leg_ok (legs s) /\ Forall effect_ok (trace s).
Proof.
  apply (P_run legs_and_effects_ok).
  - intros l t ef Hcb [H1 H2]. split; [assumption|].
    apply Forall_snoc_ok; [assumption|]. now destruct ef.
  - apply ok_moveEntity.
  - apply ok_updateRotation.
  - apply ok_executeMove.
  - split; constructor.
Qed.

(** ** The spawn handler *)

(** X18: the circuit the spawn handler queues names eight directions of
    the table, and the displacements it asks for add up to zero: it leads
    back to where it began. *)
Theorem circuit_is_closed :
  length (leg_vectors circuit) = 8%nat
  /\ sum_vectors (leg_vectors circuit) = Some (Vector3.mk 0 0 0).
Proof.
  split; [reflexivity|].
  cbv [circuit leg_vectors omap list_omap directions String.eqb Ascii.eqb
       Bool.eqb sum_vectors foldr fmap option_fmap option_map].
  f_equal. apply Vector3_ext; cbn; ring.
Qed.

Lemma spawn_circuit_eq (e : Entity) :
  exists T0 leg,
    drain (fold_left (fun st c => call c st) circuit (construct e noConfig))
    = drain_fuel 8 (moveStep leg 1 T0)
    /\ leg = {| leg_direction := "north"; leg_distance := 5;
                leg_config := {| canJump := Some (Some true) |} |}
    /\ manager T0 = {| isStopped := false; intervalHandles := [];
                       config := {| canJump := Some (Some true) |};
                       callbacks := {| onStart := None; onStop := None;
                                       onComplete := None |};
                       queue := 8%nat |}
    /\ entity T0 = e /\ scheduled T0 = [] /\ nextHandle T0 = 0%nat
    /\ jobs T0 = [] /\ legs T0 = [] /\ trace T0 = []
    /\ length (promises T0) = 10%nat
    /\ (origin <$> promises T0) = (origin <$> circuit_promises)
    /\ (pstate <$> promises T0) = (pstate <$> circuit_promises).
Proof.
  eexists. eexists. split.
  - match goal with
    | |- drain ?T = _ =>
        let T' := eval lazy -[Rlt_dec Rle_dec Rplus Rmult Rminus Rdiv Ropp Rinv
                               sqrt IZR drain moveStep] in T in
        change T with T'
    end.
    unfold drain.
    match goal with
    | |- drain_fuel ?n _ = _ =>
        let n' := eval lazy in n in change n with n'
    end.
    erewrite drain_fuel_cons by reflexivity. reflexivity.
  - cbn. repeat split.
Qed.

Lemma idle_run (inputs : list Input) (s : State) :
  forallb (fun i => negb (has_script i)) inputs = true ->
  scheduled s = [] -> jobs s = [] ->
  let s' := run s inputs in
  scheduled s' = [] /\ jobs s' = [] /\ trace s' = trace s
  /\ promises s' = promises s /\ legs s' = legs s /\ manager s' = manager s.
Proof.
  revert s. induction inputs as [|i inputs IH]; intros s Hin Hs Hj; [now repeat split|].
  cbn in Hin. apply andb_true_iff in Hin as [Hi Hin].
  cbn [run fold_left].
  assert (E : step s i = task i s /\ scheduled (task i s) = []
              /\ jobs (task i s) = [] /\ trace (task i s) = trace s
              /\ promises (task i s) = promises s /\ legs (task i s) = legs s
              /\ manager (task i s) = manager s).
  { destruct i as [calls|h|w]; [discriminate| |]; unfold step; cbn [task].
    - assert (Ef : fire h s = s) by (unfold fire; now rewrite Hs).
      rewrite Ef, drain_nil by assumption. now repeat split.
    - rewrite drain_nil by assumption. now repeat split. }
  destruct E as (E0 & E1 & E2 & E3 & E4 & E5 & E6). rewrite E0.
  destruct (IH (task i s) Hin E1 E2) as (G1 & G2 & G3 & G4 & G5 & G6).
  fold (run (task i s) inputs).
  repeat split; congruence.
Qed.

(** X19: the spawn handler does nothing for an item.  For any other
    entity it makes a manager; off an emerald block that manager is left
    as made, and no tick ever has an effect.  On an emerald block, for a
    valid entity with a movement component, the handler queues the
    circuit, and once the promise jobs have run the first leg is set up:
    north, five blocks, jumping allowed, its movement loop tracked and its
    rotation loop registered, the agent turned to yaw -180 for a positive
    speed, and the promises of the other seven legs and of [start]
    pending, each chained onto the one before. *)
Theorem spawn_handler (ev : SpawnEvent) :
  let e := spawned ev in
  let below := Vector3.mk (Vector3.x (location e)) (Vector3.y (location e) - 1)
                          (Vector3.z (location e)) in
  (typeId ev = "minecraft:item"%string -> onEntitySpawn ev = None)
  /\ (typeId ev <> "minecraft:item"%string ->
      getBlock ev below <> Some "minecraft:emerald_block"%string ->
      onEntitySpawn ev = Some (construct e noConfig)
      /\ forall inputs,
           forallb (fun i => negb (has_script i)) inputs = true ->
           trace (run (construct e noConfig) inputs) = []
           /\ scheduled (run (construct e noConfig) inputs) = [])
  /\ (typeId ev <> "minecraft:item"%string ->
      getBlock ev below = Some "minecraft:emerald_block"%string ->
      forall mc, isValid e = true -> movement e = Some mc ->
      exists s0, onEntitySpawn ev = Some s0
      /\ let s := drain s0 in
         let speed := default 0.1 (defaultValue mc) in
         let yaw := calculateYaw (Vector3.scale (Vector3.mk 0 0 (-1)) speed) in
         legs s
         = [{| env_distance := 5; env_canJump := Some true;
               env_direction := Vector3.mk 0 0 (-1);
               impulseVector := Vector3.scale (Vector3.mk 0 0 (-1)) speed;
               startPosition := Vector3.center (location e);
               distanceTraveled := 0; climbing := false;
               wasOnGround := isOnGround e; resolve := 1%nat |}]
         /\ scheduled s
            = [{| handle := 0%nat; callback := MoveEntity 0; period := Some 5%nat |};
               {| handle := 1%nat; callback := UpdateRotation 0; period := None |}]
         /\ intervalHandles (manager s) = [0%nat]
         /\ trace s = [SetCurrentValue 0; SetRotation 0 yaw;
                       SetRotation 0 yaw; RunCommand 0 yaw]
         /\ (0 < speed -> yaw = -180)
         /\ (pstate <$> promises s) = (pstate <$> circuit_promises)
         /\ (origin <$> promises s) = (origin <$> circuit_promises)).
Proof.
  intros e below. split; [|split].
  - intros Hty. unfold onEntitySpawn. now rewrite Hty.
  - intros Hty Hb. split.
    + unfold onEntitySpawn. apply String.eqb_neq in Hty. rewrite Hty.
      fold e. fold below. destruct (getBlock ev below) as [ty|]; [|reflexivity].
      destruct (String.eqb_spec ty "minecraft:emerald_block") as [->|]; [|reflexivity].
      contradiction.
    + intros inputs Hin.
      destruct (idle_run inputs (construct e noConfig) Hin eq_refl eq_refl)
        as (G1 & _ & G3 & _). now split.
  - intros Hty Hb mc Hv Hm. eexists. split.
    + unfold onEntitySpawn. apply String.eqb_neq in Hty. rewrite Hty.
      fold e. fold below. rewrite Hb. rewrite String.eqb_refl. reflexivity.
    + cbv zeta.
      destruct (spawn_circuit_eq e)
        as (T0 & leg & -> & -> & Tm & Te & Ts & Tn & Tj & Tl & Tt & Tlen & To & Tp).
      assert (Ha : aborted T0 = false) by (unfold aborted; now rewrite Tm, Te, Hv).
      unfold moveStep. rewrite Ha, Tm. cbn [callbacks onStart leg_direction
        leg_distance leg_config].
      rewrite (executeMove_ready _ _ _ _ _ mc (Vector3.mk 0 0 (-1)))
        by (rewrite ?Te; assumption || reflexivity).
      rewrite (updateRotation_continue _ _
                 {| env_distance := 5; env_canJump := Some true;
                    env_direction := Vector3.mk 0 0 (-1);
                    impulseVector := Vector3.scale (Vector3.mk 0 0 (-1))
                                       (default 0.1 (defaultValue mc));
                    startPosition := Vector3.center (location e);
                    distanceTraveled := 0; climbing := false;
                    wasOnGround := isOnGround e; resolve := 1%nat |}).
      * rewrite drain_fuel_nil by (cbn; exact Tj).
        cbn. rewrite Tl, Ts, Tn, Tt, Tm, Te. cbn.
        repeat split; try assumption.
        intros Hsp. rewrite calculateYaw_scale by assumption.
        apply (yaw_table "north"); [reflexivity|]. cbn. tauto.
      * unfold leg_ready. cbn. rewrite Tl, Te. reflexivity.
      * unfold aborted, leg_ready. cbn. now rewrite Tm, Te, Hv.
      * cbn. lra.
Qed.

Lemma spawn_handler_witness :
  exists s0, onEntitySpawn pigOnEmerald = Some s0
             /\ intervalHandles (manager (drain s0)) = [0%nat].
Proof.
  destruct (spawn_handler pigOnEmerald) as (_ & _ & H).
  destruct (H ltac:(cbn; discriminate) eq_refl
              {| defaultValue := Some 0.1; currentValue := 0.1 |}
              eq_refl eq_refl)
    as (s0 & H0 & _ & _ & H3 & _).
  exists s0. split; assumption.
Defined.

(** ** clearAllIntervals *)

(** X20: [clearAllIntervals] cancels exactly the callbacks whose handle is
    tracked and keeps every other one, empties the handle list, and
    touches nothing else; a second call changes nothing. *)
Theorem clearAllIntervals_cancels_tracked (s : State) :
  let s' := clearAllIntervals s in
  intervalHandles (manager s') = []
  /\ (forall sc, In sc (scheduled s')
                 <-> In sc (scheduled s)
                     /\ ~ In (handle sc) (intervalHandles (manager s)))
  /\ clearAllIntervals s' = s'
  /\ nextHandle s' = nextHandle s
  /\ isStopped (manager s') = isStopped (manager s)
  /\ callbacks (manager s') = callbacks (manager s)
  /\ queue (manager s') = queue (manager s)
  /\ entity s' = entity s /\ promises s' = promises s /\ jobs s' = jobs s
  /\ legs s' = legs s /\ trace s' = trace s.
Proof.
  cbv zeta. rewrite !clearAllIntervals_eq. cbn.
  split; [reflexivity|]. split; [|split; [|now repeat split]].
  - intros sc. rewrite <- !list_elem_of_In. apply elem_of_without.
  - unfold without. cbn. rewrite filter_all. now destruct s.
Qed.

Lemma clearAllIntervals_cancels_tracked_witness :
  In {| handle := 1%nat; callback := UpdateRotation 0; period := None |}
     (scheduled (clearAllIntervals Scenario.oneLeg)).
Proof.
  apply (proj1 (proj2 (clearAllIntervals_cancels_tracked Scenario.oneLeg))).
  rewrite oneLeg_eq. cbn. split; [right; now left|].
  intros [H|[]]. discriminate.
Defined.

(** ** move and start only queue *)

Lemma queueing_call (c : Call) (s : State) :
  is_queueing c = true ->
  let s' := call c s in
  (entity s' = entity s /\ scheduled s' = scheduled s /\ legs s' = legs s
   /\ trace s' = trace s /\ isStopped (manager s') = isStopped (manager s)
   /\ intervalHandles (manager s') = intervalHandles (manager s)
   /\ callbacks (manager s') = callbacks (manager s)
   /\ config (manager s') = config (manager s))
  /\ length (promises s') = S (length (promises s))
  /\ (forall q, (q < length (promises s))%nat -> state_of s' q = state_of s q)
  /\ state_of s' (length (promises s)) = Some Pending.
Proof.
  intros Hq. destruct c as [| direction distance options | |]; try discriminate;
    cbn [call].
  - unfold move.
    match goal with
    | |- context [then_ ?p ?f s] =>
        destruct (then_frame p f s) as (E1 & E2 & E3 & _ & E5 & E6);
        pose proof (then_promises p f s) as Hp
    end.
    cbn. rewrite E1, E2, E3, E5, E6. split; [now repeat split|]. exact Hp.
  - unfold start.
    destruct (then_frame (queue (manager s)) CompleteStep s)
      as (E1 & E2 & E3 & _ & E5 & E6).
    rewrite E1, E2, E3, E5, E6. split; [now repeat split|].
    apply then_promises.
Qed.

(** X21: a script of [move] and [start] calls has no effect of its own:
    the entity, the scheduler, the closure environments, the trace and the
    manager's flag, handles, callbacks and config are as before; each call
    adds one promise, pending when the script ends, and no promise there
    was changes its state.  Whatever the calls ask for happens in the
    promise jobs after the script. *)
Theorem queueing_is_deferred (calls : list Call) (s : State) :
  forallb is_queueing calls = true ->
  let s' := fold_left (fun st c => call c st) calls s in
  (entity s' = entity s /\ scheduled s' = scheduled s /\ legs s' = legs s
   /\ trace s' = trace s /\ isStopped (manager s') = isStopped (manager s)
   /\ intervalHandles (manager s') = intervalHandles (manager s)
   /\ callbacks (manager s') = callbacks (manager s)
   /\ config (manager s') = config (manager s))
  /\ length (promises s') = (length (promises s) + length calls)%nat
  /\ (forall q, (q < length (promises s))%nat -> state_of s' q = state_of s q)
  /\ (forall q, (length (promises s) <= q < length (promises s'))%nat ->
                state_of s' q = Some Pending).
Proof.
  revert s. induction calls as [|c calls IH]; intros s Hq.
  - cbn. repeat split; try lia.
  - cbn in Hq. apply andb_true_iff in Hq as [Hc Hq]. cbn [fold_left].
    destruct (queueing_call c s Hc)
      as ((A1 & A2 & A3 & A4 & A5 & A6 & A7 & A8) & B1 & B2 & B3).
    destruct (IH (call c s) Hq)
      as ((C1 & C2 & C3 & C4 & C5 & C6 & C7 & C8) & D1 & D2 & D3).
    cbv zeta in *. split; [repeat split; congruence|]. split; [cbn; lia|]. split.
    + intros q Hlt. rewrite D2 by lia. now apply B2.
    + intros q Hr. destruct (decide (q = length (promises s))) as [->|Hne].
      * rewrite D2 by lia. exact B3.
      * apply D3. lia.
Qed.

Lemma queueing_is_deferred_witness :
  length (promises
            (fold_left (fun st c => call c st)
               [CallMove "north" 5 Scenario.noOptions; CallStart]
               (construct Scenario.agent Scenario.noOptions)))
  = 3%nat.
Proof.
  apply (proj1 (proj2 (queueing_is_deferred
                         [CallMove "north" 5 Scenario.noOptions; CallStart]
                         (construct Scenario.agent Scenario.noOptions)
                         eq_refl))).
Defined.

(** ** start, by the state of the queue *)

(** X22: [start] on a manager at rest.  If the queue promise is fulfilled,
    an empty queue included, the promise [start] returns is fulfilled and
    [onComplete] called within the same task; if it is rejected, the new
    promise is rejected and [onComplete] is not called; if it is pending,
    nothing happens yet.  In each case one promise is added, no other
    promise changes, and the entity, the scheduler, the closure
    environments and the manager are untouched. *)
Theorem start_by_queue_state (s : State) (qr : Promise) :
  jobs s = [] ->
  promises s !! queue (manager s) = Some qr ->
  let t := length (promises s) in
  let s' := step s (Script [CallStart]) in
  length (promises s') = S t
  /\ (forall p, (p < t)%nat -> state_of s' p = state_of s p)
  /\ entity s' = entity s /\ scheduled s' = scheduled s /\ legs s' = legs s
  /\ manager s' = manager s /\ jobs s' = []
  /\ (pstate qr = Fulfilled ->
      state_of s' t = Some Fulfilled /\ trace s' = trace s ++ onComplete_call s)
  /\ (pstate qr = Rejected ->
      state_of s' t = Some Rejected /\ trace s' = trace s)
  /\ (pstate qr = Pending ->
      state_of s' t = Some Pending /\ trace s' = trace s).
Proof.
  intros Hj Hq t s'. subst s'. unfold step. cbn [task fold_left call].
  pose proof (then_frame (queue (manager s)) CompleteStep s)
    as (E1 & E2 & E3 & _ & E5 & E6).
  pose proof (then_promises (queue (manager s)) CompleteStep s) as (L1 & L2 & L3).
  pose proof (then_new_promise (queue (manager s)) CompleteStep s) as (_ & N2).
  unfold start.
  set (T := snd (then_ (queue (manager s)) CompleteStep s)) in *.
  fold t in L1, L2, L3, N2.
  assert (Hjobs : jobs T
                  = match pstate qr with
                    | Pending => []
                    | st => [job_of st (CompleteStep t)]
                    end).
  { subst T. unfold then_. rewrite Hq. fold t.
    destruct (pstate qr); cbn; now rewrite Hj. }
  destruct (pstate qr) eqn:Hst.
  - (* pending *)
    rewrite drain_nil by assumption.
    repeat split; try assumption; try discriminate.
  - (* fulfilled *)
    unfold drain.
    assert (Hw : exists n, pending_work T = S n)
      by (unfold pending_work; rewrite Hjobs; cbn; eauto).
    destruct Hw as [n ->].
    rewrite (drain_fuel_cons n T _ [] Hjobs). cbn [job_of runJob].
    unfold completeStep.
    set (T1 := match onComplete (callbacks (manager (with_promises (promises T) [] T))) with
               | Some h => emit (CallOnComplete h) (with_promises (promises T) [] T)
               | None => with_promises (promises T) [] T
               end).
    assert (F1 : promises T1 = promises T /\ jobs T1 = []
                 /\ manager T1 = manager s /\ entity T1 = entity s
                 /\ scheduled T1 = scheduled s /\ legs T1 = legs s
                 /\ trace T1 = trace s ++ onComplete_call s).
    { subst T1. unfold onComplete_call. cbn [manager with_promises]. rewrite E1.
      destruct (onComplete (callbacks (manager s))); cbn;
        rewrite ?E1, ?E2, ?E3, ?E5, ?E6, ?app_nil_r; now repeat split. }
    destruct F1 as (F1 & F2 & F3 & F4 & F5 & F6 & F7).
    destruct (settle_fresh t Fulfilled T1 (ThenStart (queue (manager s))))
      as (S1 & S2 & S3); [now rewrite F1|].
    rewrite drain_fuel_nil by (now rewrite S1).
    rewrite settle_entity, settle_scheduled, settle_legs, settle_manager,
      settle_trace, S1, S3, F1.
    repeat split; try assumption; try discriminate.
    intros p Hp. rewrite state_of_settle_ne by lia.
    unfold state_of. rewrite F1. now apply L2.
  - (* rejected *)
    unfold drain.
    assert (Hw : exists n, pending_work T = S n)
      by (unfold pending_work; rewrite Hjobs; cbn; eauto).
    destruct Hw as [n ->].
    rewrite (drain_fuel_cons n T _ [] Hjobs). cbn [job_of runJob target].
    destruct (settle_fresh t Rejected (with_promises (promises T) [] T)
                (ThenStart (queue (manager s))))
      as (S1 & S2 & S3); [exact N2|].
    rewrite drain_fuel_nil by (now rewrite S1).
    rewrite settle_entity, settle_scheduled, settle_legs, settle_manager,
      settle_trace, S1, S3.
    repeat split; try assumption; try discriminate.
    intros p Hp. rewrite state_of_settle_ne by lia. now apply L2.
Qed.

Lemma start_by_queue_state_witness :
  state_of (step (construct Scenario.agent Scenario.noOptions)
              (Script [CallStart])) 1
  = Some Fulfilled.
Proof.
  destruct (start_by_queue_state (construct Scenario.agent Scenario.noOptions)
              {| pstate := Fulfilled; reactions := []; origin := Resolved |}
              eq_refl eq_refl)
    as (_ & _ & _ & _ & _ & _ & _ & H & _).
  apply H. reflexivity.
Defined.

(** ** One movement loop at a time *)

Lemma count_le_one_unique {A} (f : A -> bool) (l : list A) (i j : nat) (a b : A) :
  (count f l <= 1)%nat ->
  l !! i = Some a -> l !! j = Some b -> f a = true -> f b = true -> i = j.
Proof.
  revert i j. induction l as [|x l IH]; intros i j Hc Hi Hj Ha Hb; [discriminate|].
  cbn in Hc.
  assert (Hz : forall k c, l !! k = Some c -> f c = true -> f x = true -> False).
  { intros k c Hk Hfc Hfx. rewrite Hfx in Hc.
    assert (1 <= count f l)%nat; [|lia].
    clear - Hk Hfc. revert k Hk. induction l as [|y l IHl]; intros k Hk; [discriminate|].
    destruct k as [|k]; cbn in *.
    - injection Hk as ->. rewrite Hfc. lia.
    - specialize (IHl k Hk). lia. }
  destruct i as [|i], j as [|j]; cbn in Hi, Hj.
  - reflexivity.
  - injection Hi as ->. exfalso. now apply (Hz j b).
  - injection Hj as ->. exfalso. now apply (Hz i a).
  - f_equal. apply IH; try assumption. destruct (f x); lia.
Qed.

Lemma oneLeg_run :
  Scenario.oneLeg
  = run (construct Scenario.agent Scenario.noOptions)
      [Script [CallMove "north" 5 Scenario.noOptions; CallStart]].
Proof. reflexivity. Qed.

(** X23: in every state a run reaches, a scheduled movement loop is
    periodic, its handle is tracked, the manager is not stopped, and its
    leg is not resolved; and all scheduled movement loops belong to that
    one leg: two legs never move the agent at the same time. *)
Theorem one_leg_moves_at_a_time (e : Entity) (cfg : MovementConfig)
  (inputs : list Input) :
  let s := run (construct e cfg) inputs in
  forall sc L,
    In sc (scheduled s) -> callback sc = MoveEntity L ->
    period sc <> None
    /\ In (handle sc) (intervalHandles (manager s))
    /\ isStopped (manager s) = false
    /\ (exists le, legs s !! L = Some le
                   /\ state_of s (resolve le) = Some Pending)
    /\ forall sc' L', In sc' (scheduled s) -> callback sc' = MoveEntity L' ->
                      L' = L.
Proof.
  intros s sc L Hin Hcb.
  pose proof (reachable_inv e cfg inputs) as Hinv. fold s in Hinv.
  pose proof (inv_handles _ _ _ _ Hinv) as Hh.
  pose proof (inv_chain _ _ _ _ Hinv) as Hc.
  assert (Hmove : forall sc0 L0,
             In sc0 (scheduled s) -> callback sc0 = MoveEntity L0 ->
             period sc0 <> None
             /\ exists t, (resolve <$> legs s) !! L0 = Some t
                          /\ is_pending (promises s) t = true).
  { intros sc0 L0 Hin0 Hcb0. apply list_elem_of_In in Hin0.
    destruct (hi_move_loop _ _ _ _ _ Hh sc0 L0 Hin0 Hcb0) as (Hp & t & Ht & Hpt).
    split; [assumption|]. exists t. split; [assumption|].
    unfold is_pending. now rewrite Hpt. }
  destruct (Hmove sc L Hin Hcb) as (Hper & t & Ht & Hpt).
  assert (Htr : handle sc ∈ intervalHandles (manager s)).
  { apply (hi_tracked _ _ _ _ _ Hh sc); [now apply list_elem_of_In | assumption]. }
  split; [assumption|]. split; [now apply list_elem_of_In|]. split.
  { destruct (isStopped (manager s)) eqn:Hst; [|reflexivity]. exfalso.
    rewrite (hi_stopped _ _ _ _ _ Hh eq_refl) in Htr. inversion Htr. }
  split.
  { rewrite list_lookup_fmap in Ht.
    destruct (legs s !! L) as [le|] eqn:Hle; [|discriminate].
    cbn in Ht. injection Ht as <-. exists le. split; [reflexivity|].
    unfold is_pending, pstate_at in Hpt. unfold state_of.
    destruct (pstate <$> promises s !! resolve le) as [[| |]|]; congruence. }
  intros sc' L' Hin' Hcb'.
  destruct (Hmove sc' L' Hin' Hcb') as (_ & t' & Ht' & Hpt').
  pose proof (ci_front _ _ _ _ Hc) as Hfront. unfold inflight in Hfront.
  apply (count_le_one_unique (is_pending (promises s)) (resolve <$> legs s)
           L' L t' t); try assumption. lia.
Qed.

Lemma one_leg_moves_at_a_time_witness :
  In 0%nat (intervalHandles (manager Scenario.oneLeg)).
Proof.
  destruct (one_leg_moves_at_a_time Scenario.agent Scenario.noOptions
              [Script [CallMove "north" 5 Scenario.noOptions; CallStart]]
              {| handle := 0%nat; callback := MoveEntity 0; period := Some 5%nat |}
              0%nat)
    as (_ & H & _).
  - cbv zeta. rewrite <- oneLeg_run, oneLeg_eq. cbn. now left.
  - reflexivity.
  - rewrite oneLeg_run. exact H.
Defined.

(** ** From one leg to the next *)

Lemma twoLegs_eq :
  twoLegs
  = {| manager :=
         {| isStopped := false; intervalHandles := [0%nat];
            config := {| canJump := Some (Some true) |};
            callbacks := {| onStart := None; onStop := None; onComplete := None |};
            queue := 2%nat |};
       entity :=
         {| isValid := true; isOnGround := true; location := Vector3.mk 0 64 0;
            rotation := (0, Scenario.northYaw);
            movement := Some {| defaultValue := Some 0.1; currentValue := 0 |};
            getBlockFromRay := Scenario.openGround |};
       scheduled :=
         [{| handle := 0%nat; callback := MoveEntity 0; period := Some 5%nat |}];
       nextHandle := 1%nat;
       promises :=
         [{| pstate := Fulfilled; reactions := []; origin := Resolved |};
          {| pstate := Pending;
             reactions := [MoveStep {| leg_direction := "east"; leg_distance := 5;
                                       leg_config := {| canJump := Some (Some true) |} |}
                             2%nat];
             origin := ThenMove 0 |};
          {| pstate := Pending; reactions := []; origin := ThenMove 1 |}];
       jobs := [];
       legs :=
         [{| env_distance := 0; env_canJump := Some true;
             env_direction := Vector3.mk 0 0 (-1);
             impulseVector := Vector3.scale (Vector3.mk 0 0 (-1)) 0.1;
             startPosition := Vector3.center (Vector3.mk 0 64 0);
             distanceTraveled := 0; climbing := false; wasOnGround := true;
             resolve := 1%nat |}];
       trace := [SetCurrentValue 0; SetRotation 0 Scenario.northYaw] |}.
Proof.
  unfold twoLegs, run, fold_left, step.
  match goal with
  | |- drain ?T = _ =>
      let T' := eval lazy -[Rlt_dec Rle_dec Rplus Rmult Rminus Rdiv Ropp Rinv
                             sqrt IZR drain moveStep] in T in
      change T with T'
  end.
  unfold drain.
  match goal with
  | |- drain_fuel ?n _ = _ =>
      let n' := eval lazy in n in change n with n'
  end.
  erewrite drain_fuel_cons by reflexivity. cbn [runJob].
  match goal with
  | |- context [moveStep ?l ?t ?T] =>
      change (moveStep l t T)
        with (executeMove (leg_direction l) (leg_distance l) (leg_config l) t T)
  end.
  cbn [leg_direction leg_distance leg_config].
  rewrite (executeMove_ready _ _ _ _ _
             {| defaultValue := Some 0.1; currentValue := 0.1 |}
             (Vector3.mk 0 0 (-1))) by reflexivity.
  rewrite (updateRotation_done 0 _
             {| env_distance := 0; env_canJump := Some true;
                env_direction := Vector3.mk 0 0 (-1);
                impulseVector := Vector3.scale (Vector3.mk 0 0 (-1)) 0.1;
                startPosition := Vector3.center (Vector3.mk 0 64 0);
                distanceTraveled := 0; climbing := false; wasOnGround := true;
                resolve := 1%nat |}).
  - rewrite drain_fuel_nil by reflexivity. reflexivity.
  - reflexivity.
  - reflexivity.
  - cbn. lra.
Qed.

(** X24: when the movement loop's tick completes a leg and a step chained
    by [move] waits on the leg's promise, that step runs in the same task:
    the finished leg's promise is fulfilled, the agent is on the centre of
    its block with its speed reset, [onStart] is called, and the next leg
    is set up from that centre, with its own movement loop tracked in
    place of the cleared one and its rotation loop registered; the promise
    of the next leg stays pending. *)
Theorem next_leg_starts_in_the_same_task (s : State) (h : Handle) (n : nat)
  (L : LegId) (e : LegEnv) (o : Origin) (leg : Leg) (t2 : PromiseId)
  (mc : MovementComponent) (d : Vector3.t) :
  jobs s = [] ->
  scheduled_as s h
  = Some {| handle := h; callback := MoveEntity L; period := Some n |} ->
  legs s !! L = Some e ->
  isStopped (manager s) = false -> isValid (entity s) = true ->
  isOnGround (entity s) = true -> climbing e = false ->
  truthy (env_canJump e)
  && aboveIsAir
       (getBlockFromRay (entity s) (location (entity s)) (env_direction e))
  = false ->
  env_distance e <= distanceTraveled e + displacement s e ->
  promises s !! resolve e
  = Some {| pstate := Pending; reactions := [MoveStep leg t2]; origin := o |} ->
  state_of s t2 = Some Pending -> t2 <> resolve e ->
  movement (entity s) = Some mc ->
  directions (leg_direction leg) = Some d ->
  0 < leg_distance leg ->
  let cp := Vector3.center (location (entity s)) in
  let speed := default 0.1 (defaultValue mc) in
  let yaw := calculateYaw (Vector3.scale d speed) in
  let s' := step s (Fire h) in
  state_of s' (resolve e) = Some Fulfilled
  /\ state_of s' t2 = Some Pending
  /\ legs s' !! length (legs s)
     = Some {| env_distance := leg_distance leg;
               env_canJump := canJump_value (leg_config leg);
               env_direction := d;
               impulseVector := Vector3.scale d speed;
               startPosition := cp;
               distanceTraveled := 0;
               climbing := false;
               wasOnGround := true;
               resolve := t2 |}
  /\ length (legs s') = S (length (legs s))
  /\ intervalHandles (manager s') = [nextHandle s]
  /\ scheduled s'
     = without (intervalHandles (manager s)) (scheduled s)
       ++ [{| handle := nextHandle s; callback := MoveEntity (length (legs s));
              period := Some 5%nat |};
           {| handle := S (nextHandle s);
              callback := UpdateRotation (length (legs s)); period := None |}]
  /\ location (entity s') = cp
  /\ trace s'
     = trace s ++ [ResetToDefaultValue; Teleport cp] ++ onStart_call s leg
       ++ [SetCurrentValue 0; SetRotation 0 yaw; SetRotation 0 yaw;
           RunCommand 0 yaw].
Proof.
  intros Hj Hf Hleg Hs Hv Hg Hcl Hjump Hd Hp Ht2 Hne Hm Hdir Hpos cp speed yaw s'.
  assert (Ha : aborted s = false) by (unfold aborted; now rewrite Hs, Hv).
  assert (Hcs : truthy (env_canJump e)
                && aboveIsAir
                     (getBlockFromRay (entity s) (location (entity s))
                        (env_direction e))
                && isOnGround (entity s) && negb (climbing e) = false)
    by now rewrite Hjump.
  assert (Hfire : fire h s = moveEntity L s).
  { unfold fire. unfold scheduled_as in Hf. now rewrite Hf. }
  subst s'. unfold step. cbn [task]. rewrite Hfire.
  rewrite (moveEntity_complete s L e Hleg Ha Hcs Hcl Hg Hd).
  fold cp.
  set (dd := distanceTraveled e
             + Vector3.length (Vector3.subtract cp (startPosition e))).
  set (s1 := teleport cp
               (resetToDefaultValue
                  (clearAllIntervals (modify_leg L (set_progress cp dd) s)))).
  assert (Hp1 : promises s1 = promises s)
    by (subst s1; now rewrite clearAllIntervals_eq).
  assert (Hj1 : jobs s1 = []) by (subst s1; now rewrite clearAllIntervals_eq).
  assert (Hset : promises (settle (resolve e) Fulfilled s1)
                 = <[resolve e := {| pstate := Fulfilled; reactions := [];
                                     origin := o |}]> (promises s)
                 /\ jobs (settle (resolve e) Fulfilled s1)
                    = [Run (MoveStep leg t2)]).
  { rewrite (settle_pending _ _ s1 _ ltac:(rewrite Hp1; exact Hp) eq_refl).
    cbn [with_promises promises jobs]. rewrite Hp1, Hj1. now split. }
  destruct Hset as [Hsp Hsj].
  set (s2 := modify_leg L (set_wasOnGround true)
               (settle (resolve e) Fulfilled s1)).
  assert (Hs2j : jobs s2 = [Run (MoveStep leg t2)]) by exact Hsj.
  unfold drain.
  assert (Hw : exists k, pending_work s2 = S k)
    by (unfold pending_work; rewrite Hs2j; cbn; eauto).
  destruct Hw as [k ->].
  rewrite (drain_fuel_cons k s2 _ [] Hs2j). cbn [runJob].
  set (s3 := with_promises (promises s2) [] s2).
  assert (F3 : manager s3 = set_intervalHandles [] (manager s)
               /\ isValid (entity s3) = true
               /\ location (entity s3) = cp
               /\ isOnGround (entity s3) = true
               /\ movement (entity s3)
                  = Some {| defaultValue := defaultValue mc;
                            currentValue := default (currentValue mc)
                                              (defaultValue mc) |}
               /\ scheduled s3 = without (intervalHandles (manager s)) (scheduled s)
               /\ nextHandle s3 = nextHandle s
               /\ length (legs s3) = length (legs s)
               /\ trace s3 = trace s ++ [ResetToDefaultValue; Teleport cp]
               /\ jobs s3 = []
               /\ promises s3
                  = <[resolve e := {| pstate := Fulfilled; reactions := [];
                                      origin := o |}]> (promises s)).
  { subst s3 s2. cbn [with_promises modify_leg with_legs manager entity scheduled
      nextHandle legs trace jobs promises].
    rewrite settle_manager, settle_entity, settle_scheduled, settle_nextHandle,
      settle_legs, settle_trace, Hsp.
    subst s1. rewrite clearAllIntervals_eq. cbn. rewrite Hm, Hv, Hg. cbn.
    rewrite !length_alter, <- app_assoc. now repeat split. }
  destruct F3 as (F1 & F2 & F3 & F4 & F5 & F6 & F7 & F8 & F9 & F10 & F11).
  clearbody s3.
  assert (Ha3 : aborted s3 = false)
    by (unfold aborted; rewrite F1, F2; cbn; now rewrite Hs).
  unfold moveStep. rewrite Ha3, F1. cbn [callbacks set_intervalHandles].
  set (s4 := match onStart (callbacks (manager s)) with
             | Some h0 => emit _ s3
             | None => s3
             end).
  assert (F4' : manager s4 = manager s3 /\ entity s4 = entity s3
                /\ scheduled s4 = scheduled s3 /\ nextHandle s4 = nextHandle s3
                /\ legs s4 = legs s3 /\ jobs s4 = jobs s3
                /\ promises s4 = promises s3
                /\ trace s4 = trace s3 ++ onStart_call s leg).
  { subst s4. unfold onStart_call.
    destruct (onStart (callbacks (manager s))); cbn;
      rewrite ?app_nil_r; now repeat split. }
  destruct F4' as (G1 & G2 & G3 & G4 & G5 & G6 & G7 & G8).
  clearbody s4.
  rewrite (executeMove_ready _ _ _ _ _
             {| defaultValue := defaultValue mc;
                currentValue := default (currentValue mc) (defaultValue mc) |} d)
    by (rewrite ?G2; assumption).
  cbn [defaultValue]. fold speed.
  rewrite (updateRotation_continue _ _
             {| env_distance := leg_distance leg;
                env_canJump := canJump_value (leg_config leg);
                env_direction := d;
                impulseVector := Vector3.scale d speed;
                startPosition := cp;
                distanceTraveled := 0;
                climbing := false;
                wasOnGround := true;
                resolve := t2 |}).
  - rewrite drain_fuel_nil by (cbn; now rewrite G6).
    unfold state_of, leg_ready. cbn.
    rewrite ?G1, ?G2, ?G3, ?G4, ?G5, ?G7, ?G8, ?F1, ?F3, ?F4, ?F5, ?F6, ?F7, ?F9, ?F11.
    cbn. rewrite ?length_app, ?F8. subst cp. rewrite !center_center.
    assert (HL : (resolve e < length (promises s))%nat)
      by (eapply lookup_lt_Some; eassumption).
    split; [now rewrite list_lookup_insert_eq|].
    split; [rewrite list_lookup_insert_ne by congruence; exact Ht2|].
    split; [rewrite <- F8; now apply list_lookup_middle|].
    split; [cbn; lia|].
    split; [reflexivity|].
    split; [now rewrite <- app_assoc|].
    split; [reflexivity|].
    rewrite <- !app_assoc. reflexivity.
  - unfold leg_ready. cbn. rewrite G5, G2, F3, F4. subst cp.
    rewrite center_center. apply list_lookup_middle. reflexivity.
  - unfold aborted, leg_ready. cbn. rewrite G1, G2, F1. cbn. now rewrite Hs, F2.
  - cbn. exact Hpos.
Qed.

Lemma next_leg_starts_in_the_same_task_witness :
  length (legs (step twoLegs (Fire 0))) = 2%nat
  /\ intervalHandles (manager (step twoLegs (Fire 0))) = [1%nat].
Proof.
  rewrite twoLegs_eq.
  set (s := {| manager := _ |}).
  set (e := {| env_distance := 0; env_canJump := Some true;
               env_direction := Vector3.mk 0 0 (-1);
               impulseVector := Vector3.scale (Vector3.mk 0 0 (-1)) 0.1;
               startPosition := Vector3.center (Vector3.mk 0 64 0);
               distanceTraveled := 0; climbing := false; wasOnGround := true;
               resolve := 1%nat |}).
  set (leg := {| leg_direction := "east"; leg_distance := 5;
                 leg_config := {| canJump := Some (Some true) |} |}).
  assert (Hd : env_distance e <= distanceTraveled e + displacement s e).
  { unfold displacement.
    match goal with
    | |- context [Vector3.length ?v] => pose proof (length_nonneg v)
    end.
    cbn [env_distance distanceTraveled e]. lra. }
  destruct (next_leg_starts_in_the_same_task s 0%nat 5%nat 0%nat e
              (ThenMove 0) leg 2%nat
              {| defaultValue := Some 0.1; currentValue := 0 |}
              (Vector3.mk 1 0 0)
              eq_refl eq_refl eq_refl eq_refl eq_refl eq_refl eq_refl eq_refl
              Hd eq_refl eq_refl ltac:(discriminate) eq_refl eq_refl
              ltac:(cbn; lra))
    as (_ & _ & _ & H4 & H5 & _).
  split; [exact H4 | exact H5].
Defined.

(** ** The config of the manager *)

Ltac config_frame :=
  repeat match goal with
         | |- context [match ?x with _ => _ end] => destruct x
         end;
  repeat (rewrite ?settle_manager, ?clearAllIntervals_eq; cbn);
  try reflexivity.

Lemma updateRotation_config (L : LegId) (s : State) :
  config (manager (updateRotation L s)) = config (manager s).
Proof. unfold updateRotation. config_frame. Qed.

Lemma moveEntity_config (L : LegId) (s : State) :
  config (manager (moveEntity L s)) = config (manager s).
Proof. unfold moveEntity. cbv zeta. config_frame. Qed.

Lemma executeMove_config direction distance options (t : PromiseId) (s : State) :
  config (manager (executeMove direction distance options t s))
  = config (manager s).
Proof.
  unfold executeMove.
  destruct (negb (isValid (entity s)));
    [now rewrite settle_manager, clearAllIntervals_eq|].
  destruct (movement (entity s)); [|now rewrite settle_manager].
  destruct (directions direction); [|now rewrite settle_manager].
  now rewrite updateRotation_config.
Qed.

Lemma runJob_config (j : Job) (s : State) :
  config (manager (runJob j s)) = config (manager s).
Proof.
  destruct j as [[leg t|t]|r]; cbn [runJob].
  - unfold moveStep. destruct (aborted s).
    + now rewrite settle_manager, clearAllIntervals_eq.
    + rewrite executeMove_config.
      now destruct (onStart (callbacks (manager s))).
  - unfold completeStep. rewrite settle_manager.
    now destruct (onComplete (callbacks (manager s))).
  - now rewrite settle_manager.
Qed.

Lemma drain_fuel_config (fuel : nat) (s : State) :
  config (manager (drain_fuel fuel s)) = config (manager s).
Proof.
  revert s. induction fuel as [|fuel IH]; intros s; [reflexivity|].
  cbn. destruct (jobs s) as [|j js]; [reflexivity|].
  now rewrite IH, runJob_config.
Qed.

Lemma call_config (c : Call) (s : State) :
  config (manager (call c s)) = config (manager s).
Proof.
  destruct c as [event cb|direction distance options| |]; cbn [call].
  - unfold on.
    destruct (String.eqb event "onStart"); [reflexivity|].
    destruct (String.eqb event "onStop"); [reflexivity|].
    destruct (String.eqb event "onComplete"); reflexivity.
  - unfold move. cbn.
    match goal with
    | |- context [then_ ?p ?f s] =>
        destruct (then_frame p f s) as (E1 & _)
    end.
    now rewrite E1.
  - unfold start.
    destruct (then_frame (queue (manager s)) CompleteStep s) as (E1 & _).
    now rewrite E1.
  - unfold stop. rewrite clearAllIntervals_eq. cbn.
    now destruct (onStop (callbacks (manager s))).
Qed.

Lemma step_config (s : State) (i : Input) :
  config (manager (step s i)) = config (manager s).
Proof.
  unfold step, drain. rewrite drain_fuel_config.
  destruct i as [calls|h|w]; cbn [task].
  - revert s. induction calls as [|c calls IH]; intros s; [reflexivity|].
    cbn. now rewrite IH, call_config.
  - unfold fire. destruct (find _ (scheduled s)) as [sc|]; [|reflexivity].
    destruct (callback sc); cbn [invoke];
      rewrite ?moveEntity_config, ?updateRotation_config;
      now destruct (period sc).
  - reflexivity.
Qed.

Lemma run_config (inputs : list Input) (s : State) :
  config (manager (run s inputs)) = config (manager s).
Proof.
  revert s. induction inputs as [|i inputs IH]; intros s; [reflexivity|].
  cbn. fold (run (step s i) inputs). now rewrite IH, step_config.
Qed.

(** X25: no method changes the manager's config: in every state a run
    reaches it is the one the constructor made, the default [canJump: true]
    overwritten by whatever [canJump] the constructor's argument has, be it
    [undefined].  The step [move] chains carries the direction, the
    distance and the spread of that config and the options; what a leg
    reads from it as [canJump] is the value the options hold if they have
    the property, else the value the constructor's argument holds if it
    has the property, else true, and a value held may be [undefined].  The
    step waits on the queue promise when that is pending and is queued as
    a job when that is settled. *)
Theorem config_is_fixed (e : Entity) (cfg : MovementConfig)
  (inputs : list Input) (direction : string) (distance : R)
  (options : MovementConfig) :
  let s := run (construct e cfg) inputs in
  let leg := {| leg_direction := direction; leg_distance := distance;
                leg_config :=
                  spread (spread {| canJump := Some (Some true) |} cfg)
                    options |} in
  config (manager s) = spread {| canJump := Some (Some true) |} cfg
  /\ canJump (config (manager s)) = Some (canJump_of cfg noConfig)
  /\ canJump (leg_config leg) = Some (canJump_of cfg options)
  /\ canJump_value (leg_config leg) = canJump_of cfg options
  /\ forall qr,
       promises s !! queue (manager s) = Some qr ->
       let s1 := move direction distance options s in
       (pstate qr = Pending ->
        exists qr', promises s1 !! queue (manager s) = Some qr'
                    /\ reactions qr'
                       = reactions qr ++ [MoveStep leg (length (promises s))])
       /\ (pstate qr = Fulfilled ->
           jobs s1 = jobs s ++ [Run (MoveStep leg (length (promises s)))])
       /\ (pstate qr = Rejected ->
           jobs s1 = jobs s ++ [Skip (MoveStep leg (length (promises s)))]).
Proof.
  intros s leg.
  assert (Hc : config (manager s) = spread {| canJump := Some (Some true) |} cfg)
    by (subst s; now rewrite run_config).
  split; [exact Hc|]. split.
  { rewrite Hc. unfold spread, canJump_of. cbn. now destruct (canJump cfg). }
  split.
  { subst leg. unfold spread, canJump_of. cbn.
    now destruct (canJump options), (canJump cfg). }
  split.
  { subst leg. unfold canJump_value, spread, canJump_of. cbn.
    now destruct (canJump options), (canJump cfg). }
  intros qr Hq s1.
  subst s1. unfold move, then_. rewrite Hq, Hc. fold leg.
  assert (HL : (queue (manager s) < length (promises s))%nat)
    by (eapply lookup_lt_Some; eassumption).
  destruct (pstate qr) eqn:Hst; cbn [with_manager with_promises set_queue
    manager promises jobs fst snd job_of];
    (split; [|split]); try discriminate; intros _; try reflexivity.
  exists {| pstate := Pending;
            reactions := reactions qr ++ [MoveStep leg (length (promises s))];
            origin := origin qr |}.
  split; [|reflexivity].
  now rewrite list_lookup_insert_eq by (rewrite length_app; cbn; lia).
Qed.

Lemma config_is_fixed_witness :
  jobs (move "north" 5 {| canJump := Some None |}
          (construct Scenario.agent Scenario.noOptions))
  = [Run (MoveStep {| leg_direction := "north"; leg_distance := 5;
                      leg_config := {| canJump := Some None |} |} 1)].
Proof.
  destruct (config_is_fixed Scenario.agent Scenario.noOptions [] "north"%string
              5 {| canJump := Some None |}) as (_ & _ & _ & _ & H).
  destruct (H {| pstate := Fulfilled; reactions := []; origin := Resolved |}
              eq_refl) as (_ & H2 & _).
  apply H2. reflexivity.
Defined.
